(** * Draft.js: key regeneration of block maps, composition handling, focus handling

    A shallow embedding of
    - [src/model/transaction/randomizeBlockMapKeys.js],
    - [src/component/handlers/composition/DraftEditorCompositionHandler.js],
    - [src/component/handlers/edit/editOnFocus.js],
    and the properties of these three modules. *)

From stdpp Require Import base strings list gmap.
From Stdlib Require Import ZArith.

Open Scope string_scope.

(** ** Block records *)

Definition Key := string.

(** [ContentBlock]: the flat block record.  Only the fields the rekeying code
    can observe are kept; [characterList] and [data] ride along with [text]. *)
Module ContentBlock.
Record t := mk { key : Key; type : string; text : string; depth : nat }.

(** [block.set('key', k)] *)
Definition set_key (k : Key) (b : t) : t := mk k (type b) (text b) (depth b).
End ContentBlock.

(** [ContentBlockNode]: the tree block record, with its four kinds of links.
    A link is [null] ([None]) or a key. *)
Module ContentBlockNode.
Record t := mk {
  key : Key; type : string; text : string; depth : nat;
  parent : option Key;
  children : list Key;
  prevSibling : option Key;
  nextSibling : option Key }.

Definition getKey := key.
Definition getParentKey := parent.
Definition getChildKeys := children.
Definition getPrevSiblingKey := prevSibling.
Definition getNextSiblingKey := nextSibling.

Definition set_key (v : Key) (b : t) : t :=
  mk v (type b) (text b) (depth b) (parent b) (children b) (prevSibling b) (nextSibling b).
Definition set_parent (v : option Key) (b : t) : t :=
  mk (key b) (type b) (text b) (depth b) v (children b) (prevSibling b) (nextSibling b).
Definition set_children (v : list Key) (b : t) : t :=
  mk (key b) (type b) (text b) (depth b) (parent b) v (prevSibling b) (nextSibling b).
Definition set_prevSibling (v : option Key) (b : t) : t :=
  mk (key b) (type b) (text b) (depth b) (parent b) (children b) v (nextSibling b).
Definition set_nextSibling (v : option Key) (b : t) : t :=
  mk (key b) (type b) (text b) (depth b) (parent b) (children b) (prevSibling b) v.
End ContentBlockNode.

Module CBN := ContentBlockNode.

#[global] Instance ContentBlockNode_eq_dec : EqDecision CBN.t.
Proof. solve_decision. Defined.

(** A block map holds records of either shape ([BlockNodeRecord]). *)
Inductive BlockNodeRecord :=
| Flat (b : ContentBlock.t)
| Node (n : ContentBlockNode.t).

Definition record_key (r : BlockNodeRecord) : Key :=
  match r with Flat b => ContentBlock.key b | Node n => CBN.key n end.

Definition record_text (r : BlockNodeRecord) : string :=
  match r with Flat b => ContentBlock.text b | Node n => CBN.text n end.

Definition record_set_key (k : Key) (r : BlockNodeRecord) : BlockNodeRecord :=
  match r with
  | Flat b => Flat (ContentBlock.set_key k b)
  | Node n => Node (CBN.set_key k n)
  end.

(** [BlockMap]: an [OrderedMap] from key to block, held as the list of its
    values in map order.  As everywhere in Draft.js (BlockMapBuilder), the
    entry of a block is filed under the block's own key. *)
Definition BlockMap := list BlockNodeRecord.

(** JavaScript truthiness of a nullable string: [null] and the empty string
    are falsy. *)
Definition truthy (k : Key) : bool := bool_decide (k ≠ "").

(** ** Immutable.js operations used by the rekeying pass *)

(** [map.get(k)]: the entry filed under [k], or [undefined]. *)
Definition get (k : Key) (m : list CBN.t) : option CBN.t :=
  snd <$> list_find (λ b, CBN.key b = k) m.

(** [map.setIn([k, field], v)] for an existing entry [k]: [f] is the field
    update.  Every call of the pass addresses an entry that exists. *)
Definition setIn (k : Key) (f : CBN.t → CBN.t) (m : list CBN.t) : list CBN.t :=
  (λ b, if decide (CBN.key b = k) then f b else b) <$> m.

(** [list.indexOf(k)]; [None] stands for [-1]. *)
Definition indexOf (k : Key) (l : list Key) : option nat :=
  fst <$> list_find (λ x, x = k) l.

(** [list.set(i, v)] at the result of [indexOf].  Immutable.js counts a
    negative index from the end: [-1] addresses the last element, and on an
    empty list it makes room in front. *)
Definition list_set (i : option nat) (v : Key) (l : list Key) : list Key :=
  match i with
  | Some i => <[i := v]> l
  | None => match l with [] => [v] | _ => <[length l - 1 := v]> l end
  end.

(** [OrderedMap(pairs)]: entries are set one after the other; a key seen
    before keeps its place and gets the later value. *)
Fixpoint om_set {B} (keyOf : B → Key) (v : B) (m : list B) : list B :=
  match m with
  | [] => [v]
  | x :: m' => if decide (keyOf x = keyOf v) then v :: m' else x :: om_set keyOf v m'
  end.

Definition OrderedMap {B} (keyOf : B → Key) (entries : list B) : list B :=
  foldl (λ m v, om_set keyOf v m) [] entries.

(** ** A plain object used as a map *)

(** What a read [obj[k]] of a plain JavaScript object gives: a string stored
    under [k] by an assignment, or else what the prototype chain holds under
    [k], which is no key: [Object.prototype] itself for ["__proto__"],
    [undefined] or a method of [Object.prototype] for other names. *)
Inductive JsValue :=
| JsString (k : Key)
| Inherited (k : Key).

(** [obj[k] = v] for a string [v].  The name ["__proto__"] is an accessor
    of [Object.prototype] whose setter ignores strings: nothing is stored.
    Under any other name the assignment makes an own property.  The own
    properties are held as a finite map. *)
Definition obj_set (k v : Key) (obj : gmap Key Key) : gmap Key Key :=
  if decide (k = "__proto__") then obj else <[k := v]> obj.

(** [obj[k]]. *)
Definition obj_get (k : Key) (obj : gmap Key Key) : JsValue :=
  if decide (k = "__proto__") then Inherited k
  else match obj !! k with
       | Some v => JsString v
       | None => Inherited k
       end.

(** ** The rekeying functions *)

Section Rekeyer.

(** [generateRandomKey] is not part of these sources.  Its [n]-th call in
    the life of the process returns [generateRandomKey n]; the functions
    below thread the number of calls made so far. *)
Variable generateRandomKey : nat → Key.

(** The mutable variables of [randomizeContentBlockNodeKeys];
    [newKeysRef] is a plain object ([{}]), held by its own properties. *)
Record PassState := mkPass {
  blockMapState : list CBN.t;
  newKeysRef : gmap Key Key;
  lastRootBlock : option CBN.t;
  calls : nat }.

(** Body of [childrenKeys.forEach]. *)
Definition visitChild (block : CBN.t) (key : Key) (m : list CBN.t) (childKey : Key)
  : list CBN.t :=
  match get childKey m with
  | Some _ => setIn childKey (CBN.set_parent (Some key)) m
  | None =>
      setIn (CBN.getKey block)
        (CBN.set_children
           (filter (λ child, child ≠ childKey) (CBN.getChildKeys block))) m
  end.

(** [if (nextKey) { ... }] *)
Definition linkNext (block : CBN.t) (key : Key) (m : list CBN.t) : list CBN.t :=
  match CBN.getNextSiblingKey block with
  | Some nextKey =>
      if truthy nextKey then
        match get nextKey m with
        | Some _ => setIn nextKey (CBN.set_prevSibling (Some key)) m
        | None => setIn (CBN.getKey block) (CBN.set_nextSibling None) m
        end
      else m
  | None => m
  end.

(** [if (prevKey) { ... }] *)
Definition linkPrev (block : CBN.t) (key : Key) (m : list CBN.t) : list CBN.t :=
  match CBN.getPrevSiblingKey block with
  | Some prevKey =>
      if truthy prevKey then
        match get prevKey m with
        | Some _ => setIn prevKey (CBN.set_nextSibling (Some key)) m
        | None => setIn (CBN.getKey block) (CBN.set_prevSibling None) m
        end
      else m
  | None => m
  end.

(** [parentKey && blockMapState.get(parentKey)] *)
Definition resolvedParent (block : CBN.t) (m : list CBN.t) : option (Key * CBN.t) :=
  match CBN.getParentKey block with
  | Some parentKey =>
      if truthy parentKey then (parentKey,.) <$> get parentKey m else None
  | None => None
  end.

(** [if (parentKey && ...) { ... } else { ... }], with the new value of
    [lastRootBlock].  The fields of a block hold keys.  [lastRootBlock] was
    visited before, so the read [newKeysRef[lastRootBlock.getKey()]] finds
    the key written for it, unless its key is ["__proto__"]; what the code
    then stores as [prevSibling] is no key, and the map is no block map any
    more: [None]. *)
Definition linkParent (block : CBN.t) (key : Key) (refs : gmap Key Key)
    (lastRoot : option CBN.t) (m : list CBN.t)
  : option (list CBN.t * option CBN.t) :=
  let oldKey := CBN.getKey block in
  match resolvedParent block m with
  | Some (parentKey, parentBlock) =>
      let parentChildrenList := CBN.getChildKeys parentBlock in
      Some
        (setIn parentKey
           (CBN.set_children
              (list_set (indexOf (CBN.getKey block) parentChildrenList) key
                 parentChildrenList)) m,
         lastRoot)
  | None =>
      let m := setIn oldKey (CBN.set_parent None) m in
      m ← match lastRoot with
          | Some lastRootBlock =>
              let m :=
                setIn (CBN.getKey lastRootBlock) (CBN.set_nextSibling (Some key)) m in
              match obj_get (CBN.getKey lastRootBlock) refs with
              | JsString prev => Some (setIn oldKey (CBN.set_prevSibling (Some prev)) m)
              | Inherited _ => None
              end
          | None => Some m
          end;
      Some (m, get oldKey m)
  end.

(** Body of [blockMapState.forEach].  [block] is the entry as the walk
    yields it: Immutable.js walks the entries the map had when [forEach]
    started, so [block] is the block of the input map, while [get] and
    [setIn] act on the mutable copy. *)
Definition visitBlock (s : PassState) (block : CBN.t) : option PassState :=
  let oldKey := CBN.getKey block in
  let childrenKeys := CBN.getChildKeys block in
  let key := generateRandomKey (calls s) in
  let refs := obj_set oldKey key (newKeysRef s) in
  let m := linkNext block key (blockMapState s) in
  let m := linkPrev block key m in
  '(m, lastRoot) ← linkParent block key refs (lastRootBlock s) m;
  let m := foldl (visitChild block key) m childrenKeys in
  Some (mkPass m refs lastRoot (S (calls s))).

(** [blockMapState.forEach(...)]: the blocks of the input map are visited
    in order. *)
Fixpoint visitAll (s : PassState) (blocks : list CBN.t) : option PassState :=
  match blocks with
  | [] => Some s
  | block :: rest => s' ← visitBlock s block; visitAll s' rest
  end.

(** The key a block gets in the rebuilt map, [newKeysRef[block.getKey()]]. *)
Definition newKeyOf (refs : gmap Key Key) (b : CBN.t) : JsValue :=
  obj_get (CBN.getKey b) refs.

(** [[newKeysRef[block.getKey()], block.set('key', newKeysRef[block.getKey()])]]:
    an entry of the rebuilt map.  A value that is no string makes no key
    of a block map: [None]. *)
Definition rekeyEntry (refs : gmap Key Key) (block : CBN.t) : option CBN.t :=
  match newKeyOf refs block with
  | JsString key => Some (CBN.set_key key block)
  | Inherited _ => None
  end.

(** [None]: what the code returns is no block map, a value that is no
    string stands where a key belongs. *)
Definition randomizeContentBlockNodeKeys (c : nat) (blockMap : list CBN.t)
  : option (list CBN.t * nat) :=
  s ← visitAll (mkPass blockMap ∅ None c) blockMap;
  entries ← mapM (rekeyEntry (newKeysRef s)) (blockMapState s);
  Some (OrderedMap CBN.key entries, calls s).

(** [blockMap.toArray().map(block => [key, block.set('key', key)])], one
    call of the generator per block, in order. *)
Fixpoint rekeyEach (c : nat) (blocks : BlockMap) : BlockMap * nat :=
  match blocks with
  | [] => ([], c)
  | block :: rest =>
      let key := generateRandomKey c in
      let '(rest', c') := rekeyEach (S c) rest in
      (record_set_key key block :: rest', c')
  end.

Definition randomizeContentBlockKeys (c : nat) (blockMap : BlockMap)
  : BlockMap * nat :=
  let '(entries, c') := rekeyEach c blockMap in
  (OrderedMap record_key entries, c').

(** The nodes of a map all of whose records are [ContentBlockNode]s. *)
Fixpoint asNodes (blockMap : BlockMap) : option (list CBN.t) :=
  match blockMap with
  | [] => Some []
  | Node n :: rest => (n ::.) <$> asNodes rest
  | Flat _ :: _ => None
  end.

(** The dispatch looks at the first record only.  A map that starts with a
    node and holds a flat block makes the tree pass call a method the flat
    record lacks; this [TypeError] is [None], as is a result of the tree
    pass that is no block map. *)
Definition randomizeBlockMapKeys (c : nat) (blockMap : BlockMap)
  : option (BlockMap * nat) :=
  match blockMap with
  | Node _ :: _ =>
      nodes ← asNodes blockMap;
      match randomizeContentBlockNodeKeys c nodes with
      | Some (m, c') => Some (Node <$> m, c')
      | None => None
      end
  | _ => Some (randomizeContentBlockKeys c blockMap)
  end.

End Rekeyer.

(** ** The pass, block by block

    Every [setIn] of the pass rewrites one field of the entry filed under one
    key, and the keys of the map stay as they are.  So each phase of
    [visitBlock] acts on the blocks of the map one by one; [keys] are the
    keys of the map.  The steps below describe a visit in which the read of
    [newKeysRef] finds the own property [refs !! l] written for the last
    root (see [linkParent_blocks]). *)

Section BlockByBlock.
Variable keys : list Key.

(** The key a link leads to, when it is truthy and filed in the map. *)
Definition linked (o : option Key) : option Key :=
  k ← o; if truthy k && bool_decide (k ∈ keys) then Some k else None.

(** A truthy link that leads outside the map. *)
Definition dangling (o : option Key) : bool :=
  match o with
  | Some k => truthy k && bool_decide (k ∉ keys)
  | None => false
  end.

Definition nextStep (block : CBN.t) (key : Key) (b : CBN.t) : CBN.t :=
  if bool_decide (linked (CBN.nextSibling block) = Some (CBN.key b))
  then CBN.set_prevSibling (Some key) b
  else if dangling (CBN.nextSibling block) && bool_decide (CBN.key b = CBN.key block)
  then CBN.set_nextSibling None b
  else b.

Definition prevStep (block : CBN.t) (key : Key) (b : CBN.t) : CBN.t :=
  if bool_decide (linked (CBN.prevSibling block) = Some (CBN.key b))
  then CBN.set_nextSibling (Some key) b
  else if dangling (CBN.prevSibling block) && bool_decide (CBN.key b = CBN.key block)
  then CBN.set_prevSibling None b
  else b.

Definition parentStep (block : CBN.t) (key : Key) (refs : gmap Key Key)
    (lastRootKey : option Key) (b : CBN.t) : CBN.t :=
  match linked (CBN.parent block) with
  | Some parentKey =>
      if bool_decide (CBN.key b = parentKey) then
        CBN.set_children
          (list_set (indexOf (CBN.key block) (CBN.children b)) key (CBN.children b)) b
      else b
  | None =>
      let b := if bool_decide (CBN.key b = CBN.key block)
               then CBN.set_parent None b else b in
      match lastRootKey with
      | Some l =>
          let b := if bool_decide (CBN.key b = l)
                   then CBN.set_nextSibling (Some key) b else b in
          if bool_decide (CBN.key b = CBN.key block)
          then CBN.set_prevSibling (refs !! l) b else b
      | None => b
      end
  end.

Definition childStep (block : CBN.t) (key : Key) (b : CBN.t) (childKey : Key) : CBN.t :=
  if bool_decide (childKey ∈ keys) then
    if bool_decide (CBN.key b = childKey) then CBN.set_parent (Some key) b else b
  else if bool_decide (CBN.key b = CBN.key block) then
    CBN.set_children (filter (λ child, child ≠ childKey) (CBN.children block)) b
  else b.

(** One visit of [block], seen from the entry [b]. *)
Definition visitStep (block : CBN.t) (key : Key) (refs : gmap Key Key)
    (lastRootKey : option Key) (b : CBN.t) : CBN.t :=
  foldl (childStep block key)
    (parentStep block key refs lastRootKey (prevStep block key (nextStep block key b)))
    (CBN.children block).

(** The children list of [block] after its own [childrenKeys.forEach]: the
    last entry that leads outside the map is filtered out of the list the
    block had. *)
Definition dropLastAbsent (l : list Key) : list Key :=
  match last (filter (λ c, c ∉ keys) l) with
  | Some q => filter (λ c, c ≠ q) l
  | None => l
  end.

End BlockByBlock.

(** ** The shape of a tree block map *)

Section TreeShape.
Variable m : list CBN.t.

Definition keysOf : list Key := CBN.key <$> m.

(** The place in the map of the block a link leads to. *)
Definition resolve (o : option Key) : option nat :=
  k ← linked keysOf o; indexOf k keysOf.

(** The block at place [j] has no parent in the map. *)
Definition isRootAt (j : nat) : bool :=
  match m !! j with
  | Some X => bool_decide (resolve (CBN.parent X) = None)
  | None => false
  end.

(** The last root before place [i]: the value of [lastRootBlock] when the
    walk reaches [i]. *)
Fixpoint lastRootIdx (i : nat) : option nat :=
  match i with
  | 0 => None
  | S i => if isRootAt i then Some i else lastRootIdx i
  end.

(** The root before place [i] that found the root at [j] as [lastRootBlock]:
    the next root after [j], once the walk has passed it. *)
Fixpoint chainNext (i j : nat) : option nat :=
  match i with
  | 0 => None
  | S i =>
      if isRootAt i && bool_decide (lastRootIdx i = Some j) then Some i
      else chainNext i j
  end.

(** No link is the empty string, and no key is listed twice as a child. *)
Definition wf_block (X : CBN.t) : bool :=
  bool_decide (CBN.nextSibling X ≠ Some "")
  && bool_decide (CBN.prevSibling X ≠ Some "")
  && bool_decide (CBN.parent X ≠ Some "")
  && bool_decide (NoDup (CBN.children X)).

(** Between the blocks [X] at [j] and [Y] at [w]: [X] names [Y] as next
    sibling exactly when [Y] names [X] as previous sibling; [X] names [Y] as
    parent exactly when [Y] lists [X] as a child, and then [Y] comes first. *)
Definition wf_pair (j w : nat) (X Y : CBN.t) : bool :=
  bool_decide (resolve (CBN.nextSibling X) = Some w
               ↔ resolve (CBN.prevSibling Y) = Some j)
  && bool_decide (resolve (CBN.parent X) = Some w ↔ CBN.key X ∈ CBN.children Y)
  && bool_decide (resolve (CBN.parent X) = Some w → w < j).

(** Roots are chained in map order: a root's link to a previous sibling in
    the map leads to the root before it, and that root's link to a next
    sibling in the map leads to this root. *)
Definition wf_chain (i : nat) (X : CBN.t) : bool :=
  if isRootAt i then
    match lastRootIdx i with
    | Some l =>
        bool_decide (resolve (CBN.prevSibling X) = None
                     ∨ resolve (CBN.prevSibling X) = Some l)
        && match m !! l with
           | Some L =>
               bool_decide (resolve (CBN.nextSibling L) = None
                            ∨ resolve (CBN.nextSibling L) = Some i)
           | None => true
           end
    | None => true
    end
  else true.

(** The invariants of a tree block map, fragments included. *)
Definition wellFormed : bool :=
  bool_decide (NoDup keysOf)
  && forallb wf_block m
  && forallb (λ jX, forallb (λ wY, wf_pair jX.1 wY.1 jX.2 wY.2) (imap pair m))
       (imap pair m)
  && forallb (λ iX, wf_chain iX.1 iX.2) (imap pair m).

(** The same invariants, spelled out. *)
Record WellFormed : Prop := {
  wf_keys : NoDup keysOf;
  wf_links : ∀ j X, m !! j = Some X →
    CBN.nextSibling X ≠ Some "" ∧ CBN.prevSibling X ≠ Some ""
    ∧ CBN.parent X ≠ Some "";
  wf_children : ∀ j X, m !! j = Some X → NoDup (CBN.children X);
  wf_siblings : ∀ j w X Y, m !! j = Some X → m !! w = Some Y →
    resolve (CBN.nextSibling X) = Some w ↔ resolve (CBN.prevSibling Y) = Some j;
  wf_parent : ∀ j w X Y, m !! j = Some X → m !! w = Some Y →
    resolve (CBN.parent X) = Some w ↔ CBN.key X ∈ CBN.children Y;
  wf_order : ∀ j w X, m !! j = Some X → resolve (CBN.parent X) = Some w → w < j;
  wf_chain_prev : ∀ i l X, m !! i = Some X → isRootAt i = true →
    lastRootIdx i = Some l →
    resolve (CBN.prevSibling X) = None ∨ resolve (CBN.prevSibling X) = Some l;
  wf_chain_next : ∀ i l L, m !! l = Some L → isRootAt i = true →
    lastRootIdx i = Some l →
    resolve (CBN.nextSibling L) = None ∨ resolve (CBN.nextSibling L) = Some i }.

(** *** Whole documents *)

(** The places the links of the block at [j] lead to once the map is
    rekeyed: a root is chained to the roots around it. *)
Definition nextPlace (j : nat) (X : CBN.t) : option nat :=
  match resolve (CBN.nextSibling X) with
  | Some w => Some w
  | None => chainNext (length m) j
  end.

Definition prevPlace (j : nat) (X : CBN.t) : option nat :=
  match resolve (CBN.prevSibling X) with
  | Some w => Some w
  | None => if isRootAt j then lastRootIdx j else None
  end.

(** The link is [null] or leads to a block of the map. *)
Definition inside (o : option Key) : bool :=
  bool_decide (o = None ∨ resolve o ≠ None).

(** No link of the block at [i] leads outside the map, and a root names the
    root before it as previous sibling and is named by it as next
    sibling. *)
Definition whole_block (i : nat) (X : CBN.t) : bool :=
  inside (CBN.parent X) && inside (CBN.nextSibling X) && inside (CBN.prevSibling X)
  && forallb (λ d, bool_decide (d ∈ keysOf)) (CBN.children X)
  && (if isRootAt i then
        match lastRootIdx i with
        | Some l =>
            bool_decide (resolve (CBN.prevSibling X) = Some l)
            && match m !! l with
               | Some L => bool_decide (resolve (CBN.nextSibling L) = Some i)
               | None => true
               end
        | None => true
        end
      else true).

(** A tree block map that is a whole document rather than a fragment. *)
Definition wholeDocument : bool :=
  wellFormed && forallb (λ iX, whole_block iX.1 iX.2) (imap pair m).

(** The block with every key replaced by what [rename] gives for it. *)
Definition relabel (rename : Key → option Key) (X : CBN.t) : CBN.t :=
  CBN.mk (default (CBN.key X) (rename (CBN.key X))) (CBN.type X) (CBN.text X)
    (CBN.depth X) (CBN.parent X ≫= rename) (omap rename (CBN.children X))
    (CBN.prevSibling X ≫= rename) (CBN.nextSibling X ≫= rename).

(** *** The map after [i] visits *)

Variable generateRandomKey : nat → Key.
Variable c : nat.

(** The key generated for the block at place [j]. *)
Definition newKey (j : nat) : Key := generateRandomKey (c + j).

(** The key generated for the block filed under [k], if there is one. *)
Definition newKeyFor (k : Key) : option Key := newKey <$> indexOf k keysOf.

(** An entry of a children list after [i] visits. *)
Definition relabelAt (i : nat) (k : Key) : Key :=
  match indexOf k keysOf with
  | Some x => if decide (x < i) then newKey x else k
  | None => k
  end.

Definition nextAt (i j : nat) (X : CBN.t) : option Key :=
  match resolve (CBN.nextSibling X) with
  | Some w => if decide (w < i) then Some (newKey w) else CBN.nextSibling X
  | None =>
      match chainNext i j with
      | Some z => Some (newKey z)
      | None => if decide (j < i) then None else CBN.nextSibling X
      end
  end.

Definition prevAt (i j : nat) (X : CBN.t) : option Key :=
  match resolve (CBN.prevSibling X) with
  | Some w => if decide (w < i) then Some (newKey w) else CBN.prevSibling X
  | None =>
      if decide (j < i) then
        if isRootAt j then newKey <$> lastRootIdx j else None
      else CBN.prevSibling X
  end.

Definition parentAt (i j : nat) (X : CBN.t) : option Key :=
  match resolve (CBN.parent X) with
  | Some p => if decide (p < i) then Some (newKey p) else CBN.parent X
  | None => if decide (j < i) then None else CBN.parent X
  end.

Definition childrenAt (i j : nat) (X : CBN.t) : list Key :=
  relabelAt i
    <$> (if decide (j < i) then dropLastAbsent keysOf (CBN.children X)
         else CBN.children X).

Definition blockAt (i j : nat) (X : CBN.t) : CBN.t :=
  CBN.mk (CBN.key X) (CBN.type X) (CBN.text X) (CBN.depth X)
    (parentAt i j X) (childrenAt i j X) (prevAt i j X) (nextAt i j X).

Definition stateAt (i : nat) : list CBN.t := imap (blockAt i) m.

(** The rekeyed map. *)
Definition rekeyed : list CBN.t :=
  imap (λ j X, CBN.set_key (newKey j) (blockAt (length m) j X)) m.

End TreeShape.

(** Modelled from the spec: [generateRandomKey], whose module is not among
    the sources.  The spec has every call "generate a fresh key", "freshly
    generated and unique": the [n] keys handed out from call [c] on are
    pairwise distinct, and none of them is among the keys [old] in use. *)
Definition freshKeys (generateRandomKey : nat → Key) (c n : nat) (old : list Key) : Prop :=
  NoDup (generateRandomKey <$> seq c n)
  ∧ Forall (λ k, k ∉ old) (generateRandomKey <$> seq c n).

(** ** Concrete block maps *)

(** A generator that hands out the keys of [ks], one after the other. *)
Definition keysFrom (ks : list Key) (n : nat) : Key := nth n ks "".

Definition gen8 : nat → Key :=
  keysFrom ["x0"; "x1"; "x2"; "x3"; "x4"; "x5"; "x6"; "x7"].

Definition leaf (k : Key) (t : string) (p prev next : option Key) : CBN.t :=
  CBN.mk k "unstyled" t 0 p [] prev next.

(** Scenario A: two flat blocks. *)
Definition scenarioA : list ContentBlock.t :=
  [ ContentBlock.mk "a" "unstyled" "Hi" 0; ContentBlock.mk "b" "unstyled" "Bye" 0 ].

(** Scenario B: a root with two children. *)
Definition scenarioB : list CBN.t :=
  [ CBN.mk "A" "unstyled" "" 0 None ["B"; "C"] None None;
    leaf "B" "b" (Some "A") None (Some "C");
    leaf "C" "c" (Some "A") (Some "B") None ].

(** A fragment cut after the first child of a parent with three children:
    two entries of [children] point outside the map. *)
Definition cutAfterFirstChild : list CBN.t :=
  [ CBN.mk "P" "unstyled" "" 0 None ["B1"; "B2"; "B3"] None None;
    leaf "B1" "one" (Some "P") None (Some "B2") ].

(** A fragment from the last child "B" of a parent "P" to the next root "S";
    "P" and "B"'s elder sibling "A" are outside. *)
Definition childThenRoot : list CBN.t :=
  [ leaf "B" "b" (Some "P") (Some "A") None;
    leaf "S" "s" None (Some "P") None ].

(** A whole document: two roots, the first with two children. *)
Definition twoRoots : list CBN.t :=
  [ CBN.mk "R1" "unstyled" "" 0 None ["a"; "b"] None (Some "R2");
    leaf "a" "a" (Some "R1") None (Some "b");
    leaf "b" "b" (Some "R1") (Some "a") None;
    leaf "R2" "r2" None (Some "R1") None ].

(** A map that starts with a flat block and holds a tree node. *)
Definition flatThenNode : BlockMap :=
  [ Flat (ContentBlock.mk "a" "unstyled" "Hi" 0);
    Node (leaf "B" "b" (Some "A") None (Some "C")) ].

(** ** The composition handler *)

Module Composition.

(** Modelled from the spec: [SelectionState], a record of this repository
    that is not among the sources: anchor and focus with their offsets, the
    direction and the focus flag; a selection is collapsed when anchor and
    focus coincide. *)
Record SelectionState := mkSelection {
  anchorKey : Key; anchorOffset : Z;
  focusKey : Key; focusOffset : Z;
  isBackward : bool; hasFocus : bool }.

Definition isCollapsed (sel : SelectionState) : bool :=
  bool_decide (anchorKey sel = focusKey sel)
  && bool_decide (anchorOffset sel = focusOffset sel).

(** [selection.merge({anchorOffset})] *)
Definition merge_anchorOffset (a : Z) (sel : SelectionState) : SelectionState :=
  mkSelection (anchorKey sel) a (focusKey sel) (focusOffset sel)
    (isBackward sel) (hasFocus sel).

(** [selection.merge({anchorOffset, focusOffset})] *)
Definition merge_offsets (a f : Z) (sel : SelectionState) : SelectionState :=
  mkSelection (anchorKey sel) a (focusKey sel) f (isBackward sel) (hasFocus sel).

(** [selection.set('hasFocus', v)] *)
Definition set_hasFocus (v : bool) (sel : SelectionState) : SelectionState :=
  mkSelection (anchorKey sel) (anchorOffset sel) (focusKey sel) (focusOffset sel)
    (isBackward sel) v.

Inductive EditorChangeType := insert_characters | remove_range | other_change.
Inductive RemovalDirection := backward | forward.

Section Handler.

(** The blocks and entities of a content state; the handlers never look
    inside. *)
Context {Document : Type}.

(** Modelled from the spec: [ContentState], as far as the handlers see
    it: the document and the selections recorded before and after the
    edit that produced it. *)
Record ContentState := mkContent {
  document : Document;
  selectionBefore : SelectionState;
  selectionAfter : SelectionState }.

(** [contentState.merge({selectionBefore, selectionAfter})] *)
Definition merge_selections (before after : SelectionState) (c : ContentState)
  : ContentState :=
  mkContent (document c) before after.

(** Modelled from the spec: the fields of [EditorState] (the document
    snapshot) that the handlers read or patch. *)
Record EditorState := mkEditorState {
  currentContent : ContentState;
  selection : SelectionState;
  inCompositionMode : bool;
  nativelyRenderedContent : option ContentState;
  forceSelection : bool;
  lastChangeType : option EditorChangeType }.

(** [EditorState.set(editorState, {inCompositionMode: v})] *)
Definition set_inCompositionMode (v : bool) (es : EditorState) : EditorState :=
  mkEditorState (currentContent es) (selection es) v
    (nativelyRenderedContent es) (forceSelection es) (lastChangeType es).

(** [EditorState.set(editorState, {nativelyRenderedContent: null,
    forceSelection: true})] *)
Definition set_forcedReset (es : EditorState) : EditorState :=
  mkEditorState (currentContent es) (selection es) (inCompositionMode es)
    None true (lastChangeType es).

(** The collaborators the handlers call; none of them is among the
    sources, so they are taken as given. *)
Class Host := {
  (** [UserAgent.isPlatform('Android')] *)
  isAndroid : bool;
  (** [EditorState.push] *)
  push : EditorState → ContentState → EditorChangeType → EditorState;
  (** [EditorState.forceSelection] *)
  EditorState_forceSelection : EditorState → SelectionState → EditorState;
  (** [editorState.getCurrentInlineStyle()], an ordered set of style names *)
  getCurrentInlineStyle : EditorState → list string;
  getEntityKeyForSelection : ContentState → SelectionState → option Key;
  isSelectionAtLeafStart : EditorState → bool;
  (** [DraftModifier.removeRange] and [DraftModifier.replaceText] *)
  removeRange : ContentState → SelectionState → RemovalDirection → ContentState;
  replaceText :
    ContentState → SelectionState → string → list string → option Key → ContentState
  }.

Context `{Host}.

(** What the handlers do to the outside, in order.  The calls are kept as
    a log of what the handlers themselves call; what [editor._onKeyDown]
    goes on to do with a key in edit mode, or the user's [onFocus] with the
    event, is theirs and is not followed. *)
Inductive HostCall :=
  | restoreEditorDOM
  | exitCurrentMode
  | update (es : EditorState)
  | _onKeyDown (which : Z)
  | preventDefault
  | props_onFocus.

(** Modelled from the spec: the editor component.  [update] commits a
    new document version; every call made on the editor is logged. *)
Record Editor := mkEditor {
  _latestEditorState : EditorState;
  has_onFocus : bool;
  hostCalls : list HostCall }.

Definition call (c : HostCall) (ed : Editor) : Editor :=
  mkEditor (_latestEditorState ed) (has_onFocus ed) (hostCalls ed ++ [c]).

Definition editor_update (es : EditorState) (ed : Editor) : Editor :=
  mkEditor es (has_onFocus ed) (hostCalls ed ++ [update es]).

(** The module-level variables. *)
Record Session := mkSession {
  resolved : bool;
  stillComposing : bool;
  textInputData : string;
  setTimeoutId : option nat;
  formerTextInputData : string }.

Definition RESOLVE_DELAY : Z := 20.

(** Key codes of [Keys]. *)
Definition Keys_RETURN : Z := 13.
Definition Keys_LEFT : Z := 37.
Definition Keys_RIGHT : Z := 39.

(** The two callbacks handed to [setTimeout]. *)
Inductive Task :=
  | resolveAfterEnd
  | keepAlive (data : string).

Record Timer := mkTimer { timerId : nat; delay : Z; task : Task }.

(** [window.getSelection()], as far as it is read. *)
Record DomSelection := mkDom { dom_anchorOffset : Z; dom_focusOffset : Z }.

Record World := mkWorld {
  session : Session;
  editor : Editor;
  domSelection : DomSelection;
  timers : list Timer;
  nextTimerId : nat }.

Definition with_session (s : Session) (w : World) : World :=
  mkWorld s (editor w) (domSelection w) (timers w) (nextTimerId w).
Definition with_editor (ed : Editor) (w : World) : World :=
  mkWorld (session w) ed (domSelection w) (timers w) (nextTimerId w).

(** [setTimeout(task, delay)] returns a handle that is never [0]. *)
Definition setTimeout (t : Task) (d : Z) (w : World) : nat * World :=
  let id := S (nextTimerId w) in
  (id, mkWorld (session w) (editor w) (domSelection w)
         (timers w ++ [mkTimer id d t]) id).

Definition clearTimeout (id : nat) (w : World) : World :=
  mkWorld (session w) (editor w) (domSelection w)
    (filter (λ t, timerId t ≠ id) (timers w)) (nextTimerId w).

(** JavaScript truthiness of a string. *)
Definition nonEmpty (s : string) : bool := bool_decide (s ≠ "").

Definition Zlength (s : string) : Z := Z.of_nat (String.length s).

(** Lines 202-216: the content and the selection the insertion works on. *)
Definition speculativeRemoval (formerComposedChars : string) (editorState : EditorState)
  : ContentState * SelectionState :=
  let contentState := currentContent editorState in
  let selection := selection editorState in
  if isAndroid && nonEmpty formerComposedChars && isCollapsed selection then
    let anchorOffset := (anchorOffset selection - Zlength formerComposedChars)%Z in
    let anchorOffset := if bool_decide (anchorOffset < 0)%Z then 0%Z else anchorOffset in
    let toRemoveSel := merge_anchorOffset anchorOffset selection in
    let contentState := removeRange (currentContent editorState) toRemoveSel backward in
    (contentState, selectionAfter contentState)
  else (contentState, selection).

(** Lines 229-237: the remapping of the recorded selections. *)
Definition remapSelection (originalDomSelection : DomSelection)
    (selection : SelectionState) (contentState : ContentState) : ContentState :=
  if isAndroid
     && bool_decide (dom_anchorOffset originalDomSelection
                     < anchorOffset (selectionAfter contentState))%Z
  then
    let startOffset :=
      Z.min (dom_anchorOffset originalDomSelection)
            (dom_focusOffset originalDomSelection) in
    let endOffset :=
      (startOffset + Z.abs (dom_focusOffset originalDomSelection
                            - dom_anchorOffset originalDomSelection))%Z in
    merge_selections (selectionAfter contentState)
      (merge_offsets startOffset endOffset selection) contentState
  else contentState.

(** Lines 190-194. *)
Definition mustReset (composedChars : string) (editorState : EditorState) : bool :=
  negb (nonEmpty composedChars)
  || isSelectionAtLeafStart editorState
  || bool_decide (0 < length (getCurrentInlineStyle editorState))
  || bool_decide (getEntityKeyForSelection (currentContent editorState)
                    (selection editorState) ≠ None).

Definition resolveComposition (w : World) : World :=
  if stillComposing (session w) then w
  else
    let composedChars := textInputData (session w) in
    let formerComposedChars := formerTextInputData (session w) in
    let w :=
      with_session
        (mkSession true (stillComposing (session w)) ""
           (setTimeoutId (session w)) "") w in
    let editorState := set_inCompositionMode false (_latestEditorState (editor w)) in
    let currentStyle := getCurrentInlineStyle editorState in
    let entityKey :=
      getEntityKeyForSelection (currentContent editorState) (selection editorState) in
    let originalDomSelection := domSelection w in
    let mustReset := mustReset composedChars editorState in
    let w := if mustReset then with_editor (call restoreEditorDOM (editor w)) w else w in
    let w := with_editor (call exitCurrentMode (editor w)) w in
    let '(contentState, selection) :=
      speculativeRemoval formerComposedChars editorState in
    if nonEmpty composedChars then
      let contentState :=
        replaceText contentState selection composedChars currentStyle entityKey in
      let contentState := remapSelection originalDomSelection selection contentState in
      with_editor
        (editor_update (push editorState contentState insert_characters) (editor w)) w
    else if mustReset then
      with_editor (editor_update (set_forcedReset editorState) (editor w)) w
    else w.

Definition onBeforeInput (data : string) (w : World) : World :=
  let s := session w in
  with_session
    (mkSession (resolved s) (stillComposing s) (textInputData s ++ data)
       (setTimeoutId s) (formerTextInputData s)) w.

Definition onCompositionStart (data : string) (w : World) : World :=
  let s := session w in
  with_session
    (mkSession (resolved s) true (textInputData s) (setTimeoutId s) data) w.

Definition onCompositionUpdate (data : string) (w : World) : World :=
  if negb isAndroid then w
  else
    let w :=
      match setTimeoutId (session w) with
      | Some id => clearTimeout id w
      | None => w
      end in
    let s := session w in
    let w :=
      with_session
        (mkSession false (stillComposing s) (textInputData s) (setTimeoutId s)
           (textInputData s)) w in
    let '(id, w) := setTimeout (keepAlive data) 1 w in
    let s := session w in
    with_session
      (mkSession (resolved s) (stillComposing s) (textInputData s) (Some id)
         (formerTextInputData s)) w.

(** The callback armed by [onCompositionUpdate]. *)
Definition keepAliveFires (data : string) (w : World) : World :=
  let s := session w in
  if negb (resolved s) && stillComposing s then
    resolveComposition
      (with_session
         (mkSession (resolved s) false (textInputData s ++ data) (setTimeoutId s)
            (formerTextInputData s)) w)
  else w.

Definition onCompositionEnd (w : World) : World :=
  let s := session w in
  let w :=
    with_session
      (mkSession false false (textInputData s) (setTimeoutId s)
         (formerTextInputData s)) w in
  snd (setTimeout resolveAfterEnd RESOLVE_DELAY w).

(** The callback armed by [onCompositionEnd]. *)
Definition resolveAfterEndFires (w : World) : World :=
  if negb (resolved (session w)) then resolveComposition w else w.

Definition onKeyDown (which : Z) (w : World) : World :=
  if negb (stillComposing (session w)) then
    let w := resolveComposition w in
    with_editor (call (_onKeyDown which) (editor w)) w
  else if bool_decide (which = Keys_RIGHT) || bool_decide (which = Keys_LEFT) then
    with_editor (call preventDefault (editor w)) w
  else w.

Definition onKeyPress (which : Z) (w : World) : World :=
  if bool_decide (which = Keys_RETURN) then
    with_editor (call preventDefault (editor w)) w
  else w.

(** What reaches the handler: the events the editor forwards and the
    timers that come due. *)
Inductive Event :=
  | BeforeInput (data : string)
  | CompositionStart (data : string)
  | CompositionUpdate (data : string)
  | CompositionEnd
  | KeyDown (which : Z)
  | KeyPress (which : Z)
  | TimerFires (id : nat).

Definition runTask (t : Task) (w : World) : World :=
  match t with
  | resolveAfterEnd => resolveAfterEndFires w
  | keepAlive data => keepAliveFires data w
  end.

(** A timer fires once, and only while it is pending. *)
Definition fire (id : nat) (w : World) : World :=
  match list_find (λ t, timerId t = id) (timers w) with
  | Some (_, t) => runTask (task t) (clearTimeout id w)
  | None => w
  end.

Definition step (w : World) (e : Event) : World :=
  match e with
  | BeforeInput data => onBeforeInput data w
  | CompositionStart data => onCompositionStart data w
  | CompositionUpdate data => onCompositionUpdate data w
  | CompositionEnd => onCompositionEnd w
  | KeyDown which => onKeyDown which w
  | KeyPress which => onKeyPress which w
  | TimerFires id => fire id w
  end.

Definition run (w : World) (es : list Event) : World := foldl step w es.

(** ** [editOnFocus] *)

Definition editOnFocus (ed : Editor) : Editor :=
  let editorState := _latestEditorState ed in
  let currentSelection := selection editorState in
  if hasFocus currentSelection then ed
  else
    let selection := set_hasFocus true currentSelection in
    let ed := if has_onFocus ed then call props_onFocus ed else ed in
    editor_update (EditorState_forceSelection editorState selection) ed.

End Handler.

Arguments ContentState : clear implicits.
Arguments EditorState : clear implicits.
Arguments Host : clear implicits.
Arguments HostCall : clear implicits.
Arguments Editor : clear implicits.
Arguments World : clear implicits.

End Composition.

(** ** Reading the log of host calls *)

Section Logs.
Context {Document : Type} `{Composition.Host Document}.
Import Composition.

(** The states committed by the [update] calls of a log, in order. *)
Definition updatesOf (l : list (HostCall Document)) : list (EditorState Document) :=
  omap (λ c, match c with update es => Some es | _ => None end) l.

(** The calls made on the editor between world [w] and world [w']. *)
Definition emittedBy (w w' : World Document) : list (HostCall Document) :=
  drop (length (hostCalls (editor w))) (hostCalls (editor w')).

(** The editor state a resolution works on. *)
Definition snapshot (w : World Document) : EditorState Document :=
  set_inCompositionMode false (_latestEditorState (editor w)).

(** The state handed to [update] by a resolution that passes the guard
    (see [resolveComposition_passed]). *)
Definition committed (w : World Document) : EditorState Document :=
  let es := snapshot w in
  let rm := speculativeRemoval (formerTextInputData (session w)) es in
  if nonEmpty (textInputData (session w)) then
    push es
      (remapSelection (domSelection w) rm.2
         (replaceText rm.1 rm.2 (textInputData (session w))
            (getCurrentInlineStyle es)
            (getEntityKeyForSelection (currentContent es) (selection es))))
      insert_characters
  else set_forcedReset es.

(** Events that neither end the composition nor let a timer come due. *)
Definition quiet (e : Event) : bool :=
  match e with
  | CompositionEnd | TimerFires _ => false
  | _ => true
  end.

(** The text handed over by the [beforeinput] events of a sequence. *)
Fixpoint inputOf (es : list Event) : string :=
  match es with
  | [] => ""
  | BeforeInput data :: es => data ++ inputOf es
  | _ :: es => inputOf es
  end.

(** Timer handles issued so far are at most [nextTimerId]. *)
Definition timersIssued (w : World Document) : Prop :=
  Forall (λ t, (timerId t ≤ nextTimerId w)%nat) (timers w)
  ∧ ∀ id, setTimeoutId (session w) = Some id → (id ≤ nextTimerId w)%nat.

(** The end timer [t] is pending: it is in the queue, no other timer carries
    its handle, and the keep-alive handle is another one. *)
Definition timerPending (t : nat) (w : World Document) : Prop :=
  (t ≤ nextTimerId w)%nat
  ∧ Forall (λ tm, timerId tm = t → task tm = resolveAfterEnd) (timers w)
  ∧ (∃ tm, tm ∈ timers w ∧ timerId tm = t)
  ∧ setTimeoutId (session w) ≠ Some t.

(** The composition goes on while the end timer [t] is pending. *)
Definition composingWith (t : nat) (w : World Document) : Prop :=
  stillComposing (session w) = true ∧ timerPending t w.

(** The event is the firing of timer [t]. *)
Definition fires (t : nat) (e : Event) : bool :=
  match e with
  | TimerFires id => bool_decide (id = t)
  | _ => false
  end.

(** The calls of one resolution that passes the guard. *)
Definition resolutionLog (w : World Document) : list (HostCall Document) :=
  ((if mustReset (textInputData (session w)) (snapshot w)
    then [restoreEditorDOM] else [])
   ++ [exitCurrentMode; update (committed w)])%list.

(** The [exitCurrentMode] calls of a log. *)
Definition exitsOf (l : list (HostCall Document)) : list unit :=
  omap (λ c, match c with exitCurrentMode => Some () | _ => None end) l.

(** The [restoreEditorDOM] calls of a log. *)
Definition restoresOf (l : list (HostCall Document)) : list unit :=
  omap (λ c, match c with restoreEditorDOM => Some () | _ => None end) l.

Definition isEnd (e : Event) : bool :=
  match e with
  | CompositionEnd => true
  | _ => false
  end.

Definition isKeepAlive (tm : Timer) : bool :=
  match task tm with
  | keepAlive _ => true
  | resolveAfterEnd => false
  end.

(** The pending keep-alive timers. *)
Definition keepAlives (w : World Document) : list Timer :=
  filter (λ tm, isKeepAlive tm = true) (timers w).

(** The keep-alive timers are tracked by [setTimeoutId]: at most one is
    pending, and [setTimeoutId] holds its handle. *)
Definition keepAliveTracked (w : World Document) : Prop :=
  (length (keepAlives w) ≤ 1)%nat
  ∧ ∀ tm, tm ∈ keepAlives w → setTimeoutId (session w) = Some (timerId tm).
End Logs.

(** ** A one-block editor to run the handlers on *)

Module OneBlock.
Import Composition.

(** Modelled from the spec: [DraftModifier] and [EditorState.push] /
    [EditorState.forceSelection], which are not among the sources, on a
    document of a single unstyled block without entities: the document is
    the block's text. *)
Definition Content := ContentState string.
Definition State := EditorState string.

Definition collapsedAt (sel : SelectionState) (o : Z) : SelectionState :=
  mkSelection (anchorKey sel) o (anchorKey sel) o false (hasFocus sel).

Definition startOf (sel : SelectionState) : Z := Z.min (anchorOffset sel) (focusOffset sel).
Definition endOf (sel : SelectionState) : Z := Z.max (anchorOffset sel) (focusOffset sel).

Definition splice (t : string) (from to : Z) (ins : string) : string :=
  String.substring 0 (Z.to_nat from) t ++ ins
  ++ String.substring (Z.to_nat to) (String.length t - Z.to_nat to) t.

(** Modelled from the spec: [DraftModifier.removeRange].  The range is cut
    out of the text and recorded as the selection before; the selection
    after is the caret where the range began, which is the range itself
    when the range is empty. *)
Definition removeRange (c : Content) (sel : SelectionState) (d : RemovalDirection)
  : Content :=
  mkContent (splice (document c) (startOf sel) (endOf sel) "") sel
    (collapsedAt sel (startOf sel)).

(** Modelled from the spec: [DraftModifier.replaceText].  The caret lands
    behind the inserted characters. *)
Definition replaceText (c : Content) (sel : SelectionState) (chars : string)
    (style : list string) (entity : option Key) : Content :=
  mkContent (splice (document c) (startOf sel) (endOf sel) chars) sel
    (collapsedAt sel (startOf sel + Zlength chars)).

(** Modelled from the spec: [EditorState.push].  The new state shows the
    content with the selection the content asks for. *)
Definition push (es : State) (c : Content) (t : EditorChangeType) : State :=
  mkEditorState c (selectionAfter c) (inCompositionMode es)
    (nativelyRenderedContent es) false (Some t).

(** Modelled from the spec: [EditorState.forceSelection]. *)
Definition forceSelection (es : State) (sel : SelectionState) : State :=
  mkEditorState (currentContent es) sel (inCompositionMode es) None true
    (lastChangeType es).

Definition host (android : bool) : Host string := {|
  isAndroid := android;
  Composition.push := push;
  EditorState_forceSelection := forceSelection;
  getCurrentInlineStyle := λ _, [];
  getEntityKeyForSelection := λ _ _, None;
  isSelectionAtLeafStart := λ es, bool_decide (anchorOffset (selection es) = 0%Z);
  Composition.removeRange := removeRange;
  Composition.replaceText := replaceText |}.

Definition caret (o : Z) : SelectionState := mkSelection "b1" o "b1" o false true.

(** An editor showing [t] with the caret at [o]; the content still records
    the caret of its last edit, [o0]. *)
Definition editorAt (t : string) (o0 o : Z) : Editor string :=
  mkEditor
    (mkEditorState (mkContent t (caret o0) (caret o0)) (caret o) true None false None)
    true [].

Definition idle : Session := mkSession false false "" None "".

Definition world (t : string) (o0 o : Z) (s : Session) (domA domF : Z) : World string :=
  mkWorld s (editorAt t o0 o) (mkDom domA domF) [] 0.

(** The session once the composition has ended with [txt] typed in. *)
Definition typed (txt former : string) : Session := mkSession false false txt None former.

(** Desktop: "a" was composed at the end of "hello". *)
Definition desktopRun : World string := world "hello" 5 5 (typed "a" "") 5 5.



(** Android, "ab" composed at offset 7 while the native selection runs
    backward from 5 to 2. *)
Definition androidBackwardRun : World string :=
  world "hello world" 7 7 (typed "ab" "") 5 2.

(** Android, the same with the native selection running forward from 2 to 5. *)
Definition androidForwardRun : World string :=
  world "hello world" 7 7 (typed "ab" "") 2 5.

(** A composition going on at the end of "hello", with [txt] in the
    buffer. *)
Definition composing (txt : string) : World string :=
  world "hello" 5 5 (mkSession false true txt None "") 5 5.

(** An editor whose selection lacks the focus flag. *)
Definition blurred : Editor string :=
  mkEditor
    (mkEditorState (mkContent "hello" (caret 0) (caret 0))
       (mkSelection "b1" 3 "b1" 3 false false) false None false None)
    true [].
End OneBlock.

(** * Properties *)

(** ** Rekeying *)

Section OrderedMapFacts.
Local Open Scope list_scope.

Lemma om_set_fresh {B} (keyOf : B → Key) (v : B) (m : list B) :
  keyOf v ∉ keyOf <$> m → om_set keyOf v m = m ++ [v].
Proof.
  induction m as [|x m IH]; simpl; [done|].
  rewrite not_elem_of_cons. intros [Hne Hm].
  rewrite decide_False by done. by rewrite IH.
Qed.

Lemma foldl_om_set_NoDup {B} (keyOf : B → Key) (entries : list B) : ∀ acc,
  NoDup (keyOf <$> (acc ++ entries)) →
  foldl (λ m v, om_set keyOf v m) acc entries = acc ++ entries.
Proof.
  induction entries as [|v entries IH]; intros acc Hnd; simpl.
  - by rewrite app_nil_r.
  - rewrite om_set_fresh.
    + rewrite IH; rewrite <- List.app_assoc; done.
    + rewrite fmap_app, fmap_cons in Hnd.
      apply NoDup_app in Hnd as (_ & Hdis & _).
      intros Hin. apply (Hdis _ Hin). left.
Qed.

(** Distinct keys: [OrderedMap] keeps every entry, in order. *)
Lemma OrderedMap_NoDup {B} (keyOf : B → Key) (entries : list B) :
  NoDup (keyOf <$> entries) → OrderedMap keyOf entries = entries.
Proof. intros Hnd. unfold OrderedMap. by rewrite foldl_om_set_NoDup. Qed.

End OrderedMapFacts.

(** *** One visit, block by block *)

Section VisitFacts.
Variable generateRandomKey : nat → Key.
Local Open Scope list_scope.

Implicit Types (st : list CBN.t) (b block : CBN.t) (k key : Key).

Lemma get_Some st k b : get k st = Some b → b ∈ st ∧ CBN.key b = k.
Proof.
  unfold get. destruct (list_find _ _) as [[i x]|] eqn:Hf; [|done].
  intros [= <-]. apply list_find_Some in Hf as (Hi & Hk & _).
  split; [by eapply list_elem_of_lookup_2|done].
Qed.

Lemma get_None st k : get k st = None ↔ k ∉ CBN.key <$> st.
Proof.
  unfold get. rewrite fmap_None, list_find_None, Forall_forall. split.
  - intros Hall (b & -> & Hb)%list_elem_of_fmap. by apply (Hall b).
  - intros Hk b Hb <-. apply Hk. by apply list_elem_of_fmap_2.
Qed.

Lemma get_is_Some st k : is_Some (get k st) ↔ k ∈ CBN.key <$> st.
Proof.
  rewrite <- not_eq_None_Some, get_None. split; [|tauto].
  intros Hn. by destruct (decide (k ∈ CBN.key <$> st)).
Qed.

Lemma setIn_keys st k f :
  (∀ b, CBN.key (f b) = CBN.key b) → CBN.key <$> setIn k f st = CBN.key <$> st.
Proof.
  intros Hf. unfold setIn. rewrite <- list_fmap_compose. apply list_fmap_ext.
  intros i b _. simpl. case_decide; [apply Hf|done].
Qed.

Lemma linkNext_blocks block key st :
  linkNext block key st = nextStep (CBN.key <$> st) block key <$> st.
Proof.
  unfold linkNext, nextStep, linked, dangling, CBN.getNextSiblingKey, CBN.getKey.
  destruct (CBN.nextSibling block) as [nx|]; simpl.
  2:{ rewrite <- (list_fmap_id st) at 1. apply list_fmap_ext. intros; simpl; by repeat case_bool_decide. }
  destruct (truthy nx); simpl.
  2:{ rewrite <- (list_fmap_id st) at 1. apply list_fmap_ext. intros; simpl; by repeat case_bool_decide. }
  destruct (get nx st) as [nb|] eqn:Hg.
  - assert (Hin : nx ∈ CBN.key <$> st) by (apply get_is_Some; eauto).
    rewrite (bool_decide_eq_true_2 _ Hin). simpl.
    apply list_fmap_ext. intros i b _.
    rewrite (bool_decide_eq_false_2 (nx ∉ _)) by tauto. simpl.
    case_decide; case_bool_decide; try done; congruence.
  - apply get_None in Hg. rewrite (bool_decide_eq_false_2 _ Hg). simpl.
    rewrite (bool_decide_eq_true_2 _ Hg). simpl.
    apply list_fmap_ext. intros i b _.
    case_decide; case_bool_decide; try done; congruence.
Qed.

Lemma linkPrev_blocks block key st :
  linkPrev block key st = prevStep (CBN.key <$> st) block key <$> st.
Proof.
  unfold linkPrev, prevStep, linked, dangling, CBN.getPrevSiblingKey, CBN.getKey.
  destruct (CBN.prevSibling block) as [nx|]; simpl.
  2:{ rewrite <- (list_fmap_id st) at 1. apply list_fmap_ext. intros; simpl; by repeat case_bool_decide. }
  destruct (truthy nx); simpl.
  2:{ rewrite <- (list_fmap_id st) at 1. apply list_fmap_ext. intros; simpl; by repeat case_bool_decide. }
  destruct (get nx st) as [nb|] eqn:Hg.
  - assert (Hin : nx ∈ CBN.key <$> st) by (apply get_is_Some; eauto).
    rewrite (bool_decide_eq_true_2 _ Hin). simpl.
    apply list_fmap_ext. intros i b _.
    rewrite (bool_decide_eq_false_2 (nx ∉ _)) by tauto. simpl.
    case_decide; case_bool_decide; try done; congruence.
  - apply get_None in Hg. rewrite (bool_decide_eq_false_2 _ Hg). simpl.
    rewrite (bool_decide_eq_true_2 _ Hg). simpl.
    apply list_fmap_ext. intros i b _.
    case_decide; case_bool_decide; try done; congruence.
Qed.

Lemma NoDup_key_eq st b b' :
  NoDup (CBN.key <$> st) → b ∈ st → b' ∈ st → CBN.key b = CBN.key b' → b = b'.
Proof.
  intros Hnd [i Hi]%list_elem_of_lookup [i' Hi']%list_elem_of_lookup Hk.
  assert (i = i') as ->; [|congruence].
  eapply (NoDup_lookup _ _ _ _ Hnd); rewrite list_lookup_fmap.
  - by rewrite Hi.
  - rewrite Hi'. simpl. by rewrite Hk.
Qed.

Lemma nextStep_key keys block key b : CBN.key (nextStep keys block key b) = CBN.key b.
Proof. unfold nextStep. by repeat case_match. Qed.

Lemma prevStep_key keys block key b : CBN.key (prevStep keys block key b) = CBN.key b.
Proof. unfold prevStep. by repeat case_match. Qed.

Lemma parentStep_key keys block key refs l b :
  CBN.key (parentStep keys block key refs l b) = CBN.key b.
Proof. unfold parentStep. by repeat case_match. Qed.

Lemma childStep_key keys block key b c : CBN.key (childStep keys block key b c) = CBN.key b.
Proof. unfold childStep. by repeat case_match. Qed.

Lemma fmap_keys (f : CBN.t → CBN.t) st :
  (∀ b, CBN.key (f b) = CBN.key b) → CBN.key <$> (f <$> st) = CBN.key <$> st.
Proof.
  intros Hf. rewrite <- list_fmap_compose. apply list_fmap_ext. intros i b _. apply Hf.
Qed.

Lemma obj_get_JsString k (obj : gmap Key Key) v :
  obj_get k obj = JsString v → k ≠ "__proto__" ∧ obj !! k = Some v.
Proof.
  unfold obj_get. destruct (decide (k = "__proto__")); [done|].
  destruct (obj !! k); [|done]. by intros [= ->].
Qed.

Lemma linkParent_blocks block key refs lastRoot st :
  NoDup (CBN.key <$> st) →
  CBN.key block ∈ CBN.key <$> st →
  (∀ L, lastRoot = Some L → ∃ v, obj_get (CBN.key L) refs = JsString v) →
  ∃ lr,
    linkParent block key refs lastRoot st
    = Some (parentStep (CBN.key <$> st) block key refs (CBN.key <$> lastRoot) <$> st, lr)
    ∧ CBN.key <$> lr
      = match linked (CBN.key <$> st) (CBN.parent block) with
        | Some _ => CBN.key <$> lastRoot
        | None => Some (CBN.key block)
        end.
Proof.
  intros Hnd Hblock Hread.
  assert (Hlp : linkParent block key refs lastRoot st
     = match resolvedParent block st with
       | Some (parentKey, parentBlock) =>
           Some
             (setIn parentKey
                (CBN.set_children
                   (list_set (indexOf (CBN.key block) (CBN.children parentBlock)) key
                      (CBN.children parentBlock))) st,
              lastRoot)
       | None =>
           let m1 := setIn (CBN.key block) (CBN.set_parent None) st in
           let m2 := match lastRoot with
                     | Some lastRootBlock =>
                         setIn (CBN.key block)
                           (CBN.set_prevSibling (refs !! CBN.key lastRootBlock))
                           (setIn (CBN.key lastRootBlock)
                              (CBN.set_nextSibling (Some key)) m1)
                     | None => m1
                     end in
           Some (m2, get (CBN.key block) m2)
       end).
  { unfold linkParent, CBN.getKey, CBN.getChildKeys.
    destruct (resolvedParent block st) as [[pk pb]|]; [done|].
    destruct lastRoot as [L|]; [|done].
    destruct (Hread L eq_refl) as [v Hv]. simpl. rewrite Hv.
    by rewrite (proj2 (obj_get_JsString _ _ _ Hv)). }
  rewrite Hlp. clear Hlp Hread.
  unfold resolvedParent, parentStep, linked, CBN.getParentKey, CBN.getKey,
    CBN.getChildKeys.
  assert (Hroot : ∀ m' : list CBN.t, CBN.key <$> m' = CBN.key <$> st →
            CBN.key <$> get (CBN.key block) m' = Some (CBN.key block)).
  { intros m' Hm'. destruct (get (CBN.key block) m') as [b|] eqn:Hg.
    - apply get_Some in Hg as [_ Hk]. simpl. by rewrite Hk.
    - apply get_None in Hg. by rewrite Hm' in Hg. }
  assert (Hnone :
    (let m1 := setIn (CBN.key block) (CBN.set_parent None) st in
     let m2 := match lastRoot with
               | Some lastRootBlock =>
                   setIn (CBN.key block)
                     (CBN.set_prevSibling (refs !! CBN.key lastRootBlock))
                     (setIn (CBN.key lastRootBlock) (CBN.set_nextSibling (Some key)) m1)
               | None => m1
               end in
     m2 = (λ b, let b := if bool_decide (CBN.key b = CBN.key block)
                         then CBN.set_parent None b else b in
                match CBN.key <$> lastRoot with
                | Some l =>
                    let b := if bool_decide (CBN.key b = l)
                             then CBN.set_nextSibling (Some key) b else b in
                    if bool_decide (CBN.key b = CBN.key block)
                    then CBN.set_prevSibling (refs !! l) b else b
                | None => b
                end) <$> st)).
  { simpl. destruct lastRoot as [lr|]; simpl; unfold setIn.
    - rewrite <- !list_fmap_compose. apply list_fmap_ext. intros i b _. simpl.
      repeat (case_decide || case_bool_decide); simpl in *; try done; congruence.
    - apply list_fmap_ext. intros i b _. by repeat (case_decide || case_bool_decide). }
  simpl in Hnone.
  assert (Hnone2 : ∀ m2 f, m2 = f <$> st → (∀ b, CBN.key (f b) = CBN.key b) →
            CBN.key <$> get (CBN.key block) m2 = Some (CBN.key block)).
  { intros m2 f -> Hf. apply Hroot. by apply fmap_keys. }
  assert (Hroots : ∀ f : CBN.t → CBN.t,
            (let m1 := setIn (CBN.key block) (CBN.set_parent None) st in
             match lastRoot with
             | Some lastRootBlock =>
                 setIn (CBN.key block)
                   (CBN.set_prevSibling (refs !! CBN.key lastRootBlock))
                   (setIn (CBN.key lastRootBlock) (CBN.set_nextSibling (Some key)) m1)
             | None => m1
             end) = f <$> st →
            (∀ b, CBN.key (f b) = CBN.key b) →
            ∃ lr,
              (let m1 := setIn (CBN.key block) (CBN.set_parent None) st in
               let m2 := match lastRoot with
                         | Some lastRootBlock =>
                             setIn (CBN.key block)
                               (CBN.set_prevSibling (refs !! CBN.key lastRootBlock))
                               (setIn (CBN.key lastRootBlock)
                                  (CBN.set_nextSibling (Some key)) m1)
                         | None => m1
                         end in
               Some (m2, get (CBN.key block) m2)) = Some (f <$> st, lr)
              ∧ CBN.key <$> lr = Some (CBN.key block)).
  { intros f Hf Hk. simpl in *. rewrite Hf. eexists. split; [done|].
    by eapply Hnone2. }
  destruct (CBN.parent block) as [pk|]; simpl.
  2:{ apply Hroots; [exact Hnone|].
      intros b. destruct lastRoot; simpl; by repeat case_match. }
  destruct (truthy pk); simpl.
  2:{ apply Hroots; [exact Hnone|].
      intros b. destruct lastRoot; simpl; by repeat case_match. }
  destruct (get pk st) as [pb|] eqn:Hg; simpl.
  - destruct (get_Some _ _ _ Hg) as [Hpb Hpk].
    assert (Hin : pk ∈ CBN.key <$> st) by (apply get_is_Some; eauto).
    rewrite (bool_decide_eq_true_2 _ Hin). simpl. eexists. split; [|done].
    f_equal. f_equal.
    unfold setIn. apply list_fmap_ext. intros i b Hb%list_elem_of_lookup_2.
    case_decide; case_bool_decide; try done.
    assert (b = pb) as -> by (apply (NoDup_key_eq st); congruence). done.
  - apply get_None in Hg. rewrite (bool_decide_eq_false_2 _ Hg). simpl.
    apply Hroots; [exact Hnone|].
    intros b. destruct lastRoot; simpl; by repeat case_match.
Qed.

Lemma visitChild_blocks block key st c :
  visitChild block key st c = (λ b, childStep (CBN.key <$> st) block key b c) <$> st.
Proof.
  unfold visitChild, childStep, CBN.getKey, CBN.getChildKeys.
  destruct (get c st) as [cb|] eqn:Hg.
  - assert (Hin : c ∈ CBN.key <$> st) by (apply get_is_Some; eauto).
    rewrite (bool_decide_eq_true_2 _ Hin). apply list_fmap_ext. intros i b _.
    by case_decide; case_bool_decide.
  - apply get_None in Hg. rewrite (bool_decide_eq_false_2 _ Hg).
    apply list_fmap_ext. intros i b _. by case_decide; case_bool_decide.
Qed.

Lemma children_blocks block key keys cs : ∀ st,
  CBN.key <$> st = keys →
  foldl (visitChild block key) st cs
  = (λ b, foldl (childStep keys block key) b cs) <$> st.
Proof.
  induction cs as [|c cs IH]; intros st Hk; simpl.
  - by rewrite list_fmap_id.
  - rewrite visitChild_blocks, Hk. rewrite IH.
    + by rewrite <- list_fmap_compose.
    + rewrite fmap_keys; [done|]. intros b. apply childStep_key.
Qed.

(** One visit rewrites every entry by [visitStep]. *)
Lemma visitBlock_blocks (s : PassState) block :
  let keys := CBN.key <$> blockMapState s in
  let key := generateRandomKey (calls s) in
  let refs := <[CBN.key block := key]> (newKeysRef s) in
  NoDup keys →
  CBN.key block ∈ keys →
  CBN.key block ≠ "__proto__" →
  (∀ L, lastRootBlock s = Some L → ∃ v, obj_get (CBN.key L) refs = JsString v) →
  ∃ s', visitBlock generateRandomKey s block = Some s'
    ∧ blockMapState s'
      = visitStep keys block key refs (CBN.key <$> lastRootBlock s) <$> blockMapState s
    ∧ newKeysRef s' = refs
    ∧ calls s' = S (calls s)
    ∧ CBN.key <$> lastRootBlock s'
      = match linked keys (CBN.parent block) with
        | Some _ => CBN.key <$> lastRootBlock s
        | None => Some (CBN.key block)
        end.
Proof.
  intros keys key refs Hnd Hin Hproto Hread. unfold visitBlock. fold key.
  unfold CBN.getKey.
  assert (obj_set (CBN.key block) key (newKeysRef s) = refs) as ->.
  { unfold obj_set. by rewrite decide_False. }
  unfold CBN.getChildKeys.
  set (m2 := linkPrev block key (linkNext block key (blockMapState s))).
  assert (Hm2 : m2 = (λ b, prevStep keys block key (nextStep keys block key b))
                       <$> blockMapState s).
  { unfold m2. rewrite linkNext_blocks, linkPrev_blocks. fold keys.
    rewrite fmap_keys by (intros; apply nextStep_key). fold keys.
    by rewrite <- list_fmap_compose. }
  assert (Hk2 : CBN.key <$> m2 = keys).
  { rewrite Hm2. apply fmap_keys. intros b. by rewrite prevStep_key, nextStep_key. }
  destruct (linkParent_blocks block key refs (lastRootBlock s) m2) as (lr & Hp & Hl).
  { by rewrite Hk2. } { by rewrite Hk2. } { done. }
  rewrite Hk2 in Hp, Hl. rewrite Hp. simpl.
  eexists. split; [done|]. simpl. split_and!; try done.
  rewrite (children_blocks block key keys).
  - rewrite Hm2. rewrite <- !list_fmap_compose. done.
  - rewrite fmap_keys; [done|]. intros b. apply parentStep_key.
Qed.

Lemma obj_get_lookup k (obj : gmap Key Key) v :
  k ≠ "__proto__" → obj !! k = Some v → obj_get k obj = JsString v.
Proof. intros Hk Hv. unfold obj_get. by rewrite decide_False, Hv. Qed.

Lemma visitAll_app (s : PassState) (l l' : list CBN.t) :
  visitAll generateRandomKey s (l ++ l')
  = s' ← visitAll generateRandomKey s l; visitAll generateRandomKey s' l'.
Proof.
  revert s. induction l as [|b l IH]; intros s; [done|]. simpl.
  destruct (visitBlock generateRandomKey s b) as [s'|]; [|done]. simpl. apply IH.
Qed.

(** The rebuilt entries, when every block has its new key on record. *)
Lemma mapM_rekeyEntry (refs : gmap Key Key) (st : list CBN.t) :
  (∀ b, b ∈ st → CBN.key b ≠ "__proto__" ∧ is_Some (refs !! CBN.key b)) →
  mapM (rekeyEntry refs) st
  = Some ((λ block, CBN.set_key (default "" (refs !! CBN.key block)) block) <$> st).
Proof.
  intros Hall. apply mapM_Some_2, Forall2_fmap_r, Forall_Forall2_diag, Forall_forall.
  intros b Hb. destruct (Hall b Hb) as [Hk [v Hv]].
  unfold rekeyEntry, newKeyOf, CBN.getKey.
  rewrite (obj_get_lookup _ _ v Hk Hv). simpl. do 2 f_equal.
  symmetry. exact (f_equal (default "") Hv).
Qed.

(** *** The fields of an entry after one visit *)

Lemma childFold_fields keys block key cs : ∀ b,
  let b' := foldl (childStep keys block key) b cs in
  CBN.key b' = CBN.key b ∧ CBN.type b' = CBN.type b ∧ CBN.text b' = CBN.text b
  ∧ CBN.depth b' = CBN.depth b
  ∧ CBN.prevSibling b' = CBN.prevSibling b ∧ CBN.nextSibling b' = CBN.nextSibling b
  ∧ CBN.parent b'
    = (if bool_decide (CBN.key b ∈ cs) && bool_decide (CBN.key b ∈ keys)
       then Some key else CBN.parent b)
  ∧ CBN.children b'
    = (if bool_decide (CBN.key b = CBN.key block) then
         match last (filter (λ c, c ∉ keys) cs) with
         | Some q => filter (λ c, c ≠ q) (CBN.children block)
         | None => CBN.children b
         end
       else CBN.children b).
Proof.
  induction cs as [|c cs IH] using rev_ind; intros b; simpl.
  { split_and!; try done. by case_bool_decide. }
  rewrite foldl_app. simpl.
  destruct (IH b) as (Hk & Hty & Htx & Hd & Hp & Hn & Hpa & Hch).
  set (b1 := foldl (childStep keys block key) b cs) in *.
  assert (Hmem : CBN.key b ∈ cs ++ [c] ↔ CBN.key b ∈ cs ∨ CBN.key b = c).
  { rewrite elem_of_app, list_elem_of_singleton. tauto. }
  rewrite filter_app.
  unfold childStep. destruct (decide (c ∈ keys)) as [Hc|Hc].
  - rewrite (bool_decide_eq_true_2 _ Hc).
    rewrite (filter_cons_False _ c []) by tauto. rewrite filter_nil, app_nil_r.
    destruct (decide (CBN.key b1 = c)) as [Hb|Hb].
    + rewrite (bool_decide_eq_true_2 _ Hb). simpl. split_and!; try done.
      rewrite (bool_decide_eq_true_2 (CBN.key b ∈ cs ++ [c])) by (apply Hmem; right; congruence).
      rewrite (bool_decide_eq_true_2 (CBN.key b ∈ keys)) by congruence. done.
    + rewrite (bool_decide_eq_false_2 _ Hb). split_and!; try done.
      rewrite Hpa.
      assert (bool_decide (CBN.key b ∈ cs ++ [c]) = bool_decide (CBN.key b ∈ cs)) as ->;
        [|done].
      apply bool_decide_ext. rewrite Hmem.
      split; [|tauto]. intros [?|?]; [done|congruence].
  - rewrite (bool_decide_eq_false_2 _ Hc).
    rewrite (filter_cons_True _ c []) by done. rewrite filter_nil, last_snoc.
    assert (Hpa' : CBN.parent b1
                   = if bool_decide (CBN.key b ∈ cs ++ [c]) && bool_decide (CBN.key b ∈ keys)
                     then Some key else CBN.parent b).
    { rewrite Hpa. destruct (decide (CBN.key b ∈ keys)) as [Hbk|Hbk].
      - rewrite !(bool_decide_eq_true_2 _ Hbk), !andb_true_r.
        assert (bool_decide (CBN.key b ∈ cs ++ [c]) = bool_decide (CBN.key b ∈ cs)) as ->;
          [|done].
        apply bool_decide_ext. rewrite Hmem. split; [|tauto].
        intros [?|?]; [done|congruence].
      - by rewrite !(bool_decide_eq_false_2 _ Hbk), !andb_false_r. }
    destruct (decide (CBN.key b1 = CBN.key block)) as [Hb|Hb].
    + rewrite (bool_decide_eq_true_2 _ Hb). simpl. split_and!; try done.
      rewrite bool_decide_eq_true_2 by congruence. done.
    + rewrite (bool_decide_eq_false_2 _ Hb). split_and!; try done.
      rewrite Hch. rewrite !bool_decide_eq_false_2 by congruence. done.
Qed.

Lemma dangling_not_linked keys o : dangling keys o = true → linked keys o = None.
Proof.
  unfold dangling, linked. destruct o as [k|]; simpl; [|done].
  intros [_ Hk%bool_decide_eq_true]%andb_true_iff.
  by rewrite (bool_decide_eq_false_2 _ Hk), andb_false_r.
Qed.

Lemma nextStep_fields keys block key b :
  let b1 := nextStep keys block key b in
  CBN.key b1 = CBN.key b ∧ CBN.type b1 = CBN.type b ∧ CBN.text b1 = CBN.text b
  ∧ CBN.depth b1 = CBN.depth b ∧ CBN.parent b1 = CBN.parent b
  ∧ CBN.children b1 = CBN.children b
  ∧ CBN.nextSibling b1
    = (if dangling keys (CBN.nextSibling block) && bool_decide (CBN.key b = CBN.key block)
       then None else CBN.nextSibling b)
  ∧ CBN.prevSibling b1
    = (if bool_decide (linked keys (CBN.nextSibling block) = Some (CBN.key b))
       then Some key else CBN.prevSibling b).
Proof.
  unfold nextStep.
  pose proof (dangling_not_linked keys (CBN.nextSibling block)) as Hn.
  destruct (dangling keys (CBN.nextSibling block)).
  - rewrite (Hn eq_refl). rewrite bool_decide_eq_false_2 by done. simpl.
    by case_bool_decide.
  - simpl. by case_bool_decide.
Qed.

Lemma prevStep_fields keys block key b :
  let b1 := prevStep keys block key b in
  CBN.key b1 = CBN.key b ∧ CBN.type b1 = CBN.type b ∧ CBN.text b1 = CBN.text b
  ∧ CBN.depth b1 = CBN.depth b ∧ CBN.parent b1 = CBN.parent b
  ∧ CBN.children b1 = CBN.children b
  ∧ CBN.nextSibling b1
    = (if bool_decide (linked keys (CBN.prevSibling block) = Some (CBN.key b))
       then Some key else CBN.nextSibling b)
  ∧ CBN.prevSibling b1
    = (if dangling keys (CBN.prevSibling block) && bool_decide (CBN.key b = CBN.key block)
       then None else CBN.prevSibling b).
Proof.
  unfold prevStep.
  pose proof (dangling_not_linked keys (CBN.prevSibling block)) as Hn.
  destruct (dangling keys (CBN.prevSibling block)).
  - rewrite (Hn eq_refl). rewrite bool_decide_eq_false_2 by done. simpl.
    by case_bool_decide.
  - simpl. by case_bool_decide.
Qed.

Lemma parentStep_fields keys block key refs l b :
  let b1 := parentStep keys block key refs l b in
  CBN.key b1 = CBN.key b ∧ CBN.type b1 = CBN.type b ∧ CBN.text b1 = CBN.text b
  ∧ CBN.depth b1 = CBN.depth b
  ∧ CBN.parent b1
    = (if bool_decide (linked keys (CBN.parent block) = None)
          && bool_decide (CBN.key b = CBN.key block)
       then None else CBN.parent b)
  ∧ CBN.children b1
    = (if bool_decide (linked keys (CBN.parent block) = Some (CBN.key b))
       then list_set (indexOf (CBN.key block) (CBN.children b)) key (CBN.children b)
       else CBN.children b)
  ∧ CBN.nextSibling b1
    = (if bool_decide (linked keys (CBN.parent block) = None)
          && bool_decide (l = Some (CBN.key b))
       then Some key else CBN.nextSibling b)
  ∧ CBN.prevSibling b1
    = (match linked keys (CBN.parent block), l with
       | None, Some l' =>
           if bool_decide (CBN.key b = CBN.key block) then refs !! l'
           else CBN.prevSibling b
       | _, _ => CBN.prevSibling b
       end).
Proof.
  unfold parentStep.
  destruct (linked keys (CBN.parent block)) as [lpa|], l as [l|]; simpl;
    repeat case_bool_decide; simpl; simplify_eq; split_and!; try done;
    repeat case_bool_decide; simplify_eq; done.
Qed.

Lemma steps_fields keys block key refs l b :
  let b3 := parentStep keys block key refs l
              (prevStep keys block key (nextStep keys block key b)) in
  CBN.key b3 = CBN.key b ∧ CBN.type b3 = CBN.type b ∧ CBN.text b3 = CBN.text b
  ∧ CBN.depth b3 = CBN.depth b
  ∧ CBN.nextSibling b3
    = (let v := if dangling keys (CBN.nextSibling block)
                   && bool_decide (CBN.key b = CBN.key block)
                then None else CBN.nextSibling b in
       let v := if bool_decide (linked keys (CBN.prevSibling block) = Some (CBN.key b))
                then Some key else v in
       if bool_decide (linked keys (CBN.parent block) = None)
          && bool_decide (l = Some (CBN.key b))
       then Some key else v)
  ∧ CBN.prevSibling b3
    = (let v := if bool_decide (linked keys (CBN.nextSibling block) = Some (CBN.key b))
                then Some key else CBN.prevSibling b in
       let v := if dangling keys (CBN.prevSibling block)
                   && bool_decide (CBN.key b = CBN.key block)
                then None else v in
       match linked keys (CBN.parent block), l with
       | None, Some l' => if bool_decide (CBN.key b = CBN.key block) then refs !! l' else v
       | _, _ => v
       end)
  ∧ CBN.parent b3
    = (if bool_decide (linked keys (CBN.parent block) = None)
          && bool_decide (CBN.key b = CBN.key block)
       then None else CBN.parent b)
  ∧ CBN.children b3
    = (if bool_decide (linked keys (CBN.parent block) = Some (CBN.key b))
       then list_set (indexOf (CBN.key block) (CBN.children b)) key (CBN.children b)
       else CBN.children b).
Proof.
  intros b3. unfold b3.
  destruct (nextStep_fields keys block key b) as (K1 & T1 & X1 & D1 & P1 & C1 & N1 & V1).
  set (b1 := nextStep keys block key b) in *.
  destruct (prevStep_fields keys block key b1) as (K2 & T2 & X2 & D2 & P2 & C2 & N2 & V2).
  set (b2 := prevStep keys block key b1) in *.
  destruct (parentStep_fields keys block key refs l b2)
    as (K3 & T3 & X3 & D3 & P3 & C3 & N3 & V3).
  rewrite K3, T3, X3, D3, P3, C3, N3, V3, K2, T2, X2, D2, P2, C2, N2, V2,
    K1, T1, X1, D1, P1, C1, N1, V1.
  split_and!; done.
Qed.

Lemma visitStep_fields keys block key refs l b :
  let b' := visitStep keys block key refs l b in
  CBN.key b' = CBN.key b ∧ CBN.type b' = CBN.type b ∧ CBN.text b' = CBN.text b
  ∧ CBN.depth b' = CBN.depth b
  ∧ CBN.nextSibling b'
    = (let v := if dangling keys (CBN.nextSibling block)
                   && bool_decide (CBN.key b = CBN.key block)
                then None else CBN.nextSibling b in
       let v := if bool_decide (linked keys (CBN.prevSibling block) = Some (CBN.key b))
                then Some key else v in
       if bool_decide (linked keys (CBN.parent block) = None)
          && bool_decide (l = Some (CBN.key b))
       then Some key else v)
  ∧ CBN.prevSibling b'
    = (let v := if bool_decide (linked keys (CBN.nextSibling block) = Some (CBN.key b))
                then Some key else CBN.prevSibling b in
       let v := if dangling keys (CBN.prevSibling block)
                   && bool_decide (CBN.key b = CBN.key block)
                then None else v in
       match linked keys (CBN.parent block), l with
       | None, Some l' => if bool_decide (CBN.key b = CBN.key block) then refs !! l' else v
       | _, _ => v
       end)
  ∧ CBN.parent b'
    = (if bool_decide (CBN.key b ∈ CBN.children block) && bool_decide (CBN.key b ∈ keys)
       then Some key
       else if bool_decide (linked keys (CBN.parent block) = None)
               && bool_decide (CBN.key b = CBN.key block)
       then None else CBN.parent b)
  ∧ CBN.children b'
    = (let v := if bool_decide (linked keys (CBN.parent block) = Some (CBN.key b))
                then list_set (indexOf (CBN.key block) (CBN.children b)) key
                       (CBN.children b)
                else CBN.children b in
       if bool_decide (CBN.key b = CBN.key block) then
         match last (filter (λ c, c ∉ keys) (CBN.children block)) with
         | Some q => filter (λ c, c ≠ q) (CBN.children block)
         | None => v
         end
       else v).
Proof.
  unfold visitStep.
  destruct (steps_fields keys block key refs l b)
    as (Hk & Hty & Htx & Hd & Hn & Hp & Hpa & Hch).
  set (b3 := parentStep keys block key refs l _) in *.
  destruct (childFold_fields keys block key (CBN.children block) b3)
    as (Hk' & Hty' & Htx' & Hd' & Hp' & Hn' & Hpa' & Hch').
  rewrite Hk', Hty', Htx', Hd', Hp', Hn', Hpa', Hch', Hk, Hty, Htx, Hd, Hn, Hp, Hpa, Hch.
  split_and!; done.
Qed.

End VisitFacts.

(** *** Places and links in a well-formed map *)

Section ShapeFacts.
Variable m : list CBN.t.
Local Open Scope list_scope.

Implicit Types (X Y : CBN.t) (o : option Key) (i j w l : nat).

Lemma indexOf_Some k (l : list Key) j : indexOf k l = Some j → l !! j = Some k.
Proof.
  unfold indexOf. destruct (list_find _ _) as [[j' x]|] eqn:Hf; [|done].
  intros [= <-]. by apply list_find_Some in Hf as (Hj & -> & _).
Qed.

Lemma indexOf_None k (l : list Key) : indexOf k l = None ↔ k ∉ l.
Proof.
  unfold indexOf. rewrite fmap_None, list_find_None, Forall_forall. split.
  - intros Hall Hk. by apply (Hall k).
  - intros Hk x Hx ->. done.
Qed.

Lemma indexOf_first k (l : list Key) j :
  l !! j = Some k → (∀ j' x, l !! j' = Some x → j' < j → x ≠ k) → indexOf k l = Some j.
Proof.
  intros Hj Hfirst. unfold indexOf.
  rewrite (proj2 (list_find_Some (λ x, x = k) l j k)); [done|]. by split_and!.
Qed.

Lemma indexOf_NoDup k (l : list Key) j : NoDup l → l !! j = Some k → indexOf k l = Some j.
Proof.
  intros Hnd Hj. apply indexOf_first; [done|].
  intros j' x Hj' Hlt ->. assert (j' = j) by by eapply NoDup_lookup. lia.
Qed.

Lemma keysOf_lookup j X : m !! j = Some X → keysOf m !! j = Some (CBN.key X).
Proof. intros Hj. unfold keysOf. by rewrite list_lookup_fmap, Hj. Qed.

Lemma keysOf_lookup_inv j k : keysOf m !! j = Some k → ∃ X, m !! j = Some X ∧ CBN.key X = k.
Proof.
  unfold keysOf. rewrite list_lookup_fmap. destruct (m !! j) as [X|]; [|done].
  intros [= <-]. eauto.
Qed.

Lemma key_in_keysOf j X : m !! j = Some X → CBN.key X ∈ keysOf m.
Proof. intros Hj. eapply list_elem_of_lookup_2. by apply keysOf_lookup. Qed.

Hypothesis Hwf : WellFormed m.

Lemma place_of j X : m !! j = Some X → indexOf (CBN.key X) (keysOf m) = Some j.
Proof.
  intros Hj. apply indexOf_NoDup; [apply (wf_keys m Hwf)|by apply keysOf_lookup].
Qed.

Lemma same_key j i X Y : m !! j = Some X → m !! i = Some Y → CBN.key X = CBN.key Y ↔ j = i.
Proof.
  intros Hj Hi. split; [|intros ->; congruence].
  intros Hk. apply place_of in Hj, Hi. congruence.
Qed.

Lemma resolve_Some o w :
  resolve m o = Some w →
  ∃ Y, m !! w = Some Y ∧ o = Some (CBN.key Y) ∧ linked (keysOf m) o = Some (CBN.key Y).
Proof.
  unfold resolve, linked. destruct o as [k|]; simpl; [|done].
  destruct (truthy k && bool_decide (k ∈ keysOf m)); simpl; [|done].
  intros Hk%indexOf_Some. apply keysOf_lookup_inv in Hk as (Y & HY & <-). eauto.
Qed.

Lemma resolve_None o : resolve m o = None ↔ linked (keysOf m) o = None.
Proof.
  unfold resolve. destruct (linked (keysOf m) o) as [k|] eqn:Hl; simpl; [|done].
  split; [|done]. intros Hn%indexOf_None. exfalso. apply Hn.
  unfold linked in Hl. destruct o as [k'|]; simpl in Hl; [|done].
  destruct (truthy k') eqn:?, (bool_decide (k' ∈ keysOf m)) eqn:Hin; simplify_eq/=.
  by apply bool_decide_eq_true in Hin.
Qed.

Lemma linked_resolve o j X :
  m !! j = Some X → linked (keysOf m) o = Some (CBN.key X) ↔ resolve m o = Some j.
Proof.
  intros Hj. split.
  - intros Hl. unfold resolve. rewrite Hl. simpl. by apply place_of.
  - intros (Y & HY & _ & Hl)%resolve_Some. congruence.
Qed.

(** A link that is neither [null] nor empty, and leads nowhere in the map,
    is dangling. *)
Lemma unresolved o :
  o ≠ Some "" → resolve m o = None → o = None ∨ dangling (keysOf m) o = true.
Proof.
  intros Ho Hr%resolve_None. unfold linked, dangling in *.
  destruct o as [k|]; [right|by left]. simpl in *.
  assert (truthy k = true) as Ht.
  { unfold truthy. apply bool_decide_eq_true. intros ->. by apply Ho. }
  rewrite Ht in *. simpl in *. case_bool_decide; [done|].
  by rewrite bool_decide_eq_true_2.
Qed.

Lemma dangling_resolve o : dangling (keysOf m) o = true → o ≠ None ∧ resolve m o = None.
Proof.
  intros Hd. split; [by destruct o|]. by apply resolve_None, dangling_not_linked.
Qed.

Lemma isRootAt_iff i X :
  m !! i = Some X → isRootAt m i = true ↔ resolve m (CBN.parent X) = None.
Proof. intros Hi. unfold isRootAt. rewrite Hi. apply bool_decide_eq_true. Qed.

Lemma isRootAt_linked i X :
  m !! i = Some X → linked (keysOf m) (CBN.parent X) = None ↔ isRootAt m i = true.
Proof. intros Hi. by rewrite (isRootAt_iff i X Hi), resolve_None. Qed.

Lemma lastRootIdx_lt i l : lastRootIdx m i = Some l → l < i ∧ isRootAt m l = true.
Proof.
  induction i as [|i IH]; simpl; [done|].
  destruct (isRootAt m i) eqn:Hr.
  - intros [= <-]. split; [lia|done].
  - intros Hl. destruct (IH Hl). split; [lia|done].
Qed.

Lemma isRootAt_lookup i : isRootAt m i = true → is_Some (m !! i).
Proof. unfold isRootAt. destruct (m !! i); [eauto|done]. Qed.

Lemma chainNext_lt i j z :
  chainNext m i j = Some z → j < z ∧ z < i ∧ isRootAt m z = true ∧ lastRootIdx m z = Some j.
Proof.
  induction i as [|i IH]; simpl; [done|].
  destruct (isRootAt m i) eqn:Hr; simpl.
  - case_bool_decide as Hl.
    + intros [= <-]. destruct (lastRootIdx_lt _ _ Hl). split_and!; [lia|lia|done|done].
    + intros Hz. destruct (IH Hz) as (? & ? & ? & ?). split_and!; [lia|lia|done|done].
  - intros Hz. destruct (IH Hz) as (? & ? & ? & ?). split_and!; [lia|lia|done|done].
Qed.

(** The key of the last root is the key of the block at [lastRootIdx]. *)
Lemma lastRootKey_iff i j X (lk : option Key) :
  m !! j = Some X →
  lk = (l ← lastRootIdx m i; CBN.key <$> m !! l) →
  lk = Some (CBN.key X) ↔ lastRootIdx m i = Some j.
Proof.
  intros Hj ->. destruct (lastRootIdx m i) as [l|] eqn:Hl; simpl; [|done].
  destruct (lastRootIdx_lt _ _ Hl) as [_ [L HL]%isRootAt_lookup].
  rewrite HL. simpl. split.
  - intros [= Hk]. f_equal. by apply (same_key l j L X).
  - intros [= ->]. congruence.
Qed.

End ShapeFacts.

(** *** One visit on the map after [i] visits *)

Section StepFacts.
Variable m : list CBN.t.
Variable generateRandomKey : nat → Key.
Variable c : nat.
Hypothesis Hwf : WellFormed m.
Local Open Scope list_scope.

Implicit Types (X Y : CBN.t) (o : option Key) (i j w l : nat).

Local Abbreviation keys := (keysOf m).
Local Abbreviation nk := (newKey generateRandomKey c).

Lemma next_step i j Xi Xj lk :
  m !! i = Some Xi → m !! j = Some Xj →
  lk = (l ← lastRootIdx m i; CBN.key <$> m !! l) →
  (let v := if dangling keys (CBN.nextSibling Xi)
               && bool_decide (CBN.key Xj = CBN.key Xi)
            then None else nextAt m generateRandomKey c i j Xj in
   let v := if bool_decide (linked keys (CBN.prevSibling Xi) = Some (CBN.key Xj))
            then Some (nk i) else v in
   if bool_decide (linked keys (CBN.parent Xi) = None)
      && bool_decide (lk = Some (CBN.key Xj))
   then Some (nk i) else v)
  = nextAt m generateRandomKey c (S i) j Xj.
Proof.
  intros Hi Hj Hlk. cbn zeta.
  rewrite (bool_decide_ext _ _ (same_key m Hwf j i Xj Xi Hj Hi)).
  rewrite (bool_decide_ext _ _ (linked_resolve m Hwf (CBN.prevSibling Xi) j Xj Hj)).
  rewrite (bool_decide_ext _ _ (isRootAt_linked m i Xi Hi)).
  rewrite (bool_decide_ext _ _ (lastRootKey_iff m Hwf i j Xj lk Hj Hlk)).
  destruct (wf_links m Hwf i Xi Hi) as (Hni & _ & _).
  pose proof (wf_siblings m Hwf j i Xj Xi Hj Hi) as Hsib.
  unfold nextAt. simpl chainNext.
  destruct (resolve m (CBN.nextSibling Xj)) as [w|] eqn:Hrj.
  - (* the next sibling is in the map, at [w] *)
    assert (Hnd : ¬ (dangling keys (CBN.nextSibling Xi) = true ∧ j = i)).
    { intros [Hd ->]. apply dangling_resolve in Hd as [_ Hd]. congruence. }
    destruct (decide (isRootAt m i = true ∧ lastRootIdx m i = Some j)) as [[Hr Hl]|Hc].
    + rewrite Hr, (bool_decide_eq_true_2 _ Hl). simpl.
      destruct (wf_chain_next m Hwf i j Xj Hj Hr Hl) as [?|Hw]; [congruence|].
      simplify_eq. by rewrite decide_True by lia.
    + assert (bool_decide (isRootAt m i = true) && bool_decide (lastRootIdx m i = Some j)
              = false) as ->.
      { apply andb_false_iff. rewrite !bool_decide_eq_false.
        destruct (isRootAt m i); [right|by left]. intros Hl. by apply Hc. }
      case_bool_decide as Hb.
      * apply Hsib in Hb. simplify_eq. by rewrite decide_True by lia.
      * assert (w ≠ i) by (intros ->; tauto).
        assert (dangling keys (CBN.nextSibling Xi) && bool_decide (j = i) = false) as ->.
        { apply andb_false_iff. rewrite bool_decide_eq_false.
          destruct (dangling keys (CBN.nextSibling Xi)); [right|by left].
          intros ->. apply Hnd. done. }
        destruct (decide (w < i)), (decide (w < S i)); try done; lia.
  - (* no next sibling in the map *)
    assert (Hb : resolve m (CBN.prevSibling Xi) ≠ Some j).
    { intros Hb%Hsib. congruence. }
    rewrite (bool_decide_eq_false_2 _ Hb).
    assert (Htail :
      (if dangling keys (CBN.nextSibling Xi) && bool_decide (j = i)
       then None
       else match chainNext m i j with
            | Some z => Some (nk z)
            | None => if decide (j < i) then None else CBN.nextSibling Xj
            end)
      = match chainNext m i j with
        | Some z => Some (nk z)
        | None => if decide (j < S i) then None else CBN.nextSibling Xj
        end).
    { destruct (chainNext m i j) as [z|] eqn:Hz.
      - apply chainNext_lt in Hz as (? & ? & _).
        rewrite (bool_decide_eq_false_2 (j = i)) by lia. by rewrite andb_false_r.
      - destruct (decide (j < i)), (decide (j < S i)); try lia.
        + by destruct (_ && _).
        + assert (j = i) as -> by lia. simplify_eq.
          rewrite bool_decide_eq_true_2 by done. rewrite andb_true_r.
          destruct (unresolved m (CBN.nextSibling Xi) Hni Hrj) as [->| ->]; done.
        + rewrite (bool_decide_eq_false_2 (j = i)) by lia. by rewrite andb_false_r. }
    destruct (isRootAt m i) eqn:Hr; simpl; [|exact Htail].
    destruct (bool_decide (lastRootIdx m i = Some j)); [done|exact Htail].
Qed.

Lemma prev_step i j Xi Xj lk (refs : gmap Key Key) :
  m !! i = Some Xi → m !! j = Some Xj →
  lk = (l ← lastRootIdx m i; CBN.key <$> m !! l) →
  (∀ l L, lastRootIdx m i = Some l → m !! l = Some L → refs !! CBN.key L = Some (nk l)) →
  (let v := if bool_decide (linked keys (CBN.nextSibling Xi) = Some (CBN.key Xj))
            then Some (nk i) else prevAt m generateRandomKey c i j Xj in
   let v := if dangling keys (CBN.prevSibling Xi)
               && bool_decide (CBN.key Xj = CBN.key Xi)
            then None else v in
   match linked keys (CBN.parent Xi), lk with
   | None, Some l' => if bool_decide (CBN.key Xj = CBN.key Xi) then refs !! l' else v
   | _, _ => v
   end)
  = prevAt m generateRandomKey c (S i) j Xj.
Proof.
  intros Hi Hj Hlk Hrefs. cbn zeta.
  rewrite !(bool_decide_ext _ _ (same_key m Hwf j i Xj Xi Hj Hi)).
  rewrite (bool_decide_ext _ _ (linked_resolve m Hwf (CBN.nextSibling Xi) j Xj Hj)).
  destruct (wf_links m Hwf i Xi Hi) as (_ & Hpi & _).
  pose proof (wf_siblings m Hwf i j Xi Xj Hi Hj) as Hsib.
  pose proof (isRootAt_linked m i Xi Hi) as Hroot.
  (* what the two sibling phases leave *)
  assert (Hcore :
    (if dangling keys (CBN.prevSibling Xi) && bool_decide (j = i) then None
     else if bool_decide (resolve m (CBN.nextSibling Xi) = Some j) then Some (nk i)
          else prevAt m generateRandomKey c i j Xj)
    = match resolve m (CBN.prevSibling Xj) with
      | Some w => if decide (w < S i) then Some (nk w) else CBN.prevSibling Xj
      | None =>
          if decide (j < i) then
            if isRootAt m j then nk <$> lastRootIdx m j else None
          else if decide (j = i) then None else CBN.prevSibling Xj
      end).
  { unfold prevAt. destruct (resolve m (CBN.prevSibling Xj)) as [w|] eqn:Hrj.
    - assert (dangling keys (CBN.prevSibling Xi) && bool_decide (j = i) = false) as ->.
      { apply andb_false_iff. rewrite bool_decide_eq_false.
        destruct (dangling keys (CBN.prevSibling Xi)) eqn:Hd; [right|by left].
        intros ->. apply dangling_resolve in Hd as [_ Hd]. congruence. }
      case_bool_decide as Hb.
      + apply Hsib in Hb. simplify_eq. by rewrite decide_True by lia.
      + assert (w ≠ i) by (intros ->; tauto).
        destruct (decide (w < i)), (decide (w < S i)); try done; lia.
    - assert (Hb : resolve m (CBN.nextSibling Xi) ≠ Some j).
      { intros Hb%Hsib. congruence. }
      rewrite (bool_decide_eq_false_2 _ Hb).
      destruct (decide (j = i)) as [->|Hne].
      + simplify_eq. rewrite bool_decide_eq_true_2 by done. rewrite andb_true_r.
        destruct (decide (i < i)); [lia|].
        destruct (unresolved m (CBN.prevSibling Xi) Hpi Hrj) as [->| ->]; done.
      + rewrite (bool_decide_eq_false_2 (j = i)) by done. rewrite andb_false_r.
        by destruct (decide (j < i)). }
  rewrite Hcore. clear Hcore. unfold prevAt.
  destruct (decide (j = i)) as [->|Hne].
  2:{ (* another block: the root branch does not write here *)
      rewrite (bool_decide_eq_false_2 (j = i)) by done.
      assert (Hsame : ∀ v : option Key,
        match linked keys (CBN.parent Xi), lk with
        | None, Some _ => v
        | _, _ => v
        end = v) by (intros; by repeat case_match).
      rewrite Hsame.
      destruct (resolve m (CBN.prevSibling Xj)); [done|].
      destruct (decide (j < i)), (decide (j < S i)); try done; lia. }
  simplify_eq. rewrite bool_decide_eq_true_2 by done.
  rewrite (decide_False (P := i < i)) by lia. rewrite (decide_True (P := i < S i)) by lia.
  destruct (linked keys (CBN.parent Xi)) as [pk|] eqn:Hlp.
  - (* not a root *)
    assert (isRootAt m i = false) as ->; [|done].
    apply not_true_is_false. intros Hr%Hroot. congruence.
  - rewrite (proj1 Hroot eq_refl).
    destruct (lastRootIdx m i) as [l|] eqn:Hl; simpl.
    + destruct (lastRootIdx_lt m i l Hl) as [Hlt [L HL]%isRootAt_lookup].
      rewrite HL. simpl. rewrite (Hrefs l L eq_refl HL).
      destruct (resolve m (CBN.prevSibling Xi)) as [w|] eqn:Hrj; [|done].
      destruct (wf_chain_prev m Hwf i l Xi Hi (proj1 Hroot eq_refl) Hl) as [?|?];
        simplify_eq. by rewrite decide_True by lia.
    + done.
Qed.


Lemma parent_step i j Xi Xj :
  m !! i = Some Xi → m !! j = Some Xj →
  (if bool_decide (CBN.key Xj ∈ CBN.children Xi) && bool_decide (CBN.key Xj ∈ keys)
   then Some (nk i)
   else if bool_decide (linked keys (CBN.parent Xi) = None)
           && bool_decide (CBN.key Xj = CBN.key Xi)
   then None else parentAt m generateRandomKey c i j Xj)
  = parentAt m generateRandomKey c (S i) j Xj.
Proof.
  intros Hi Hj.
  rewrite (bool_decide_ext _ _ (same_key m Hwf j i Xj Xi Hj Hi)).
  rewrite (bool_decide_ext _ _ (isRootAt_linked m i Xi Hi)).
  rewrite (bool_decide_eq_true_2 _ (key_in_keysOf m j Xj Hj)), andb_true_r.
  rewrite <- (bool_decide_ext _ _ (wf_parent m Hwf j i Xj Xi Hj Hi)).
  unfold parentAt. destruct (resolve m (CBN.parent Xj)) as [p|] eqn:Hp.
  - case_bool_decide as Hpi.
    + simplify_eq. by rewrite decide_True by lia.
    + assert (p ≠ i) by congruence.
      assert (bool_decide (isRootAt m i = true) && bool_decide (j = i) = false) as ->.
      { apply andb_false_iff. rewrite !bool_decide_eq_false.
        destruct (decide (j = i)) as [->|]; [left|by right].
        simplify_eq. rewrite (isRootAt_iff m i Xi Hi). congruence. }
      destruct (decide (p < i)), (decide (p < S i)); try done; lia.
  - rewrite bool_decide_eq_false_2 by done.
    destruct (decide (j = i)) as [->|].
    + simplify_eq. rewrite (bool_decide_eq_true_2 (isRootAt m i = true))
        by by apply (isRootAt_iff m i Xi Hi).
      rewrite bool_decide_eq_true_2 by done. simpl. by rewrite decide_True by lia.
    + rewrite (bool_decide_eq_false_2 (j = i)) by done. rewrite andb_false_r.
      destruct (decide (j < i)), (decide (j < S i)); try done; lia.
Qed.

Hypothesis Hfresh : ∀ x, x < length m → nk x ∉ keys.

Lemma indexOf_lt k x : indexOf k keys = Some x → x < length m.
Proof.
  intros Hx%indexOf_Some. apply lookup_lt_Some in Hx.
  unfold keysOf in Hx. by rewrite length_fmap in Hx.
Qed.

(** A child listed by the block at [j] is not relabelled before the walk
    has passed [j]: children come after their parent. *)
Lemma relabelAt_child i j Xj d :
  m !! j = Some Xj → d ∈ CBN.children Xj → (i ≤ S j)%nat →
  relabelAt m generateRandomKey c i d = d.
Proof.
  intros Hj Hd Hi. unfold relabelAt.
  destruct (indexOf d keys) as [x|] eqn:Hx; [|done].
  apply indexOf_Some, keysOf_lookup_inv in Hx as (X & HX & <-).
  assert (j < x).
  { apply (wf_order m Hwf x j X HX). by apply (wf_parent m Hwf x j X Xj). }
  by rewrite decide_False by lia.
Qed.

Lemma relabelAt_S i Xi d :
  m !! i = Some Xi → d ≠ CBN.key Xi →
  relabelAt m generateRandomKey c (S i) d = relabelAt m generateRandomKey c i d.
Proof.
  intros Hi Hd. unfold relabelAt.
  destruct (indexOf d keys) as [x|] eqn:Hx; [|done].
  assert (x ≠ i).
  { intros ->. apply indexOf_Some in Hx.
    rewrite (keysOf_lookup m i Xi Hi) in Hx. congruence. }
  destruct (decide (x < i)), (decide (x < S i)); try done; lia.
Qed.

Lemma relabelAt_here i Xi :
  m !! i = Some Xi →
  relabelAt m generateRandomKey c i (CBN.key Xi) = CBN.key Xi
  ∧ relabelAt m generateRandomKey c (S i) (CBN.key Xi) = nk i.
Proof.
  intros Hi. unfold relabelAt. rewrite (place_of m Hwf i Xi Hi).
  rewrite decide_False by lia. by rewrite decide_True by lia.
Qed.

Lemma relabelAt_other i Xi d :
  m !! i = Some Xi → d ≠ CBN.key Xi →
  relabelAt m generateRandomKey c i d ≠ CBN.key Xi.
Proof.
  intros Hi Hd. unfold relabelAt.
  destruct (indexOf d keys) as [x|] eqn:Hx; [|done].
  case_decide; [|done]. intros Heq.
  apply (Hfresh x); [by eapply indexOf_lt|].
  rewrite Heq. by eapply key_in_keysOf.
Qed.

Lemma dropLastAbsent_elem (l : list Key) d :
  d ∈ dropLastAbsent keys l → d ∈ l.
Proof.
  unfold dropLastAbsent. destruct (last _); [|done].
  by intros [_ ?]%list_elem_of_filter.
Qed.

Lemma dropLastAbsent_keeps (l : list Key) d :
  d ∈ l → d ∈ keys → d ∈ dropLastAbsent keys l.
Proof.
  intros Hd Hk. unfold dropLastAbsent.
  destruct (last _) as [q|] eqn:Hq; [|done].
  apply list_elem_of_filter. split; [|done].
  apply last_Some_elem_of, list_elem_of_filter in Hq as [Hq _]. congruence.
Qed.

Lemma dropLastAbsent_NoDup (l : list Key) : NoDup l → NoDup (dropLastAbsent keys l).
Proof. unfold dropLastAbsent. destruct (last _); [apply NoDup_filter|done]. Qed.

(** Replacing the visited child's key in its parent's list. *)
Lemma set_relabelled i Xi (D : list Key) :
  m !! i = Some Xi → NoDup D → CBN.key Xi ∈ D →
  list_set (indexOf (CBN.key Xi) (relabelAt m generateRandomKey c i <$> D)) (nk i)
    (relabelAt m generateRandomKey c i <$> D)
  = relabelAt m generateRandomKey c (S i) <$> D.
Proof.
  intros Hi Hnd [t Ht]%list_elem_of_lookup.
  destruct (relabelAt_here i Xi Hi) as [Hhere Hnew].
  assert (Hidx : indexOf (CBN.key Xi) (relabelAt m generateRandomKey c i <$> D) = Some t).
  { apply indexOf_first.
    - rewrite list_lookup_fmap, Ht. simpl. by rewrite Hhere.
    - intros t' x Ht' Hlt.
      rewrite list_lookup_fmap in Ht'. destruct (D !! t') as [d|] eqn:Hd; [|done].
      simpl in Ht'. simplify_eq. apply (relabelAt_other i Xi); [done|].
      intros ->. assert (t' = t) by by eapply NoDup_lookup. lia. }
  rewrite Hidx. simpl. apply list_eq. intros t'.
  destruct (decide (t' = t)) as [->|Hne].
  - rewrite list_lookup_insert_eq.
    + rewrite list_lookup_fmap, Ht. simpl. by rewrite Hnew.
    + rewrite length_fmap. by eapply lookup_lt_Some.
  - rewrite list_lookup_insert_ne by done. rewrite !list_lookup_fmap.
    destruct (D !! t') as [d|] eqn:Hd; [|done]. simpl. f_equal.
    symmetry. apply (relabelAt_S i Xi); [done|].
    intros ->. apply Hne. by eapply NoDup_lookup.
Qed.

Lemma children_step i j Xi Xj :
  m !! i = Some Xi → m !! j = Some Xj →
  (let L := childrenAt m generateRandomKey c i j Xj in
   let v := if bool_decide (linked keys (CBN.parent Xi) = Some (CBN.key Xj))
            then list_set (indexOf (CBN.key Xi) L) (nk i) L else L in
   if bool_decide (CBN.key Xj = CBN.key Xi) then
     match last (filter (λ d, d ∉ keys) (CBN.children Xi)) with
     | Some q => filter (λ d, d ≠ q) (CBN.children Xi)
     | None => v
     end
   else v)
  = childrenAt m generateRandomKey c (S i) j Xj.
Proof.
  intros Hi Hj. cbn zeta.
  rewrite (bool_decide_ext _ _ (same_key m Hwf j i Xj Xi Hj Hi)).
  rewrite (bool_decide_ext _ _ (linked_resolve m Hwf (CBN.parent Xi) j Xj Hj)).
  unfold childrenAt.
  assert (Hid : ∀ i' (D : list Key), (i' ≤ S j)%nat →
            (∀ d, d ∈ D → d ∈ CBN.children Xj) →
            relabelAt m generateRandomKey c i' <$> D = D).
  { intros i' D Hi' HD. transitivity (id <$> D); [|apply list_fmap_id].
    apply list_fmap_ext. intros t d Hd%list_elem_of_lookup_2.
    apply (relabelAt_child i' j Xj); auto. }
  destruct (decide (j = i)) as [->|Hne].
  - (* the visited block itself *)
    simplify_eq. rewrite bool_decide_eq_true_2 by done.
    rewrite (decide_False (P := i < i)) by lia.
    rewrite (decide_True (P := i < S i)) by lia.
    assert (Hself : resolve m (CBN.parent Xi) ≠ Some i).
    { intros Hp%(wf_order m Hwf i i Xi Hi). lia. }
    rewrite (bool_decide_eq_false_2 _ Hself).
    rewrite (Hid i (CBN.children Xi)) by (auto; lia).
    rewrite (Hid (S i) (dropLastAbsent keys (CBN.children Xi)))
      by (auto using dropLastAbsent_elem; lia).
    unfold dropLastAbsent. by destruct (last _).
  - rewrite (bool_decide_eq_false_2 (j = i)) by done.
    case_bool_decide as Hp.
    + (* the parent of the visited block *)
      assert (j < i) by by apply (wf_order m Hwf i j Xi Hi).
      rewrite !decide_True by lia.
      apply (set_relabelled i Xi); [done| |].
      * apply dropLastAbsent_NoDup. by apply (wf_children m Hwf j Xj).
      * apply dropLastAbsent_keeps; [|by eapply key_in_keysOf].
        by apply (wf_parent m Hwf i j Xi Xj).
    + (* any other block *)
      assert (Hbase : (if decide (j < S i) then dropLastAbsent keys (CBN.children Xj)
                       else CBN.children Xj)
                      = if decide (j < i) then dropLastAbsent keys (CBN.children Xj)
                        else CBN.children Xj).
      { destruct (decide (j < i)), (decide (j < S i)); try done; lia. }
      rewrite Hbase. apply list_fmap_ext. intros t d Hd%list_elem_of_lookup_2.
      symmetry. apply (relabelAt_S i Xi); [done|]. intros ->.
      apply Hp. apply (wf_parent m Hwf i j Xi Xj); [done|done|].
      destruct (decide (j < i)); [by apply dropLastAbsent_elem|done].
Qed.

Lemma node_eq (b b' : CBN.t) :
  CBN.key b = CBN.key b' → CBN.type b = CBN.type b' → CBN.text b = CBN.text b' →
  CBN.depth b = CBN.depth b' → CBN.parent b = CBN.parent b' →
  CBN.children b = CBN.children b' → CBN.prevSibling b = CBN.prevSibling b' →
  CBN.nextSibling b = CBN.nextSibling b' → b = b'.
Proof. destruct b, b'; simpl; intros; by subst. Qed.

(** One visit takes the map after [i] visits to the map after [S i] visits. *)
Lemma block_step i j Xi Xj lk (refs : gmap Key Key) :
  m !! i = Some Xi → m !! j = Some Xj →
  lk = (l ← lastRootIdx m i; CBN.key <$> m !! l) →
  (∀ l L, lastRootIdx m i = Some l → m !! l = Some L → refs !! CBN.key L = Some (nk l)) →
  visitStep keys Xi (nk i) refs lk (blockAt m generateRandomKey c i j Xj)
  = blockAt m generateRandomKey c (S i) j Xj.
Proof.
  intros Hi Hj Hlk Hrefs.
  destruct (visitStep_fields keys Xi (nk i) refs lk (blockAt m generateRandomKey c i j Xj))
    as (Hk & Hty & Htx & Hd & Hn & Hp & Hpa & Hch).
  cbn [blockAt CBN.key CBN.parent CBN.children CBN.prevSibling CBN.nextSibling
       CBN.type CBN.text CBN.depth] in Hk, Hty, Htx, Hd, Hn, Hp, Hpa, Hch.
  apply node_eq; try done.
  - rewrite Hpa. by apply parent_step.
  - rewrite Hch. by apply children_step.
  - rewrite Hp. by apply prev_step.
  - rewrite Hn. by apply next_step.
Qed.

Lemma relabelAt_0 k : relabelAt m generateRandomKey c 0 k = k.
Proof. unfold relabelAt. destruct (indexOf k keys); [|done]. by rewrite decide_False by lia. Qed.

Lemma stateAt_0 : stateAt m generateRandomKey c 0 = m.
Proof.
  unfold stateAt. apply list_eq. intros j. rewrite list_lookup_imap.
  destruct (m !! j) as [X|]; [|done]. simpl. f_equal.
  apply node_eq; try done; simpl.
  - unfold parentAt. destruct (resolve m (CBN.parent X)); by rewrite decide_False by lia.
  - unfold childrenAt. rewrite decide_False by lia.
    transitivity (id <$> CBN.children X); [|apply list_fmap_id].
    apply list_fmap_ext. intros. apply relabelAt_0.
  - unfold prevAt. destruct (resolve m (CBN.prevSibling X)); by rewrite decide_False by lia.
  - unfold nextAt. destruct (resolve m (CBN.nextSibling X)); by rewrite decide_False by lia.
Qed.

Lemma stateAt_keys i : CBN.key <$> stateAt m generateRandomKey c i = keys.
Proof.
  unfold stateAt, keysOf. apply list_eq. intros j.
  rewrite !list_lookup_fmap, list_lookup_imap. by destruct (m !! j).
Qed.

(** The name ["__proto__"], which a plain object does not take as a
    property, is no key of the map. *)
Hypothesis Hproto : "__proto__" ∉ keys.

(** The variables of the pass after [i] visits. *)
Lemma pass_prefix i :
  (i ≤ length m)%nat →
  ∃ s,
    visitAll generateRandomKey (mkPass m ∅ None c) (take i m) = Some s
    ∧ blockMapState s = stateAt m generateRandomKey c i
    ∧ calls s = c + i
    ∧ (∀ j X, j < i → m !! j = Some X → newKeysRef s !! CBN.key X = Some (nk j))
    ∧ CBN.key <$> lastRootBlock s = (l ← lastRootIdx m i; CBN.key <$> m !! l).
Proof.
  induction i as [|i IH]; intros Hle; simpl.
  { eexists. split; [done|]. simpl. rewrite stateAt_0. split_and!; try done; try lia. }
  destruct (lookup_lt_is_Some_2 m i) as [Xi Hi]; [lia|].
  rewrite (take_S_r _ _ _ Hi), visitAll_app.
  destruct IH as (s & Hrun & Hst & Hc & Hrefs & Hlr); [lia|].
  rewrite Hrun. simpl.
  assert (Hnotproto : ∀ j X, m !! j = Some X → CBN.key X ≠ "__proto__").
  { intros j X HX Hk. apply Hproto. rewrite <- Hk. by eapply key_in_keysOf. }
  assert (Hnew : ∀ j X, j < S i → m !! j = Some X →
            <[CBN.key Xi := generateRandomKey (calls s)]> (newKeysRef s) !! CBN.key X
            = Some (nk j)).
  { intros j X Hj HX. destruct (decide (j = i)) as [->|Hne].
    - simplify_eq. rewrite lookup_insert_eq, Hc. done.
    - rewrite lookup_insert_ne; [apply Hrefs; [lia|done]|].
      intros Hk. apply Hne. symmetry. by apply (same_key m Hwf i j Xi X). }
  destruct (visitBlock_blocks generateRandomKey s Xi)
    as (s' & Hrun' & Hst' & Hrefs' & Hc' & Hlr').
  { rewrite Hst, stateAt_keys. apply (wf_keys m Hwf). }
  { rewrite Hst, stateAt_keys. by eapply key_in_keysOf. }
  { by apply (Hnotproto i Xi). }
  { intros L HL. rewrite HL in Hlr. simpl in Hlr.
    destruct (lastRootIdx m i) as [l|] eqn:Hl; [|done]. simpl in Hlr.
    destruct (m !! l) as [Lm|] eqn:HLm; [|done]. simpl in Hlr.
    injection Hlr as Hk. exists (nk l). rewrite Hk.
    apply obj_get_lookup; [by apply (Hnotproto l Lm)|].
    apply Hnew; [|done]. apply lastRootIdx_lt in Hl. lia. }
  rewrite Hrun'. simpl.
  rewrite Hst, stateAt_keys, Hc in Hst'. rewrite Hc in Hrefs'.
  rewrite Hst, stateAt_keys in Hlr'. rewrite Hc in Hnew.
  exists s'. split; [done|]. split_and!.
  - rewrite Hst'. unfold stateAt. apply list_eq. intros j.
    rewrite list_lookup_fmap, !list_lookup_imap.
    destruct (m !! j) as [Xj|] eqn:Hj; [|done]. simpl. f_equal.
    apply (block_step i j Xi Xj); try done.
    intros l L Hl HL. apply Hnew; [|done]. apply lastRootIdx_lt in Hl. lia.
  - rewrite Hc', Hc. lia.
  - by rewrite Hrefs'.
  - rewrite Hlr', Hlr. simpl.
    pose proof (isRootAt_linked m i Xi Hi) as Hroot.
    destruct (linked keys (CBN.parent Xi)) eqn:Hlp.
    + assert (isRootAt m i = false) as ->; [|done].
      apply not_true_is_false. intros Hr%Hroot. congruence.
    + rewrite (proj1 Hroot eq_refl). simpl. by rewrite Hi.
Qed.

(** What [randomizeContentBlockNodeKeys] returns on a well-formed map. *)
Lemma tree_rekey_run :
  NoDup (nk <$> seq 0 (length m)) →
  randomizeContentBlockNodeKeys generateRandomKey c m
  = Some (rekeyed m generateRandomKey c, c + length m).
Proof.
  intros Hnd. unfold randomizeContentBlockNodeKeys.
  destruct (pass_prefix (length m)) as (s & Hrun & Hst & Hc & Hrefs & _); [done|].
  rewrite firstn_all in Hrun. rewrite Hrun. simpl.
  rewrite mapM_rekeyEntry.
  2:{ intros b Hb. rewrite Hst in Hb. unfold stateAt in Hb.
      apply list_elem_of_lookup in Hb as [j Hb]. rewrite list_lookup_imap in Hb.
      destruct (m !! j) as [X|] eqn:Hj; [|done]. simplify_eq/=. split.
      - intros Hk. apply Hproto. rewrite <- Hk. by eapply key_in_keysOf.
      - exists (nk j). apply Hrefs; [by eapply lookup_lt_Some|done]. }
  simpl. rewrite Hst, Hc.
  assert (Hmap : (λ block, CBN.set_key (default "" (newKeysRef s !! CBN.key block)) block)
                   <$> stateAt m generateRandomKey c (length m)
                 = rekeyed m generateRandomKey c).
  { unfold stateAt, rekeyed. apply list_eq. intros j.
    rewrite list_lookup_fmap, !list_lookup_imap.
    destruct (m !! j) as [X|] eqn:Hj; [|done]. simpl. f_equal.
    assert (Hr : newKeysRef s !! CBN.key X = Some (nk j)).
    { apply Hrefs; [by eapply lookup_lt_Some|done]. }
    f_equal. exact (f_equal (default "") Hr). }
  rewrite Hmap. rewrite OrderedMap_NoDup; [done|].
  assert (CBN.key <$> rekeyed m generateRandomKey c = nk <$> seq 0 (length m)) as ->;
    [|done].
  unfold rekeyed. apply list_eq. intros j.
  rewrite !list_lookup_fmap, list_lookup_imap.
  destruct (m !! j) as [X|] eqn:Hj; simpl.
  - rewrite lookup_seq_lt by by eapply lookup_lt_Some. done.
  - rewrite lookup_seq_ge; [done|]. by apply lookup_ge_None.
Qed.

End StepFacts.

(** *** The checker of well-formedness is sound *)

Section CheckerFacts.
Variable m : list CBN.t.
Local Open Scope list_scope.

Lemma forallb_imap_lookup {A} (f : nat * A → bool) (l : list A) j x :
  forallb f (imap pair l) = true → l !! j = Some x → f (j, x) = true.
Proof.
  intros Hall Hj. rewrite forallb_forall in Hall. apply Hall.
  apply list_elem_of_In, list_elem_of_lookup. exists j.
  by rewrite list_lookup_imap, Hj.
Qed.

Lemma forallb_lookup {A} (f : A → bool) (l : list A) j x :
  forallb f l = true → l !! j = Some x → f x = true.
Proof.
  intros Hall Hj. rewrite forallb_forall in Hall. apply Hall.
  apply list_elem_of_In. by eapply list_elem_of_lookup_2.
Qed.

Lemma wellFormed_sound : wellFormed m = true → WellFormed m.
Proof.
  unfold wellFormed. rewrite !andb_true_iff.
  intros [[[Hk%bool_decide_eq_true Hb] Hp] Hc].
  assert (Hpair : ∀ j w X Y, m !! j = Some X → m !! w = Some Y → wf_pair m j w X Y = true).
  { intros j w X Y Hj Hw.
    pose proof (forallb_imap_lookup _ _ j X Hp Hj) as Hrow. simpl in Hrow.
    apply (forallb_imap_lookup _ _ w Y Hrow Hw). }
  assert (Hchain : ∀ i X, m !! i = Some X → wf_chain m i X = true).
  { intros i X Hi. apply (forallb_imap_lookup _ _ i X Hc Hi). }
  split.
  - done.
  - intros j X Hj. pose proof (forallb_lookup _ _ j X Hb Hj) as HX.
    unfold wf_block in HX. rewrite !andb_true_iff, !bool_decide_eq_true in HX. tauto.
  - intros j X Hj. pose proof (forallb_lookup _ _ j X Hb Hj) as HX.
    unfold wf_block in HX. rewrite !andb_true_iff, !bool_decide_eq_true in HX. tauto.
  - intros j w X Y Hj Hw. specialize (Hpair j w X Y Hj Hw).
    unfold wf_pair in Hpair. rewrite !andb_true_iff, !bool_decide_eq_true in Hpair. tauto.
  - intros j w X Y Hj Hw. specialize (Hpair j w X Y Hj Hw).
    unfold wf_pair in Hpair. rewrite !andb_true_iff, !bool_decide_eq_true in Hpair. tauto.
  - intros j w X Hj Hr. destruct (resolve_Some m _ _ Hr) as (Y & Hw & _).
    specialize (Hpair j w X Y Hj Hw).
    unfold wf_pair in Hpair. rewrite !andb_true_iff, !bool_decide_eq_true in Hpair.
    by apply Hpair.
  - intros i l X Hi Hr Hl. specialize (Hchain i X Hi).
    unfold wf_chain in Hchain. rewrite Hr, Hl in Hchain.
    rewrite andb_true_iff, bool_decide_eq_true in Hchain. tauto.
  - intros i l L HL Hr Hl. destruct (isRootAt_lookup m i Hr) as [X Hi].
    specialize (Hchain i X Hi).
    unfold wf_chain in Hchain. rewrite Hr, Hl, HL in Hchain.
    rewrite andb_true_iff, !bool_decide_eq_true in Hchain. tauto.
Qed.

End CheckerFacts.

(** *** The rekeyed map *)

Section TreeRekey.
Variable generateRandomKey : nat → Key.
Variable c : nat.
Variable m : list CBN.t.
Hypothesis Hwf : WellFormed m.
Local Open Scope list_scope.

Local Abbreviation keys := (keysOf m).
Local Abbreviation nk := (newKey generateRandomKey c).
Local Abbreviation n := (length m).

Lemma resolve_lt o w : resolve m o = Some w → w < n.
Proof. intros (Y & HY & _)%resolve_Some. by eapply lookup_lt_Some. Qed.

Lemma resolve_key j X w Y (o : option Key) :
  m !! j = Some X → m !! w = Some Y → o ≠ Some "" → o = Some (CBN.key Y) →
  resolve m o = Some w.
Proof.
  intros Hj Hw Hne ->. apply (linked_resolve m Hwf _ w Y Hw).
  unfold linked. simpl.
  assert (truthy (CBN.key Y) = true) as ->.
  { apply bool_decide_eq_true. intros Hk. apply Hne. by rewrite Hk. }
  by rewrite (bool_decide_eq_true_2 _ (key_in_keysOf m w Y Hw)).
Qed.

Lemma chainNext_root i j z : chainNext m i j = Some z → isRootAt m j = true.
Proof.
  intros (_ & _ & _ & Hl)%chainNext_lt. by apply lastRootIdx_lt in Hl as [_ ?].
Qed.

Lemma nextAt_end j X :
  m !! j = Some X →
  nextAt m generateRandomKey c n j X
  = match resolve m (CBN.nextSibling X) with
    | Some w => Some (nk w)
    | None => nk <$> chainNext m n j
    end.
Proof.
  intros Hj. unfold nextAt. destruct (resolve m (CBN.nextSibling X)) as [w|] eqn:Hr.
  - by rewrite decide_True by by eapply resolve_lt.
  - destruct (chainNext m n j); [done|].
    by rewrite decide_True by by eapply lookup_lt_Some.
Qed.

Lemma prevAt_end j X :
  m !! j = Some X →
  prevAt m generateRandomKey c n j X
  = match resolve m (CBN.prevSibling X) with
    | Some w => Some (nk w)
    | None => if isRootAt m j then nk <$> lastRootIdx m j else None
    end.
Proof.
  intros Hj. unfold prevAt. destruct (resolve m (CBN.prevSibling X)) as [w|] eqn:Hr.
  - by rewrite decide_True by by eapply resolve_lt.
  - by rewrite decide_True by by eapply lookup_lt_Some.
Qed.

Lemma parentAt_end j X :
  m !! j = Some X →
  parentAt m generateRandomKey c n j X = nk <$> resolve m (CBN.parent X).
Proof.
  intros Hj. unfold parentAt. destruct (resolve m (CBN.parent X)) as [w|] eqn:Hr.
  - by rewrite decide_True by by eapply resolve_lt.
  - by rewrite decide_True by by eapply lookup_lt_Some.
Qed.

Lemma relabelAt_end k x :
  indexOf k keys = Some x → relabelAt m generateRandomKey c n k = nk x.
Proof.
  intros Hx. unfold relabelAt. rewrite Hx. rewrite decide_True; [done|].
  apply indexOf_Some, lookup_lt_Some in Hx. unfold keysOf in Hx.
  by rewrite length_fmap in Hx.
Qed.

(** With all children in the map the list is relabelled entry by entry. *)
Lemma relabel_all_present (l : list Key) :
  (∀ d, d ∈ l → d ∈ keys) →
  relabelAt m generateRandomKey c n <$> l = omap (newKeyFor m generateRandomKey c) l.
Proof.
  induction l as [|d l IH]; intros Hl; [done|]. simpl.
  assert (d ∈ keys) as Hd by (apply Hl; left).
  unfold newKeyFor at 1. destruct (indexOf d keys) as [x|] eqn:Hx.
  - simpl. rewrite (relabelAt_end d x Hx). f_equal. apply IH.
    intros d' Hd'. apply Hl. by right.
  - by apply indexOf_None in Hx.
Qed.

(** With the single key [q] outside the map it is the only one dropped. *)
Lemma relabel_one_absent (l : list Key) q :
  q ∉ keys → (∀ d, d ∈ l → d ∉ keys → d = q) →
  relabelAt m generateRandomKey c n <$> filter (λ d, d ≠ q) l
  = omap (newKeyFor m generateRandomKey c) l.
Proof.
  intros Hq. induction l as [|d l IH]; intros Hl; [done|].
  assert (IH' : relabelAt m generateRandomKey c n <$> filter (λ d, d ≠ q) l
                = omap (newKeyFor m generateRandomKey c) l).
  { apply IH. intros d' Hd'. apply Hl. by right. }
  rewrite filter_cons. cbn [omap list_omap]. unfold newKeyFor at 1.
  destruct (decide (d ≠ q)) as [Hne|Heq].
  - rewrite fmap_cons, IH'. destruct (indexOf d keys) as [x|] eqn:Hx.
    + by rewrite (relabelAt_end d x Hx).
    + exfalso. apply Hne, Hl; [left|]. by apply indexOf_None.
  - assert (d = q) as -> by by destruct (decide (d = q)).
    apply indexOf_None in Hq. by rewrite Hq.
Qed.

Lemma childrenAt_end j X :
  m !! j = Some X →
  (length (filter (λ d, d ∉ keys) (CBN.children X)) ≤ 1)%nat →
  childrenAt m generateRandomKey c n j X
  = omap (newKeyFor m generateRandomKey c) (CBN.children X).
Proof.
  intros Hj Hone. unfold childrenAt.
  rewrite decide_True by by eapply lookup_lt_Some.
  unfold dropLastAbsent.
  destruct (filter (λ d, d ∉ keys) (CBN.children X)) as [|q [|q' rest]] eqn:Hf;
    simpl in *; [| |lia].
  - apply relabel_all_present. intros d Hd.
    destruct (decide (d ∈ keys)) as [|Hn]; [done|].
    assert (d ∈ filter (λ d, d ∉ keys) (CBN.children X))
      by by apply list_elem_of_filter.
    rewrite Hf in *. by apply not_elem_of_nil in H.
  - assert (Hq : q ∈ filter (λ d, d ∉ keys) (CBN.children X)) by (rewrite Hf; left).
    apply list_elem_of_filter in Hq as [Hq _].
    apply relabel_one_absent; [done|]. intros d Hd Hn.
    assert (Hin : d ∈ filter (λ d, d ∉ keys) (CBN.children X))
      by by apply list_elem_of_filter.
    rewrite Hf in Hin. by apply list_elem_of_singleton in Hin.
Qed.

End TreeRekey.

Lemma asNodes_fmap (m : list CBN.t) : asNodes (Node <$> m) = Some m.
Proof. induction m as [|X m IH]; [done|]. rewrite fmap_cons. cbn [asNodes]. by rewrite IH. Qed.

Lemma randomizeBlockMapKeys_nodes (generateRandomKey : nat → Key) c (m out : list CBN.t)
    c' :
  randomizeContentBlockNodeKeys generateRandomKey c m = Some (out, c') →
  randomizeBlockMapKeys generateRandomKey c (Node <$> m) = Some (Node <$> out, c').
Proof.
  intros Hrun. destruct m as [|X m].
  - by injection Hrun as <- <-.
  - change (randomizeBlockMapKeys generateRandomKey c (Node <$> X :: m))
      with (nodes ← asNodes (Node <$> X :: m);
            match randomizeContentBlockNodeKeys generateRandomKey c nodes with
            | Some (m', c') => Some (Node <$> m', c')
            | None => None
            end).
    rewrite asNodes_fmap. simpl. by rewrite Hrun.
Qed.

(** C1 (amended): on a well-formed tree block map, fragments included, in
    which no block is keyed ["__proto__"], and with fresh keys, rekeying
    keeps every block in its place, with its text,
    under its new key, and relabels the links: a next-sibling,
    previous-sibling or parent link to a block of the map becomes the new key
    of that block; a parent link that leads nowhere in the map becomes
    [null]; a sibling link that leads nowhere in the map becomes [null],
    except that a block without parent in the map is chained to the roots
    around it: its next link is the new key of the next root in map order and
    its previous link the new key of the root before it; a children list with
    at most one entry outside the map becomes the list of the new keys of its
    entries in the map, in order. *)
Theorem tree_rekey_topology (generateRandomKey : nat → Key) (c : nat) (m : list CBN.t) :
  wellFormed m = true →
  "__proto__" ∉ keysOf m →
  freshKeys generateRandomKey c (length m) (keysOf m) →
  ∃ out,
    randomizeBlockMapKeys generateRandomKey c (Node <$> m)
    = Some (Node <$> out, c + length m)
    ∧ length out = length m
    ∧ ∀ j X, m !! j = Some X →
        ∃ X', out !! j = Some X'
          ∧ CBN.key X' = newKey generateRandomKey c j
          ∧ CBN.text X' = CBN.text X
          ∧ (∀ w Y, m !! w = Some Y →
               (CBN.nextSibling X = Some (CBN.key Y) →
                CBN.nextSibling X' = Some (newKey generateRandomKey c w))
               ∧ (CBN.prevSibling X = Some (CBN.key Y) →
                  CBN.prevSibling X' = Some (newKey generateRandomKey c w))
               ∧ (CBN.parent X = Some (CBN.key Y) →
                  CBN.parent X' = Some (newKey generateRandomKey c w)))
          ∧ (resolve m (CBN.parent X) = None → CBN.parent X' = None)
          ∧ (resolve m (CBN.nextSibling X) = None →
               CBN.nextSibling X'
               = newKey generateRandomKey c <$> chainNext m (length m) j
               ∧ (isRootAt m j = false → CBN.nextSibling X' = None))
          ∧ (resolve m (CBN.prevSibling X) = None →
               CBN.prevSibling X'
               = if isRootAt m j
                 then newKey generateRandomKey c <$> lastRootIdx m j else None)
          ∧ ((length (filter (λ d, d ∉ keysOf m) (CBN.children X)) ≤ 1)%nat →
               CBN.children X'
               = omap (newKeyFor m generateRandomKey c) (CBN.children X)).
Proof.
  intros Hwf%wellFormed_sound Hproto [Hnd Hfresh].
  assert (Hrun : randomizeContentBlockNodeKeys generateRandomKey c m
                 = Some (rekeyed m generateRandomKey c, c + length m)).
  { apply tree_rekey_run; [done| |done|].
    - intros x Hx. rewrite Forall_forall in Hfresh. apply Hfresh.
      apply list_elem_of_fmap. exists (c + x). split; [done|].
      apply elem_of_seq. lia.
    - assert (newKey generateRandomKey c <$> seq 0 (length m)
              = generateRandomKey <$> seq c (length m)) as ->; [|done].
      apply list_eq. intros i. rewrite !list_lookup_fmap.
      destruct (decide (i < length m)).
      + by rewrite !lookup_seq_lt by done.
      + by rewrite !lookup_seq_ge by lia. }
  exists (rekeyed m generateRandomKey c). split_and!.
  - by apply randomizeBlockMapKeys_nodes.
  - unfold rekeyed. by rewrite length_imap.
  - intros j X Hj.
    exists (CBN.set_key (newKey generateRandomKey c j)
              (blockAt m generateRandomKey c (length m) j X)).
    split; [unfold rekeyed; by rewrite list_lookup_imap, Hj|].
    destruct (wf_links m Hwf j X Hj) as (Hn & Hp & Hpa).
    cbn [CBN.set_key blockAt CBN.key CBN.text CBN.nextSibling CBN.prevSibling
         CBN.parent CBN.children].
    rewrite (nextAt_end generateRandomKey c m j X Hj),
      (prevAt_end generateRandomKey c m j X Hj),
      (parentAt_end generateRandomKey c m j X Hj).
    split_and!; try done.
    + intros w Y Hw. split_and!; intros Heq.
      * by rewrite (resolve_key m Hwf j X w Y _ Hj Hw Hn Heq).
      * by rewrite (resolve_key m Hwf j X w Y _ Hj Hw Hp Heq).
      * by rewrite (resolve_key m Hwf j X w Y _ Hj Hw Hpa Heq).
    + by intros ->.
    + intros ->. split; [done|]. intros Hr.
      destruct (chainNext m (length m) j) as [z|] eqn:Hz; [|done].
      apply chainNext_root in Hz. congruence.
    + by intros ->.
    + intros Hone. by apply childrenAt_end.
Qed.

(** *** Runs on concrete maps *)

Section TreeRuns.
Local Open Scope list_scope.

(** Scenario B, run. *)
Example scenarioB_rekeyed :
  randomizeBlockMapKeys gen8 0 (Node <$> scenarioB)
  = Some (Node <$> [ CBN.mk "x0" "unstyled" "" 0 None ["x1"; "x2"] None None;
                     leaf "x1" "b" (Some "x0") None (Some "x2");
                     leaf "x2" "c" (Some "x0") (Some "x1") None ], 3).
Proof. by vm_compute. Qed.

Lemma tree_rekey_topology_witness :
  (wellFormed scenarioB = true ∧ ("__proto__" ∉ keysOf scenarioB)
   ∧ freshKeys gen8 0 3 ["A"; "B"; "C"])
  ∧ ∃ out, randomizeBlockMapKeys gen8 0 (Node <$> scenarioB) = Some (Node <$> out, 3)
      ∧ ∃ A' B' C', out = [A'; B'; C']
          ∧ CBN.children A' = [CBN.key B'; CBN.key C']
          ∧ CBN.parent B' = Some (CBN.key A')
          ∧ CBN.nextSibling B' = Some (CBN.key C')
          ∧ CBN.prevSibling C' = Some (CBN.key B').
Proof.
  assert (Hwf : wellFormed scenarioB = true) by reflexivity.
  assert (Hproto : "__proto__" ∉ keysOf scenarioB) by compute_done.
  assert (Hfresh : freshKeys gen8 0 3 ["A"; "B"; "C"]) by (unfold freshKeys; compute_done).
  split; [by split_and!|].
  destruct (tree_rekey_topology gen8 0 scenarioB Hwf Hproto Hfresh)
    as (out & Hrun & Hlen & Hout).
  exists out. split; [exact Hrun|].
  destruct out as [|A' [|B' [|C' [|? ?]]]]; try discriminate Hlen.
  exists A', B', C'. split; [reflexivity|].
  destruct (Hout 0 _ eq_refl) as (? & [= <-] & HkA & _ & _ & _ & _ & _ & HchA).
  destruct (Hout 1 _ eq_refl) as (? & [= <-] & HkB & _ & HlB & _).
  destruct (Hout 2 _ eq_refl) as (? & [= <-] & HkC & _ & HlC & _).
  rewrite HkA, HkB, HkC.
  destruct (HlB 0 _ eq_refl) as (_ & _ & HpB).
  destruct (HlB 2 _ eq_refl) as (HnB & _ & _).
  destruct (HlC 1 _ eq_refl) as (_ & HpC & _).
  split_and!.
  - rewrite HchA; [reflexivity|]. vm_compute. lia.
  - by apply HpB.
  - by apply HnB.
  - by apply HpC.
Defined.

(** C1, as stated, fails on a fragment: the root "S" names "P" as previous
    sibling, "P" is outside the map, and the rekeyed "S" has the new key of
    the root "B" before it as previous sibling, not [null]. *)
Lemma dangling_sibling_of_root_is_rechained :
  wellFormed childThenRoot = true
  ∧ childThenRoot !! 1 = Some (leaf "S" "s" None (Some "P") None)
  ∧ ("P" ∉ keysOf childThenRoot)
  ∧ randomizeBlockMapKeys gen8 0 (Node <$> childThenRoot)
    = Some (Node <$> [ leaf "x0" "b" None None (Some "x1");
                       leaf "x1" "s" None (Some "x0") None ], 2).
Proof. split_and!; [done|done|compute_done|by vm_compute]. Qed.

(** A block keyed ["__proto__"]: the plain object [newKeysRef] does not
    take its new key, the read gives [Object.prototype] as the key of the
    rebuilt entry, and what is returned is no block map. *)
Example proto_key_is_no_block_map :
  wellFormed [ leaf "R1" "r1" None None (Some "__proto__");
               leaf "__proto__" "r2" None (Some "R1") None ] = true
  ∧ randomizeBlockMapKeys gen8 0
      (Node <$> [ leaf "R1" "r1" None None (Some "__proto__");
                  leaf "__proto__" "r2" None (Some "R1") None ])
    = None.
Proof. split; by vm_compute. Qed.

(** C2: the code drops one child outside the map only.  The parent "P"
    lists "B2" and "B3", both outside the map; the rekeyed parent still
    lists "B2", which is no key of the rekeyed map. *)
Lemma dangling_child_survives :
  wellFormed cutAfterFirstChild = true
  ∧ ∃ out, randomizeBlockMapKeys gen8 0 (Node <$> cutAfterFirstChild)
           = Some (Node <$> out, 2)
      ∧ CBN.key <$> out = ["x0"; "x1"]
      ∧ CBN.children <$> out = [["x1"; "B2"]; []]
      ∧ ("B2" ∉ CBN.key <$> out).
Proof.
  split; [done|].
  exists [ CBN.mk "x0" "unstyled" "" 0 None ["x1"; "B2"] None None;
           leaf "x1" "one" (Some "x0") None None ].
  split_and!; [by vm_compute|done|done|compute_done].
Qed.

End TreeRuns.

Section FlatRekey.
Variable generateRandomKey : nat → Key.
Local Open Scope list_scope.

Lemma rekeyEach_zip (blocks : BlockMap) : ∀ c,
  rekeyEach generateRandomKey c blocks =
    (zip_with record_set_key (generateRandomKey <$> seq c (length blocks)) blocks,
     c + length blocks).
Proof.
  induction blocks as [|b blocks IH]; intros c; simpl.
  - by rewrite Nat.add_0_r.
  - rewrite IH. simpl. f_equal. lia.
Qed.

Lemma record_key_set_key k r : record_key (record_set_key k r) = k.
Proof. by destruct r. Qed.

Lemma record_text_set_key k r : record_text (record_set_key k r) = record_text r.
Proof. by destruct r. Qed.

Lemma keys_of_zip (ks : list Key) : ∀ blocks : BlockMap,
  length ks = length blocks →
  record_key <$> zip_with record_set_key ks blocks = ks.
Proof.
  induction ks as [|k ks IH]; intros [|b blocks] Hlen; simplify_eq/=; [done|].
  by rewrite record_key_set_key, IH.
Qed.

Lemma texts_of_zip (ks : list Key) : ∀ blocks : BlockMap,
  length ks = length blocks →
  record_text <$> zip_with record_set_key ks blocks = record_text <$> blocks.
Proof.
  induction ks as [|k ks IH]; intros [|b blocks] Hlen; simplify_eq/=; [done|].
  by rewrite record_text_set_key, IH.
Qed.

(** C8: on a flat block map, given fresh keys, [randomizeBlockMapKeys]
    returns as many entries, in the same order, each block unchanged but for
    its key; the keys are the generated ones, pairwise distinct and none of
    them an original key; the generator was called once per block. *)
Theorem flat_rekey_preserves_blocks (c : nat) (blocks : list ContentBlock.t) :
  let blockMap := Flat <$> blocks in
  let keys := generateRandomKey <$> seq c (length blocks) in
  freshKeys generateRandomKey c (length blocks) (ContentBlock.key <$> blocks) →
  ∃ out,
    randomizeBlockMapKeys generateRandomKey c blockMap = Some (out, c + length blocks)
    ∧ length out = length blocks
    ∧ out = zip_with record_set_key keys blockMap
    ∧ record_text <$> out = ContentBlock.text <$> blocks
    ∧ record_key <$> out = keys
    ∧ NoDup (record_key <$> out)
    ∧ Forall (λ k, k ∉ ContentBlock.key <$> blocks) (record_key <$> out).
Proof.
  intros blockMap keys [Hnd Hfresh].
  assert (Hlen : length keys = length blockMap).
  { unfold keys, blockMap. by rewrite !length_fmap, length_seq. }
  exists (zip_with record_set_key keys blockMap).
  assert (Hrun : randomizeBlockMapKeys generateRandomKey c blockMap
                 = Some (zip_with record_set_key keys blockMap, c + length blocks)).
  { assert (Hflat : randomizeBlockMapKeys generateRandomKey c blockMap
                    = Some (randomizeContentBlockKeys generateRandomKey c blockMap)).
    { unfold blockMap. by destruct blocks. }
    rewrite Hflat. unfold randomizeContentBlockKeys. rewrite rekeyEach_zip.
    assert (Hl : length blockMap = length blocks) by apply length_fmap.
    rewrite Hl. fold keys. rewrite OrderedMap_NoDup; [done|]. by rewrite keys_of_zip. }
  rewrite keys_of_zip by done. split_and!; try done.
  - rewrite length_zip_with, Hlen. unfold blockMap. rewrite length_fmap. lia.
  - rewrite texts_of_zip by done. unfold blockMap.
    rewrite <- list_fmap_compose. by apply list_fmap_ext.
Qed.

End FlatRekey.

(** Scenario A. *)
Lemma flat_rekey_preserves_blocks_witness :
  let gen := keysFrom ["x0"; "x1"] in
  freshKeys gen 0 2 ["a"; "b"]
  ∧ ∃ out, randomizeBlockMapKeys gen 0 (Flat <$> scenarioA) = Some (out, 2)
      ∧ record_text <$> out = ["Hi"; "Bye"]
      ∧ record_key <$> out = ["x0"; "x1"].
Proof.
  intros gen.
  assert (Hfresh : freshKeys gen 0 2 ["a"; "b"]) by (unfold freshKeys; compute_done).
  split; [exact Hfresh|].
  destruct (flat_rekey_preserves_blocks gen 0 scenarioA Hfresh)
    as (out & Hrun & _ & _ & Htext & Hkeys & _).
  exists out. split_and!; [exact Hrun|exact Htext|exact Hkeys].
Defined.

(** ** Composition handler and focus handler *)

Lemma string_cons_app x (a b : string) : String x a ++ b = String x (a ++ b).
Proof. reflexivity. Qed.

Lemma string_app_assoc (a b c : string) : (a ++ b) ++ c = a ++ (b ++ c).
Proof. induction a as [|x a IH]; [done|]. by rewrite !string_cons_app, IH. Qed.

Lemma string_app_nil_r (a : string) : a ++ "" = a.
Proof. induction a as [|x a IH]; [done|]. by rewrite string_cons_app, IH. Qed.

Section CompositionFacts.
Context {Document : Type} `{Composition.Host Document}.
Import Composition.
Local Open Scope list_scope.

Implicit Types w : World Document.

Lemma mustReset_of_empty (es : EditorState Document) : mustReset "" es = true.
Proof. done. Qed.

Lemma nonEmpty_false (s : string) : nonEmpty s = false ↔ s = "".
Proof.
  unfold nonEmpty. rewrite bool_decide_eq_false. split; [|by intros ->; auto].
  intros Hn. by destruct (decide (s = "")).
Qed.

Lemma nonEmpty_true (s : string) : nonEmpty s = true ↔ s ≠ "".
Proof. unfold nonEmpty. by rewrite bool_decide_eq_true. Qed.

(** One resolution that passes the guard, written out. *)
Lemma resolveComposition_passed w :
  stillComposing (session w) = false →
  resolveComposition w =
    mkWorld (mkSession true false "" (setTimeoutId (session w)) "")
      (mkEditor (committed w) (has_onFocus (editor w))
         (hostCalls (editor w)
          ++ (if mustReset (textInputData (session w)) (snapshot w)
              then [restoreEditorDOM] else [])
          ++ [exitCurrentMode; update (committed w)]))
      (domSelection w) (timers w) (nextTimerId w).
Proof.
  intros Hs. unfold resolveComposition. rewrite Hs. cbn zeta.
  destruct w as [[r sc t id f] [es fo log] dom tm nx]; simpl in *. subst sc.
  unfold committed, snapshot; simpl.
  destruct (speculativeRemoval f _) as [c sel] eqn:Hrm; simpl.
  destruct (nonEmpty t) eqn:Ht.
  - destruct (mustReset t _); simpl;
      unfold with_editor, editor_update, call; simpl;
      by rewrite <- !List.app_assoc.
  - apply nonEmpty_false in Ht as ->. rewrite mustReset_of_empty. simpl.
    unfold with_editor, editor_update, call; simpl.
    by rewrite <- !List.app_assoc.
Qed.

Lemma resolveComposition_guarded w :
  stillComposing (session w) = true → resolveComposition w = w.
Proof. intros Hs. unfold resolveComposition. by rewrite Hs. Qed.

Lemma emittedBy_passed w :
    stillComposing (session w) = false →
    emittedBy w (resolveComposition w) =
      (if mustReset (textInputData (session w)) (snapshot w)
       then [restoreEditorDOM] else [])
      ++ [exitCurrentMode; update (committed w)].
Proof.
    intros Hs. unfold emittedBy. rewrite (resolveComposition_passed w Hs). simpl.
    by rewrite drop_app_length.
Qed.
Lemma updatesOf_passed w :
  stillComposing (session w) = false →
  updatesOf (emittedBy w (resolveComposition w)) = [committed w].
Proof.
  intros Hs. rewrite (emittedBy_passed w Hs). by destruct (mustReset _ _).
Qed.

(** C5: past the guard, [mustReset] holds exactly when no characters were
    composed, or the selection is at the start of a leaf, or the inline style
    set is non-empty, or an entity key is active; when it holds the DOM is
    restored first, and composition mode is left in every case, before the
    one update. *)
Theorem mustReset_iff_and_restore_before_exit w :
  stillComposing (session w) = false →
  let composedChars := textInputData (session w) in
  let es := snapshot w in
  (mustReset composedChars es = true ↔
     composedChars = ""
     ∨ isSelectionAtLeafStart es = true
     ∨ 0 < length (getCurrentInlineStyle es)
     ∨ getEntityKeyForSelection (currentContent es) (selection es) ≠ None)
  ∧ ∃ es', emittedBy w (resolveComposition w) =
             (if mustReset composedChars es then [restoreEditorDOM] else [])
             ++ [exitCurrentMode; update es'].
Proof.
  intros Hs composedChars es. split.
  - unfold mustReset. rewrite !orb_true_iff, negb_true_iff, nonEmpty_false,
      !bool_decide_eq_true. tauto.
  - exists (committed w). by apply emittedBy_passed.
Qed.

(** C9: a resolution that passes the guard makes exactly one [update] call:
    the push tagged [insert-characters] when characters were composed, else
    the forced reset, since an empty [composedChars] makes [mustReset] true. *)
Theorem resolution_emits_one_update w :
  stillComposing (session w) = false →
  let composedChars := textInputData (session w) in
  let es := snapshot w in
  ∃ es', updatesOf (emittedBy w (resolveComposition w)) = [es']
    ∧ (composedChars ≠ "" → ∃ c, es' = push es c insert_characters)
    ∧ (composedChars = "" →
         mustReset composedChars es = true
         ∧ es' = set_forcedReset es
         ∧ nativelyRenderedContent es' = None
         ∧ forceSelection es' = true).
Proof.
  intros Hs composedChars es. exists (committed w). split_and!.
  - by apply updatesOf_passed.
  - intros Hne%nonEmpty_true. unfold committed. fold es. fold composedChars.
    rewrite Hne. eauto.
  - intros He. unfold committed. fold es. fold composedChars.
    rewrite He. by rewrite mustReset_of_empty.
Qed.

(** C3 (amended): invoked again after a completed resolution,
    [resolveComposition] is not stopped by a guard of its own: it finds the
    buffers empty and emits the forced reset, which keeps content and
    selection of the latest state; nothing is inserted.  Attempts that
    come through either timer are skipped by the [resolved] flag. *)
Theorem resolution_after_completion_only_resets w :
  resolved (session w) = true →
  stillComposing (session w) = false →
  textInputData (session w) = "" →
  formerTextInputData (session w) = "" →
  let w' := resolveComposition w in
  let es := _latestEditorState (editor w) in
  emittedBy w w' =
    [restoreEditorDOM; exitCurrentMode; update (set_forcedReset (snapshot w))]
  ∧ currentContent (set_forcedReset (snapshot w)) = currentContent es
  ∧ selection (set_forcedReset (snapshot w)) = selection es
  ∧ session w' = session w
  ∧ resolveAfterEndFires w = w
  ∧ ∀ data, keepAliveFires data w = w.
Proof.
  intros Hr Hs Ht Hf w' es. split_and!.
  - unfold w'. rewrite (emittedBy_passed w Hs). unfold committed.
    by rewrite Ht, mustReset_of_empty.
  - done.
  - done.
  - unfold w'. rewrite (resolveComposition_passed w Hs).
    destruct w as [[r sc t id f] ed dom tm nx]; simpl in *. by subst.
  - unfold resolveAfterEndFires. by rewrite Hr.
  - intros data. unfold keepAliveFires. by rewrite Hr.
Qed.


(** C7 (amended): on Android, when characters are inserted and the anchor
    offset of the model's selection after the insertion exceeds the anchor
    offset of the native selection, the pushed content records as selection
    after the insertion's selection with the native offsets put in forward
    order (anchor: the smaller one, focus: the larger one), and as selection
    before the model's selection after; they are the native anchor and focus
    themselves when the native anchor does not exceed the native focus.
    Otherwise the content is pushed as [replaceText] returned it. *)
Theorem selection_remap_on_android w :
  stillComposing (session w) = false →
  isAndroid = true →
  textInputData (session w) ≠ "" →
  let es := snapshot w in
  let rm := speculativeRemoval (formerTextInputData (session w)) es in
  let inserted :=
    replaceText rm.1 rm.2 (textInputData (session w)) (getCurrentInlineStyle es)
      (getEntityKeyForSelection (currentContent es) (selection es)) in
  let a := dom_anchorOffset (domSelection w) in
  let f := dom_focusOffset (domSelection w) in
  ∃ c, updatesOf (emittedBy w (resolveComposition w)) = [push es c insert_characters]
    ∧ ((a < anchorOffset (selectionAfter inserted))%Z →
         document c = document inserted
         ∧ selectionBefore c = selectionAfter inserted
         ∧ selectionAfter c = merge_offsets (Z.min a f) (Z.max a f) rm.2
         ∧ ((a ≤ f)%Z →
              anchorOffset (selectionAfter c) = a ∧ focusOffset (selectionAfter c) = f))
    ∧ (¬ (a < anchorOffset (selectionAfter inserted))%Z → c = inserted).
Proof.
  intros Hs Ha Ht es rm inserted a f.
  exists (remapSelection (domSelection w) rm.2 inserted). split_and!.
  - rewrite (updatesOf_passed w Hs). unfold committed. fold es. fold rm.
    apply nonEmpty_true in Ht. by rewrite Ht.
  - intros Hlt. unfold remapSelection. rewrite Ha. fold a. fold f.
    rewrite bool_decide_eq_true_2 by done. simpl.
    replace (Z.min a f + Z.abs (f - a))%Z with (Z.max a f) by lia.
    split_and!; try done. intros Hle. split; lia.
  - intros Hge. unfold remapSelection. fold a.
    rewrite bool_decide_eq_false_2 by done. by rewrite andb_false_r.
Qed.

(** C10: with the focus flag already set [editOnFocus] does nothing;
    otherwise it calls the user's [onFocus], if there is one, and then makes
    one [update] with [EditorState.forceSelection] of the prior state and the
    prior selection with the focus flag set. *)
Theorem editOnFocus_forces_selection_once (ed : Editor Document) :
  let es := _latestEditorState ed in
  let sel := set_hasFocus true (selection es) in
  (hasFocus (selection es) = true → editOnFocus ed = ed)
  ∧ (hasFocus (selection es) = false →
       hostCalls (editOnFocus ed) =
         hostCalls ed ++ (if has_onFocus ed then [props_onFocus] else [])
         ++ [update (EditorState_forceSelection es sel)]
       ∧ _latestEditorState (editOnFocus ed) = EditorState_forceSelection es sel
       ∧ hasFocus sel = true
       ∧ set_hasFocus false sel = selection es).
Proof.
  intros es sel. unfold editOnFocus. fold es. split; intros Hf; rewrite Hf; [done|].
  split_and!.
  - destruct (has_onFocus ed); simpl; [|done]. by rewrite <- List.app_assoc.
  - done.
  - done.
  - unfold sel. destruct (selection es); simpl in *. by subst.
Qed.

Lemma resolveComposition_timers w :
  timers (resolveComposition w) = timers w
  ∧ nextTimerId (resolveComposition w) = nextTimerId w
  ∧ setTimeoutId (session (resolveComposition w)) = setTimeoutId (session w).
Proof.
  destruct (stillComposing (session w)) eqn:Hs.
  - by rewrite resolveComposition_guarded.
  - by rewrite resolveComposition_passed.
Qed.

Lemma timerPending_ext t w w' :
  timers w' = timers w → nextTimerId w' = nextTimerId w →
  setTimeoutId (session w') = setTimeoutId (session w) →
  timerPending t w → timerPending t w'.
Proof. unfold timerPending. by intros -> -> ->. Qed.

Lemma timerPending_resolve t w : timerPending t w → timerPending t (resolveComposition w).
Proof.
  destruct (resolveComposition_timers w) as (? & ? & ?). by apply timerPending_ext.
Qed.

Lemma timerPending_clear t id w :
  id ≠ t → timerPending t w → timerPending t (clearTimeout id w).
Proof.
  intros Hne (Ht & Hall & (tm & Htm & Hid) & Hk). split_and!; simpl; try done.
  - apply Forall_forall. intros x [_ Hx]%list_elem_of_filter.
    rewrite Forall_forall in Hall. by apply Hall.
  - exists tm. split; [|done]. apply list_elem_of_filter. split; [congruence|done].
Qed.

Lemma timerPending_setTimeout t k d w :
  timerPending t w → timerPending t (setTimeout k d w).2.
Proof.
  intros (Ht & Hall & (tm & Htm & Hid) & Hk). split_and!; simpl; try done.
  - lia.
  - apply Forall_app. split; [done|]. repeat constructor. simpl. lia.
  - exists tm. split; [|done]. apply elem_of_app. by left.
Qed.

(** The pending end timer stays pending whatever happens, until it fires. *)
Lemma step_keeps_timer t w e :
  fires t e = false → timerPending t w → timerPending t (step w e).
Proof.
  intros Hf Hw. destruct e as [d|d|d| |k|k|id]; simpl.
  - by apply (timerPending_ext t w).
  - by apply (timerPending_ext t w).
  - unfold onCompositionUpdate. destruct isAndroid; simpl; [|done].
    assert (Hc : timerPending t
              match setTimeoutId (session w) with
              | Some id => clearTimeout id w
              | None => w
              end).
    { destruct (setTimeoutId (session w)) as [id|] eqn:Hid; [|done].
      apply timerPending_clear; [|done]. destruct Hw as (_ & _ & _ & Hk). congruence. }
    destruct Hc as (Ht & Hall & (tm & Htm & Hid) & _). split_and!; simpl.
    + lia.
    + apply Forall_app. split; [done|]. repeat constructor. simpl. lia.
    + exists tm. split; [|done]. apply elem_of_app. by left.
    + intros [=]. lia.
  - unfold onCompositionEnd.
    apply (timerPending_setTimeout t resolveAfterEnd RESOLVE_DELAY).
    by apply (timerPending_ext t w).
  - unfold onKeyDown. destruct (negb _).
    + apply (timerPending_ext t (resolveComposition w)); try done.
      by apply timerPending_resolve.
    + destruct (_ || _); [|done]. by apply (timerPending_ext t w).
  - unfold onKeyPress. destruct (bool_decide _); [|done].
    by apply (timerPending_ext t w).
  - simpl in Hf. apply bool_decide_eq_false in Hf. unfold fire.
    destruct (list_find _ _) as [[i tm]|]; [|done].
    assert (Hc : timerPending t (clearTimeout id w)) by by apply timerPending_clear.
    destruct (task tm) as [|d]; simpl.
    + unfold resolveAfterEndFires. destruct (negb _); [|done].
      by apply timerPending_resolve.
    + unfold keepAliveFires. destruct (_ && _); [|done].
      apply timerPending_resolve. by apply (timerPending_ext t (clearTimeout id w)).
Qed.

Lemma run_keeps_timer t pre : ∀ w,
  forallb (λ e, negb (fires t e)) pre = true →
  timerPending t w → timerPending t (run w pre).
Proof.
  induction pre as [|e pre IH]; intros w Hpre Hw; [done|].
  simpl in Hpre. apply andb_true_iff in Hpre as [He%negb_true_iff Hpre].
  change (run w (e :: pre)) with (run (step w e) pre).
  apply IH; [done|]. by apply step_keeps_timer.
Qed.

Lemma quiet_not_fires t e : quiet e = true → fires t e = false.
Proof. by destruct e. Qed.

Lemma step_quiet t w e :
  quiet e = true → composingWith t w →
  composingWith t (step w e)
  ∧ textInputData (session (step w e))
    = (textInputData (session w) ++ inputOf [e])%string.
Proof.
  intros Hq [Hs Hw].
  pose proof (step_keeps_timer t w e (quiet_not_fires t e Hq) Hw) as Hw'.
  split; [split; [|done]|]; clear Hw Hw';
    destruct w as [[r sc txt id f] ed dom tms nx]; simpl in *; subst sc;
    destruct e as [d|d|d| |k|k|i]; try done; simpl;
    rewrite ?string_app_nil_r; try done.
  - unfold onCompositionUpdate. by destruct isAndroid, id.
  - unfold onKeyDown. simpl. by destruct (_ || _).
  - unfold onKeyPress. by destruct (bool_decide _).
  - unfold onCompositionUpdate. by destruct isAndroid, id.
  - unfold onKeyDown. simpl. by destruct (_ || _).
  - unfold onKeyPress. by destruct (bool_decide _).
Qed.

Lemma run_quiet t mid : ∀ w,
  forallb quiet mid = true → composingWith t w →
  composingWith t (run w mid)
  ∧ textInputData (session (run w mid))
    = (textInputData (session w) ++ inputOf mid)%string.
Proof.
  induction mid as [|e mid IH]; intros w Hq Hw.
  - simpl. by rewrite string_app_nil_r.
  - simpl in Hq. apply andb_true_iff in Hq as [He Hq].
    change (run w (e :: mid)) with (run (step w e) mid).
    destruct (step_quiet t w e He Hw) as [Hw' Htxt].
    destruct (IH (step w e) Hq Hw') as [Hw'' Htxt'].
    split; [done|]. rewrite Htxt', Htxt, string_app_assoc.
    f_equal. by destruct e; simpl; rewrite ?string_app_nil_r.
Qed.

Lemma pending_after_end w :
  timersIssued w → timerPending (S (nextTimerId w)) (onCompositionEnd w).
Proof.
  intros [Hall Hk]. destruct w as [[r sc txt id f] ed dom tms nx]; simpl in *.
  split_and!; simpl; try lia.
  - apply Forall_app. split; [|by repeat constructor].
    eapply Forall_impl; [exact Hall|]. simpl. intros tm Hle Heq. lia.
  - eexists. split; [apply elem_of_app; right; apply list_elem_of_singleton; done|done].
  - intros ->. specialize (Hk _ eq_refl). lia.
Qed.

Lemma fire_while_composing t w :
  composingWith t w →
  editor (fire t w) = editor w ∧ session (fire t w) = session w.
Proof.
  intros (Hs & _ & Hall & _ & _). unfold fire.
  destruct (list_find _ _) as [[i tm]|] eqn:Hfind; [|done].
  apply list_find_Some in Hfind as (Hi%list_elem_of_lookup_2 & Hid & _).
  rewrite Forall_forall in Hall. rewrite (Hall tm Hi Hid). simpl.
  unfold resolveAfterEndFires.
  destruct (negb _); [|done]. by rewrite resolveComposition_guarded.
Qed.

Lemma run_app w (es es' : list Event) : run w (es ++ es') = run (run w es) es'.
Proof. apply foldl_app. Qed.

(** C4 (amended): [onCompositionEnd] arms its timer; whatever is processed
    next, short of that timer firing, the timer stays pending; when
    [onCompositionStart] is then processed and neither a [compositionend] nor
    a timer firing intervenes until that timer fires, the timer finds
    [stillComposing] set: its firing makes no call on the editor and leaves
    the session as it is, holding the input it held at the restart and the
    input received since. *)
Theorem restart_before_timer_keeps_session w pre data mid :
  timersIssued w →
  let t := S (nextTimerId w) in
  forallb (λ e, negb (fires t e)) pre = true →
  forallb quiet mid = true →
  let w1 := run w (CompositionEnd :: pre) in
  let w2 := run w1 (CompositionStart data :: mid) in
  let w3 := step w2 (TimerFires t) in
  (∃ tm, tm ∈ timers w2 ∧ timerId tm = t ∧ task tm = resolveAfterEnd)
  ∧ stillComposing (session w2) = true
  ∧ emittedBy w2 w3 = []
  ∧ editor w3 = editor w2
  ∧ session w3 = session w2
  ∧ textInputData (session w3)
    = (textInputData (session w1) ++ inputOf mid)%string.
Proof.
  intros Hw t Hpre Hq w1 w2 w3.
  assert (H1 : timerPending t w1).
  { apply (run_keeps_timer t pre (onCompositionEnd w)); [done|].
    by apply pending_after_end. }
  assert (H0 : composingWith t (onCompositionStart data w1)).
  { split; [done|]. by apply (timerPending_ext t w1). }
  destruct (run_quiet t mid _ Hq H0) as [H2 Htxt].
  change (run (onCompositionStart data w1) mid) with w2 in *.
  destruct (fire_while_composing t w2 H2) as [He Hse].
  change (fire t w2) with w3 in *.
  destruct H2 as (Hs & _ & Hall & (tm & Htm & Hid) & _).
  split_and!; try done.
  - exists tm. rewrite Forall_forall in Hall. auto.
  - unfold emittedBy. rewrite He. apply drop_all.
  - rewrite Hse, Htxt. by destruct w1 as [[] ? ? ? ?].
Qed.

End CompositionFacts.

(** ** The handlers on the one-block editor *)

Section OneBlockRuns.
Import Composition OneBlock.
Local Open Scope list_scope.

Lemma mustReset_iff_and_restore_before_exit_witness :
  stillComposing (session desktopRun) = false
  ∧ ∃ es', emittedBy desktopRun (resolveComposition (H:=host false) desktopRun) =
             (if mustReset (H:=host false) "a" (snapshot desktopRun)
              then [restoreEditorDOM] else [])
             ++ [exitCurrentMode; update es'].
Proof.
  split; [reflexivity|].
  exact (proj2 (mustReset_iff_and_restore_before_exit (H:=host false) desktopRun eq_refl)).
Defined.

Lemma resolution_emits_one_update_witness :
  stillComposing (session desktopRun) = false
  ∧ ∃ es', updatesOf (emittedBy desktopRun (resolveComposition (H:=host false) desktopRun))
           = [es'].
Proof.
  split; [reflexivity|].
  destruct (resolution_emits_one_update (H:=host false) desktopRun eq_refl) as (es' & Hes & _).
  exists es'. exact Hes.
Defined.

(** C3, as stated, fails: after a completed resolution a second call of
    [resolveComposition] changes the world and makes a further [update]. *)
Lemma second_resolution_is_not_absorbed :
  let w1 := resolveComposition (H:=host false) desktopRun in
  let w2 := resolveComposition (H:=host false) w1 in
  (resolved (session w1) = true ∧ stillComposing (session w1) = false
   ∧ textInputData (session w1) = "" ∧ formerTextInputData (session w1) = "")
  ∧ updatesOf (emittedBy w1 w2) ≠ []
  ∧ w2 ≠ w1.
Proof. vm_compute. split_and!; done. Qed.

Lemma resolution_after_completion_only_resets_witness :
  let w1 := resolveComposition (H:=host false) desktopRun in
  (resolved (session w1) = true ∧ stillComposing (session w1) = false
   ∧ textInputData (session w1) = "" ∧ formerTextInputData (session w1) = "")
  ∧ emittedBy w1 (resolveComposition (H:=host false) w1) =
      [restoreEditorDOM; exitCurrentMode; update (set_forcedReset (snapshot w1))].
Proof.
  intros w1. split; [by vm_compute|].
  exact (proj1 (resolution_after_completion_only_resets (H:=host false) w1
                  eq_refl eq_refl eq_refl eq_refl)).
Defined.

(** C4, as stated, fails: [compositionend], [compositionstart], then a
    second [compositionend]; when the first timer fires the composed "a" is
    inserted and the buffer is drained. *)
Lemma second_end_lets_first_timer_resolve :
  let w := onBeforeInput "a" (world "hello" 5 5 idle 5 5) in
  let w2 := run (H:=host false) w [CompositionEnd; CompositionStart "b"; CompositionEnd] in
  let w3 := step (H:=host false) w2 (TimerFires 1) in
  textInputData (session w2) = "a"
  ∧ (λ es, document (currentContent es)) <$> updatesOf (emittedBy w2 w3) = ["helloa"]
  ∧ textInputData (session w3) = "".
Proof. by vm_compute. Qed.

Lemma restart_before_timer_keeps_session_witness :
  let w := onBeforeInput "a" (world "hello" 5 5 idle 5 5) in
  let pre := [BeforeInput "b"; KeyPress 13] in
  let mid := [BeforeInput "c"; KeyDown 39; CompositionUpdate "c"] in
  let w2 :=
    run (H:=host true) w (CompositionEnd :: pre ++ CompositionStart "b" :: mid) in
  let w3 := step (H:=host true) w2 (TimerFires 1) in
  (timersIssued w ∧ forallb (λ e, negb (fires 1 e)) pre = true
   ∧ forallb quiet mid = true)
  ∧ emittedBy w2 w3 = [] ∧ session w3 = session w2
  ∧ textInputData (session w3) = "abc".
Proof.
  intros w pre mid w2 w3.
  assert (Hw : timersIssued w) by (split; [constructor|discriminate]).
  split; [by split_and!|].
  destruct (restart_before_timer_keeps_session (H:=host true) w pre "b" mid Hw
              eq_refl eq_refl) as (_ & _ & He & _ & Hs & Ht).
  split_and!; [exact He|exact Hs|exact Ht].
Defined.


(** C7, as stated, fails: the native selection has anchor 5 and focus 2, the
    model's anchor after the insertion is 9; the recorded selection after
    has anchor 2 and focus 5. *)
Lemma backward_native_selection_is_reordered :
  let w := androidBackwardRun in
  let recorded :=
    (λ es, selectionAfter (currentContent es))
      <$> updatesOf (emittedBy w (resolveComposition (H:=host true) w)) in
  dom_anchorOffset (domSelection w) = 5%Z
  ∧ dom_focusOffset (domSelection w) = 2%Z
  ∧ anchorOffset <$> recorded = [2%Z]
  ∧ focusOffset <$> recorded = [5%Z].
Proof. by vm_compute. Qed.

Lemma selection_remap_on_android_witness :
  let w := androidForwardRun in
  (stillComposing (session w) = false ∧ textInputData (session w) ≠ "")
  ∧ ∃ c, updatesOf (emittedBy w (resolveComposition (H:=host true) w))
         = [push (snapshot w) c insert_characters]
       ∧ anchorOffset (selectionAfter c) = 2%Z ∧ focusOffset (selectionAfter c) = 5%Z.
Proof.
  intros w. split; [by vm_compute|].
  destruct (selection_remap_on_android (H:=host true) w eq_refl eq_refl
              ltac:(discriminate)) as (c & Hu & Hremap & _).
  exists c. split; [exact Hu|].
  destruct (Hremap ltac:(by vm_compute)) as (_ & _ & _ & Hoff).
  exact (Hoff ltac:(by vm_compute)).
Defined.

Lemma editOnFocus_forces_selection_once_witness :
  hasFocus (selection (_latestEditorState blurred)) = false
  ∧ hostCalls (editOnFocus (H:=host false) blurred) =
      [props_onFocus;
       update (forceSelection (_latestEditorState blurred)
                 (mkSelection "b1" 3 "b1" 3 false true))]
  ∧ editOnFocus (H:=host false) (editorAt "hello" 0 3) = editorAt "hello" 0 3.
Proof.
  split; [reflexivity|].
  destruct (editOnFocus_forces_selection_once (H:=host false) blurred) as [_ Hb].
  destruct (editOnFocus_forces_selection_once (H:=host false) (editorAt "hello" 0 3))
    as [Hf _].
  split; [exact (proj1 (Hb eq_refl))|exact (Hf eq_refl)].
Defined.

End OneBlockRuns.

(** ** Further properties of rekeying *)

Section AnyTree.
Variable generateRandomKey : nat → Key.
Variable c : nat.
Variable m : list CBN.t.
Hypothesis Hkeys : NoDup (keysOf m).
Hypothesis Hproto : "__proto__" ∉ keysOf m.
Local Open Scope list_scope.

(** The key and the content of every entry stay as they are during the
    pass, whatever the links are. *)
Lemma pass_payload i :
  (i ≤ length m)%nat →
  ∃ s,
    visitAll generateRandomKey (mkPass m ∅ None c) (take i m) = Some s
    ∧ CBN.key <$> blockMapState s = keysOf m
    ∧ CBN.type <$> blockMapState s = CBN.type <$> m
    ∧ CBN.text <$> blockMapState s = CBN.text <$> m
    ∧ CBN.depth <$> blockMapState s = CBN.depth <$> m
    ∧ calls s = c + i
    ∧ (∀ j X, j < i → m !! j = Some X →
         newKeysRef s !! CBN.key X = Some (generateRandomKey (c + j)))
    ∧ ∀ k, CBN.key <$> lastRootBlock s = Some k →
        ∃ j X, j < i ∧ m !! j = Some X ∧ CBN.key X = k.
Proof.
  induction i as [|i IH]; intros Hle; simpl.
  { eexists. split; [done|]. simpl. split_and!; try done; try lia. }
  destruct (lookup_lt_is_Some_2 m i) as [Xi Hi]; [lia|].
  rewrite (take_S_r _ _ _ Hi), visitAll_app.
  destruct IH as (s & Hrun & Hk & Hty & Htx & Hd & Hc & Hrefs & Hlast); [lia|].
  rewrite Hrun. simpl.
  assert (Hnotproto : ∀ j X, m !! j = Some X → CBN.key X ≠ "__proto__").
  { intros j X HX Hkk. apply Hproto. rewrite <- Hkk. by eapply key_in_keysOf. }
  assert (Hnew : ∀ j X, j < S i → m !! j = Some X →
            <[CBN.key Xi := generateRandomKey (calls s)]> (newKeysRef s) !! CBN.key X
            = Some (generateRandomKey (c + j))).
  { intros j X Hj HX. destruct (decide (j = i)) as [->|Hne].
    - simplify_eq. by rewrite lookup_insert_eq, Hc.
    - rewrite lookup_insert_ne; [apply Hrefs; [lia|done]|].
      intros Hkk. apply Hne.
      assert (Hji : keysOf m !! j = Some (CBN.key X)) by by apply keysOf_lookup.
      assert (Hii : keysOf m !! i = Some (CBN.key Xi)) by by apply keysOf_lookup.
      rewrite <- Hkk in Hji. by apply (NoDup_lookup _ _ _ _ Hkeys Hji Hii). }
  destruct (visitBlock_blocks generateRandomKey s Xi)
    as (s' & Hrun' & Hst' & Hrefs' & Hc' & Hlr').
  { by rewrite Hk. }
  { rewrite Hk. by eapply key_in_keysOf. }
  { by apply (Hnotproto i Xi). }
  { intros L HL. destruct (Hlast (CBN.key L)) as (j & X & Hj & HX & Hkk).
    { by rewrite HL. }
    exists (generateRandomKey (c + j)). rewrite <- Hkk.
    apply obj_get_lookup; [by apply (Hnotproto j X)|]. apply Hnew; [lia|done]. }
  rewrite Hrun'. simpl. exists s'. split; [done|].
  rewrite Hst', Hrefs', Hc', Hc.
  assert (Hf : ∀ (A : Type) (f : CBN.t → A),
            (∀ keys block key refs l b,
               f (visitStep keys block key refs l b) = f b) →
            ∀ keys block key refs l (st : list CBN.t),
              f <$> (visitStep keys block key refs l <$> st) = f <$> st).
  { intros A f Hb keys block key refs l st. rewrite <- list_fmap_compose.
    apply list_fmap_ext. intros ? b _. apply Hb. }
  split_and!.
  - rewrite Hf; [done|]. intros. by apply visitStep_fields.
  - rewrite Hf; [done|]. intros. by apply visitStep_fields.
  - rewrite Hf; [done|]. intros. by apply visitStep_fields.
  - rewrite Hf; [done|]. intros. by apply visitStep_fields.
  - lia.
  - intros j X Hj HX. rewrite <- Hc. by apply Hnew.
  - intros k. rewrite Hlr'.
    destruct (linked (CBN.key <$> blockMapState s) (CBN.parent Xi)).
    + intros (j & X & Hj & HX & Hkk)%Hlast. exists j, X. split_and!; [lia|done|done].
    + intros [= <-]. exists i, Xi. split_and!; [lia|done|done].
Qed.

End AnyTree.

Lemma newKeys_shift (generateRandomKey : nat → Key) c n :
  newKey generateRandomKey c <$> seq 0 n = generateRandomKey <$> seq c n.
Proof.
  apply list_eq. intros i. rewrite !list_lookup_fmap.
  destruct (decide (i < n)).
  - by rewrite !lookup_seq_lt by done.
  - by rewrite !lookup_seq_ge by lia.
Qed.

(** X1: whatever the sibling, parent and child links of a tree block map
    are, dangling or inconsistent ones included, as long as no block is
    keyed ["__proto__"], rekeying returns as many blocks in the same order,
    each with its type, text and depth, the [j]-th under the [j]-th
    generated key; the generator is called once per block. *)
Theorem tree_rekey_keeps_blocks (generateRandomKey : nat → Key) (c : nat)
    (m : list CBN.t) :
  NoDup (keysOf m) →
  "__proto__" ∉ keysOf m →
  NoDup (generateRandomKey <$> seq c (length m)) →
  ∃ out,
    randomizeBlockMapKeys generateRandomKey c (Node <$> m)
    = Some (Node <$> out, c + length m)
    ∧ CBN.key <$> out = generateRandomKey <$> seq c (length m)
    ∧ CBN.type <$> out = CBN.type <$> m
    ∧ CBN.text <$> out = CBN.text <$> m
    ∧ CBN.depth <$> out = CBN.depth <$> m.
Proof.
  intros Hkeys Hproto Hnd.
  destruct (pass_payload generateRandomKey c m Hkeys Hproto (length m))
    as (s & Hpass & Hk & Hty & Htx & Hd & Hc & Hrefs & _); [done|].
  rewrite firstn_all in Hpass.
  set (entries := (λ block, CBN.set_key (default "" (newKeysRef s !! CBN.key block)) block)
                    <$> blockMapState s).
  assert (Hlen : length (blockMapState s) = length m).
  { rewrite <- (length_fmap CBN.key (blockMapState s)), Hk. apply length_fmap. }
  assert (Hkb : ∀ j X b, m !! j = Some X → blockMapState s !! j = Some b →
            CBN.key b = CBN.key X).
  { intros j X b Hj Hb.
    assert (Hl : (CBN.key <$> blockMapState s) !! j = Some (CBN.key b))
      by by rewrite list_lookup_fmap, Hb.
    rewrite Hk in Hl. rewrite (keysOf_lookup m j X Hj) in Hl. congruence. }
  assert (Hek : CBN.key <$> entries = generateRandomKey <$> seq c (length m)).
  { unfold entries. apply list_eq. intros j.
    rewrite !list_lookup_fmap.
    destruct (m !! j) as [X|] eqn:Hj.
    - assert (Hlt : j < length m) by by eapply lookup_lt_Some.
      destruct (lookup_lt_is_Some_2 (blockMapState s) j) as [b Hb]; [lia|].
      rewrite Hb, lookup_seq_lt by done. simpl. f_equal.
      rewrite (Hkb j X b Hj Hb).
      exact (f_equal (default "") (Hrefs j X Hlt Hj)).
    - apply lookup_ge_None in Hj.
      rewrite lookup_seq_ge by lia.
      by rewrite (proj2 (lookup_ge_None (blockMapState s) j)) by lia. }
  assert (Hrun : randomizeContentBlockNodeKeys generateRandomKey c m
                 = Some (entries, c + length m)).
  { unfold randomizeContentBlockNodeKeys. rewrite Hpass. simpl.
    rewrite mapM_rekeyEntry.
    - simpl. fold entries. rewrite OrderedMap_NoDup, Hc; [done|]. by rewrite Hek.
    - intros b [j Hb]%list_elem_of_lookup.
      destruct (lookup_lt_is_Some_2 m j) as [X Hj].
      { rewrite <- Hlen. by eapply lookup_lt_Some. }
      rewrite (Hkb j X b Hj Hb). split.
      + intros Hkk. apply Hproto. rewrite <- Hkk. by eapply key_in_keysOf.
      + exists (generateRandomKey (c + j)). apply Hrefs; [by eapply lookup_lt_Some|done]. }
  exists entries. split_and!.
  - by apply randomizeBlockMapKeys_nodes.
  - done.
  - unfold entries. rewrite <- list_fmap_compose. exact Hty.
  - unfold entries. rewrite <- list_fmap_compose. exact Htx.
  - unfold entries. rewrite <- list_fmap_compose. exact Hd.
Qed.

(** X2: the dispatch looks at the first block only.  On a map that is
    empty or starts with a flat block every record only gets a new key;
    a tree node further down keeps its links as they are. *)
Theorem flat_dispatch_on_first_block (generateRandomKey : nat → Key) (c : nat)
    (blockMap : BlockMap) :
  (∀ n rest, blockMap ≠ Node n :: rest) →
  NoDup (generateRandomKey <$> seq c (length blockMap)) →
  let keys := generateRandomKey <$> seq c (length blockMap) in
  randomizeBlockMapKeys generateRandomKey c blockMap
  = Some (zip_with record_set_key keys blockMap, c + length blockMap)
  ∧ ∀ j n, blockMap !! j = Some (Node n) →
      zip_with record_set_key keys blockMap !! j
      = Some (Node (CBN.set_key (generateRandomKey (c + j)) n)).
Proof.
  intros Hfirst Hnd keys.
  assert (Hlen : length keys = length blockMap).
  { unfold keys. by rewrite length_fmap, length_seq. }
  split.
  - assert (Hflat : randomizeBlockMapKeys generateRandomKey c blockMap
                    = Some (randomizeContentBlockKeys generateRandomKey c blockMap)).
    { destruct blockMap as [|[b|n] rest]; [done|done|]. by destruct (Hfirst n rest). }
    rewrite Hflat. unfold randomizeContentBlockKeys. rewrite rekeyEach_zip. fold keys.
    rewrite OrderedMap_NoDup; [done|]. by rewrite keys_of_zip.
  - intros j n Hj. rewrite lookup_zip_with. unfold keys.
    rewrite list_lookup_fmap, lookup_seq_lt by by eapply lookup_lt_Some.
    simpl. unfold BlockMap in *. by rewrite Hj.
Qed.

(** *** The rekeyed map of a well-formed map *)

Section Rekeyed.
Variable generateRandomKey : nat → Key.
Variable c : nat.
Variable m : list CBN.t.
Hypothesis Hwf : WellFormed m.
Hypothesis Hfresh : freshKeys generateRandomKey c (length m) (keysOf m).
Hypothesis Hproto : "__proto__" ∉ keysOf m.
Local Open Scope list_scope.

Local Abbreviation nk := (newKey generateRandomKey c).
Local Abbreviation n := (length m).
Local Abbreviation out := (rekeyed m generateRandomKey c).

Lemma newKeys_NoDup : NoDup (nk <$> seq 0 n).
Proof. rewrite newKeys_shift. apply Hfresh. Qed.

Lemma newKey_fresh x : x < n → nk x ∉ keysOf m.
Proof.
  intros Hx. destruct Hfresh as [_ Hf]. rewrite Forall_forall in Hf. apply Hf.
  apply list_elem_of_fmap. exists (c + x). split; [done|]. apply elem_of_seq. lia.
Qed.

Lemma newKey_inj x y : x < n → y < n → nk x = nk y → x = y.
Proof.
  intros Hx Hy Heq.
  apply (NoDup_lookup _ x y (nk x) newKeys_NoDup);
    rewrite list_lookup_fmap, lookup_seq_lt by done; simpl; congruence.
Qed.

Lemma rekeyed_run :
  randomizeBlockMapKeys generateRandomKey c (Node <$> m) = Some (Node <$> out, c + n).
Proof.
  apply randomizeBlockMapKeys_nodes.
  apply (tree_rekey_run m generateRandomKey c Hwf); [|done|].
  - intros x Hx. by apply newKey_fresh.
  - apply newKeys_NoDup.
Qed.

(** The block at place [j] of the rekeyed map. *)
Lemma rekeyed_lookup j X :
  m !! j = Some X →
  ∃ X', out !! j = Some X'
    ∧ CBN.key X' = nk j
    ∧ CBN.parent X' = nk <$> resolve m (CBN.parent X)
    ∧ CBN.nextSibling X'
      = match resolve m (CBN.nextSibling X) with
        | Some w => Some (nk w)
        | None => nk <$> chainNext m n j
        end
    ∧ CBN.prevSibling X'
      = match resolve m (CBN.prevSibling X) with
        | Some w => Some (nk w)
        | None => if isRootAt m j then nk <$> lastRootIdx m j else None
        end
    ∧ ((length (filter (λ d, d ∉ keysOf m) (CBN.children X)) ≤ 1)%nat →
         CBN.children X' = omap (newKeyFor m generateRandomKey c) (CBN.children X)).
Proof.
  intros Hj. eexists. split; [unfold rekeyed; by rewrite list_lookup_imap, Hj|].
  cbn [CBN.set_key blockAt CBN.key CBN.nextSibling CBN.prevSibling CBN.parent
       CBN.children].
  rewrite (nextAt_end generateRandomKey c m j X Hj),
    (prevAt_end generateRandomKey c m j X Hj),
    (parentAt_end generateRandomKey c m j X Hj).
  split_and!; try done. intros Hone. by apply childrenAt_end.
Qed.

Lemma rekeyed_lookup_inv j X' : out !! j = Some X' → ∃ X, m !! j = Some X.
Proof.
  unfold rekeyed. rewrite list_lookup_imap. destruct (m !! j); [eauto|done].
Qed.

Lemma keysOf_rekeyed : keysOf out = nk <$> seq 0 n.
Proof.
  unfold keysOf, rekeyed. apply list_eq. intros j.
  rewrite !list_lookup_fmap, list_lookup_imap.
  destruct (m !! j) as [X|] eqn:Hj; simpl.
  - by rewrite lookup_seq_lt by by eapply lookup_lt_Some.
  - rewrite lookup_seq_ge; [done|]. by apply lookup_ge_None.
Qed.

Lemma newKey_elem x : x < n → nk x ∈ keysOf out.
Proof.
  intros Hx. rewrite keysOf_rekeyed. apply list_elem_of_fmap.
  exists x. split; [done|]. apply elem_of_seq. lia.
Qed.

Lemma newKeyFor_elem k v : newKeyFor m generateRandomKey c k = Some v → v ∈ keysOf out.
Proof.
  unfold newKeyFor. destruct (indexOf k (keysOf m)) as [x|] eqn:Hx; [|done].
  intros [= <-]. apply newKey_elem.
  apply indexOf_Some, lookup_lt_Some in Hx. unfold keysOf in Hx.
  by rewrite length_fmap in Hx.
Qed.

Lemma lastRootIdx_ge i k :
  isRootAt m i = true → i < k → ∃ l, lastRootIdx m k = Some l ∧ (i ≤ l)%nat.
Proof.
  intros Hr. induction k as [|k IH]; [lia|]. intros Hlt. simpl.
  destruct (decide (i = k)) as [->|Hne].
  - rewrite Hr. eauto.
  - destruct (isRootAt m k); [exists k; split; [done|lia]|]. apply IH. lia.
Qed.

(** The root that found the root at [l] as [lastRootBlock] is the next root
    after [l]. *)
Lemma chainNext_found l i k :
  isRootAt m i = true → lastRootIdx m i = Some l → i < k → chainNext m k l = Some i.
Proof.
  intros Hr Hl. induction k as [|k IH]; [lia|]. intros Hlt. simpl.
  destruct (decide (i = k)) as [->|Hne].
  - by rewrite Hr, bool_decide_eq_true_2.
  - destruct (isRootAt m k) eqn:Hk; simpl; [|apply IH; lia].
    rewrite bool_decide_eq_false_2; [apply IH; lia|].
    intros Hlk. destruct (lastRootIdx_ge i k Hr) as (l' & Hl' & Hle); [lia|].
    apply lastRootIdx_lt in Hl as [Hlt' _]. simplify_eq. lia.
Qed.

(** The last root before [i] is the root [l] when no root lies between. *)
Lemma lastRootIdx_found l i :
  l < i → isRootAt m l = true → (∀ j, l < j < i → isRootAt m j = false) →
  lastRootIdx m i = Some l.
Proof.
  induction i as [|i IH]; [lia|]. intros Hlt Hr Hno. simpl.
  destruct (decide (l = i)) as [->|Hne]; [by rewrite Hr|].
  rewrite (Hno i) by lia. apply IH; [lia|done|]. intros j Hj. apply Hno. lia.
Qed.

End Rekeyed.

(** X3: on a well-formed tree block map in which no block is keyed
    ["__proto__"], with fresh keys, no sibling or parent link of the output
    names a key that is not a key of the output,
    and neither does any entry of a children list that had at most one
    entry outside the input. *)
Theorem rekeyed_links_stay_inside (generateRandomKey : nat → Key) (c : nat)
    (m : list CBN.t) :
  wellFormed m = true →
  "__proto__" ∉ keysOf m →
  freshKeys generateRandomKey c (length m) (keysOf m) →
  ∃ out,
    randomizeBlockMapKeys generateRandomKey c (Node <$> m)
    = Some (Node <$> out, c + length m)
    ∧ ∀ j X X', m !! j = Some X → out !! j = Some X' →
        (∀ k, CBN.nextSibling X' = Some k → k ∈ keysOf out)
        ∧ (∀ k, CBN.prevSibling X' = Some k → k ∈ keysOf out)
        ∧ (∀ k, CBN.parent X' = Some k → k ∈ keysOf out)
        ∧ ((length (filter (λ d, d ∉ keysOf m) (CBN.children X)) ≤ 1)%nat →
             ∀ k, k ∈ CBN.children X' → k ∈ keysOf out).
Proof.
  intros Hwf%wellFormed_sound Hproto Hfresh.
  exists (rekeyed m generateRandomKey c). split; [by apply rekeyed_run|].
  intros j X X' Hj Hout.
  destruct (rekeyed_lookup generateRandomKey c m j X Hj)
    as (X'' & Hout' & _ & Hpa & Hn & Hp & Hch).
  assert (X'' = X') as -> by congruence.
  assert (Hin : ∀ x, x < length m → newKey generateRandomKey c x
                                   ∈ keysOf (rekeyed m generateRandomKey c)).
  { intros x Hx. by apply newKey_elem. }
  split_and!.
  - intros k. rewrite Hn.
    destruct (resolve m (CBN.nextSibling X)) as [w|] eqn:Hr.
    + intros [= <-]. apply Hin. by eapply resolve_lt.
    + destruct (chainNext m (length m) j) as [z|] eqn:Hz; [|done].
      intros [= <-]. apply Hin. apply chainNext_lt in Hz. lia.
  - intros k. rewrite Hp.
    destruct (resolve m (CBN.prevSibling X)) as [w|] eqn:Hr.
    + intros [= <-]. apply Hin. by eapply resolve_lt.
    + destruct (isRootAt m j); [|done].
      destruct (lastRootIdx m j) as [l|] eqn:Hl; [|done].
      intros [= <-]. apply Hin. apply lastRootIdx_lt in Hl as [Hl _].
      apply lookup_lt_Some in Hj. lia.
  - intros k. rewrite Hpa.
    destruct (resolve m (CBN.parent X)) as [w|] eqn:Hr; [|done].
    intros [= <-]. apply Hin. by eapply resolve_lt.
  - intros Hone k. rewrite (Hch Hone).
    intros (d & _ & Hd)%list_elem_of_omap. by eapply newKeyFor_elem.
Qed.

(** X4: in the output for a well-formed tree block map in which no block
    is keyed ["__proto__"] the blocks without parent form one chain in map
    order: of two such blocks with none
    between them, the first names the second as next sibling and the second
    names the first as previous sibling, whatever their sibling links were
    in the input. *)
Theorem rekeyed_roots_are_chained (generateRandomKey : nat → Key) (c : nat)
    (m : list CBN.t) :
  wellFormed m = true →
  "__proto__" ∉ keysOf m →
  freshKeys generateRandomKey c (length m) (keysOf m) →
  ∃ out,
    randomizeBlockMapKeys generateRandomKey c (Node <$> m)
    = Some (Node <$> out, c + length m)
    ∧ ∀ l i L' X', l < i → out !! l = Some L' → out !! i = Some X' →
        CBN.parent L' = None → CBN.parent X' = None →
        (∀ j Y', l < j < i → out !! j = Some Y' → CBN.parent Y' ≠ None) →
        CBN.nextSibling L' = Some (CBN.key X')
        ∧ CBN.prevSibling X' = Some (CBN.key L').
Proof.
  intros Hwf%wellFormed_sound Hproto Hfresh.
  exists (rekeyed m generateRandomKey c). split; [by apply rekeyed_run|].
  assert (Hroot : ∀ j Y', rekeyed m generateRandomKey c !! j = Some Y' →
            CBN.parent Y' = None ↔ isRootAt m j = true).
  { intros j Y' Hout. destruct (rekeyed_lookup_inv generateRandomKey c m j Y' Hout) as [Y Hj].
    destruct (rekeyed_lookup generateRandomKey c m j Y Hj) as (Y'' & Hout' & _ & Hpa & _).
    assert (Y'' = Y') as -> by congruence.
    rewrite Hpa, (isRootAt_iff m j Y Hj). by destruct (resolve m (CBN.parent Y)). }
  intros l i L' X' Hlt HL' HX' HpL HpX Hbetween.
  destruct (rekeyed_lookup_inv generateRandomKey c m l L' HL') as [L Hl].
  destruct (rekeyed_lookup_inv generateRandomKey c m i X' HX') as [X Hi].
  destruct (rekeyed_lookup generateRandomKey c m l L Hl) as (L'' & HL'' & HkL & _ & HnL & _).
  destruct (rekeyed_lookup generateRandomKey c m i X Hi) as (X'' & HX'' & HkX & _ & _ & HpX' & _).
  assert (L'' = L') as -> by congruence.
  assert (X'' = X') as -> by congruence.
  assert (Hrl : isRootAt m l = true) by by apply (Hroot l L').
  assert (Hri : isRootAt m i = true) by by apply (Hroot i X').
  assert (Hlast : lastRootIdx m i = Some l).
  { apply lastRootIdx_found; [done|done|]. intros j Hj.
    apply not_true_is_false. intros Hrj.
    destruct (isRootAt_lookup m j Hrj) as [Y HY].
    destruct (rekeyed_lookup generateRandomKey c m j Y HY) as (Y' & HY' & _).
    apply (Hbetween j Y' Hj HY'). by apply (Hroot j Y'). }
  rewrite HkL, HkX, HnL, HpX'. split.
  - destruct (wf_chain_next m Hwf i l L Hl Hri Hlast) as [-> | ->]; [|done].
    rewrite (chainNext_found m l i (length m) Hri Hlast); [done|].
    by eapply lookup_lt_Some.
  - destruct (wf_chain_prev m Hwf i l X Hi Hri Hlast) as [-> | ->]; [|done].
    by rewrite Hri, Hlast.
Qed.

(** *** Whole documents *)

Section WholeDocument.
Variable generateRandomKey : nat → Key.
Variable c : nat.
Variable m : list CBN.t.
Hypothesis Hwf : WellFormed m.
Local Open Scope list_scope.

Local Abbreviation nk := (newKey generateRandomKey c).
Local Abbreviation rename := (newKeyFor m generateRandomKey c).

Lemma newKeyFor_key j X : m !! j = Some X → rename (CBN.key X) = Some (nk j).
Proof. intros Hj. unfold newKeyFor. by rewrite (place_of m Hwf j X Hj). Qed.

Lemma link_relabel (o : option Key) : inside m o = true → nk <$> resolve m o = o ≫= rename.
Proof.
  intros [-> |Hr]%bool_decide_eq_true; [done|].
  destruct (resolve m o) as [w|] eqn:Hw; [|done].
  destruct (resolve_Some m o w Hw) as (Y & HY & -> & _). simpl.
  by rewrite (newKeyFor_key w Y HY).
Qed.

Lemma inside_None (o : option Key) : inside m o = true → resolve m o = None → o = None.
Proof. by intros [-> |Hr]%bool_decide_eq_true. Qed.

Lemma rekeyed_whole :
  forallb (λ iX, whole_block m iX.1 iX.2) (imap pair m) = true →
  rekeyed m generateRandomKey c = relabel rename <$> m.
Proof.
  intros Hwhole. unfold rekeyed. apply list_eq. intros j.
  rewrite list_lookup_imap, list_lookup_fmap.
  destruct (m !! j) as [X|] eqn:Hj; [|done]. simpl. f_equal.
  pose proof (forallb_imap_lookup _ _ j X Hwhole Hj) as HX. simpl in HX.
  unfold whole_block in HX. rewrite !andb_true_iff in HX.
  destruct HX as [[[[Hpa Hn] Hp] Hch] Hroot].
  unfold relabel, CBN.set_key, blockAt. simpl.
  rewrite (newKeyFor_key j X Hj). simpl. f_equal.
  - rewrite (parentAt_end generateRandomKey c m j X Hj). by apply link_relabel.
  - rewrite (childrenAt_end generateRandomKey c m j X Hj); [done|].
    assert (filter (λ d, d ∉ keysOf m) (CBN.children X) = []) as ->; [|simpl; lia].
    apply elem_of_nil_inv. intros d [Hout Hd]%list_elem_of_filter.
    rewrite forallb_forall in Hch. apply list_elem_of_In, Hch in Hd.
    by apply bool_decide_eq_true in Hd.
  - rewrite (prevAt_end generateRandomKey c m j X Hj).
    destruct (resolve m (CBN.prevSibling X)) as [w|] eqn:Hr.
    + rewrite <- (link_relabel _ Hp). by rewrite Hr.
    + rewrite (inside_None _ Hp Hr). simpl.
      destruct (isRootAt m j); [|done].
      destruct (lastRootIdx m j) as [l|]; [|done].
      apply andb_true_iff in Hroot as [Hl%bool_decide_eq_true _]. congruence.
  - rewrite (nextAt_end generateRandomKey c m j X Hj).
    destruct (resolve m (CBN.nextSibling X)) as [w|] eqn:Hr.
    + rewrite <- (link_relabel _ Hn). by rewrite Hr.
    + rewrite (inside_None _ Hn Hr). simpl.
      destruct (chainNext m (length m) j) as [z|] eqn:Hz; [|done].
      apply chainNext_lt in Hz as (_ & _ & Hrz & Hlz).
      destruct (isRootAt_lookup m z Hrz) as [Z HZ].
      pose proof (forallb_imap_lookup _ _ z Z Hwhole HZ) as HZ'. simpl in HZ'.
      unfold whole_block in HZ'. rewrite !andb_true_iff in HZ'.
      destruct HZ' as [_ HZ']. rewrite Hrz, Hlz, Hj in HZ'.
      apply andb_true_iff in HZ' as [_ Hnz%bool_decide_eq_true]. congruence.
Qed.

End WholeDocument.

(** X5: rekeying a whole document is a renaming.  When the tree block map
    is well formed, no block is keyed ["__proto__"], no link leads outside
    the map and every root is linked with the root before it, the output is the input with every key, in the key
    field as in the parent, sibling and children fields, replaced by the key
    generated for it. *)
Theorem whole_document_rekey_is_renaming (generateRandomKey : nat → Key) (c : nat)
    (m : list CBN.t) :
  wholeDocument m = true →
  "__proto__" ∉ keysOf m →
  freshKeys generateRandomKey c (length m) (keysOf m) →
  randomizeBlockMapKeys generateRandomKey c (Node <$> m)
  = Some (Node <$> (relabel (newKeyFor m generateRandomKey c) <$> m), c + length m).
Proof.
  unfold wholeDocument.
  intros [Hwf%wellFormed_sound Hwhole]%andb_true_iff Hproto Hfresh.
  rewrite <- (rekeyed_whole generateRandomKey c m Hwf Hwhole).
  by apply rekeyed_run.
Qed.

(** *** Rekeying keeps a map well formed *)

Section RekeyedShape.
Variable generateRandomKey : nat → Key.
Variable c : nat.
Variable m : list CBN.t.
Hypothesis Hwf : WellFormed m.
Hypothesis Hfresh : freshKeys generateRandomKey c (length m) (keysOf m).
Hypothesis Hne : ∀ x, x < length m → generateRandomKey (c + x) ≠ "".
Hypothesis Hkids : ∀ j X, m !! j = Some X →
  (length (filter (λ d, d ∉ keysOf m) (CBN.children X)) ≤ 1)%nat.
Local Open Scope list_scope.

Local Abbreviation nk := (newKey generateRandomKey c).
Local Abbreviation n := (length m).
Local Abbreviation out := (rekeyed m generateRandomKey c).

Implicit Types (X Y : CBN.t) (i j w l : nat).

Lemma resolve_out_new x : x < n → resolve out (Some (nk x)) = Some x.
Proof.
  intros Hx. unfold resolve, linked. simpl.
  assert (truthy (nk x) = true) as ->.
  { apply bool_decide_eq_true. by apply Hne. }
  rewrite (bool_decide_eq_true_2 _ (newKey_elem generateRandomKey c m x Hx)). simpl.
  rewrite keysOf_rekeyed. apply indexOf_NoDup.
  - by apply newKeys_NoDup.
  - by rewrite list_lookup_fmap, lookup_seq_lt by done.
Qed.

Lemma resolve_out_fmap (o : option nat) :
  (∀ x, o = Some x → x < n) → resolve out (nk <$> o) = o.
Proof. destruct o as [x|]; intros Hx; [|done]. apply resolve_out_new. by apply Hx. Qed.

Lemma rekeyed_places j X :
  m !! j = Some X →
  ∃ X', out !! j = Some X'
    ∧ CBN.key X' = nk j
    ∧ resolve out (CBN.parent X') = resolve m (CBN.parent X)
    ∧ resolve out (CBN.nextSibling X') = nextPlace m j X
    ∧ resolve out (CBN.prevSibling X') = prevPlace m j X
    ∧ CBN.children X' = omap (newKeyFor m generateRandomKey c) (CBN.children X)
    ∧ CBN.parent X' ≠ Some "" ∧ CBN.nextSibling X' ≠ Some ""
    ∧ CBN.prevSibling X' ≠ Some "".
Proof.
  intros Hj.
  destruct (rekeyed_lookup generateRandomKey c m j X Hj)
    as (X' & Hout & Hk & Hpa & Hn & Hp & Hch).
  assert (Hlt : j < n) by by eapply lookup_lt_Some.
  assert (Hsome : ∀ x, x < n → Some (nk x) ≠ Some "").
  { intros x Hx [= Hk']. by apply (Hne x Hx). }
  exists X'. rewrite Hpa, Hn, Hp. unfold nextPlace, prevPlace.
  split_and!; try done.
  - apply resolve_out_fmap. intros x Hx. by eapply resolve_lt.
  - destruct (resolve m (CBN.nextSibling X)) as [w|] eqn:Hr.
    + apply resolve_out_new. by eapply resolve_lt.
    + apply resolve_out_fmap. intros z Hz%chainNext_lt. lia.
  - destruct (resolve m (CBN.prevSibling X)) as [w|] eqn:Hr.
    + apply resolve_out_new. by eapply resolve_lt.
    + destruct (isRootAt m j); [|done].
      apply resolve_out_fmap. intros l Hl%lastRootIdx_lt. lia.
  - by apply Hch, (Hkids j X).
  - destruct (resolve m (CBN.parent X)) as [w|] eqn:Hr; [|done].
    apply Hsome. by eapply resolve_lt.
  - destruct (resolve m (CBN.nextSibling X)) as [w|] eqn:Hr.
    + apply Hsome. by eapply resolve_lt.
    + destruct (chainNext m n j) as [z|] eqn:Hz; [|done].
      apply Hsome. apply chainNext_lt in Hz. lia.
  - destruct (resolve m (CBN.prevSibling X)) as [w|] eqn:Hr.
    + apply Hsome. by eapply resolve_lt.
    + destruct (isRootAt m j); [|done].
      destruct (lastRootIdx m j) as [l|] eqn:Hl; [|done].
      apply Hsome. apply lastRootIdx_lt in Hl. lia.
Qed.

Lemma rekeyed_place j X' :
  out !! j = Some X' →
  ∃ X, m !! j = Some X
    ∧ CBN.key X' = nk j
    ∧ resolve out (CBN.parent X') = resolve m (CBN.parent X)
    ∧ resolve out (CBN.nextSibling X') = nextPlace m j X
    ∧ resolve out (CBN.prevSibling X') = prevPlace m j X
    ∧ CBN.children X' = omap (newKeyFor m generateRandomKey c) (CBN.children X)
    ∧ CBN.parent X' ≠ Some "" ∧ CBN.nextSibling X' ≠ Some ""
    ∧ CBN.prevSibling X' ≠ Some "".
Proof.
  intros Hout. destruct (rekeyed_lookup_inv generateRandomKey c m j X' Hout) as [X Hj].
  destruct (rekeyed_places j X Hj) as (X'' & Hout' & H').
  assert (X'' = X') as -> by congruence. eauto.
Qed.

Lemma isRootAt_rekeyed j : isRootAt out j = isRootAt m j.
Proof.
  unfold isRootAt at 1. destruct (out !! j) as [X'|] eqn:Hout.
  - destruct (rekeyed_place j X' Hout) as (X & Hj & _ & Hpa & _).
    rewrite Hpa. unfold isRootAt. by rewrite Hj.
  - unfold isRootAt. unfold rekeyed in Hout. rewrite list_lookup_imap in Hout.
    by destruct (m !! j).
Qed.

Lemma lastRootIdx_rekeyed i : lastRootIdx out i = lastRootIdx m i.
Proof. induction i as [|i IH]; [done|]. simpl. by rewrite isRootAt_rekeyed, IH. Qed.

Lemma newKeyFor_place j X k :
  m !! j = Some X →
  newKeyFor m generateRandomKey c k = Some (nk j) ↔ k = CBN.key X.
Proof.
  intros Hj. unfold newKeyFor. split.
  - destruct (indexOf k (keysOf m)) as [x|] eqn:Hx; [|done]. intros [= Heq].
    apply indexOf_Some in Hx.
    assert (x < n).
    { apply lookup_lt_Some in Hx. unfold keysOf in Hx. by rewrite length_fmap in Hx. }
    apply (newKey_inj generateRandomKey c m Hfresh) in Heq; [|done|by eapply lookup_lt_Some].
    subst x. rewrite (keysOf_lookup m j X Hj) in Hx. congruence.
  - intros ->. by rewrite (place_of m Hwf j X Hj).
Qed.

Lemma newKeyFor_NoDup (l : list Key) :
  NoDup l → NoDup (omap (newKeyFor m generateRandomKey c) l).
Proof.
  induction 1 as [|k l Hk Hnd IH]; [constructor|]. cbn [omap list_omap].
  destruct (newKeyFor m generateRandomKey c k) as [v|] eqn:Hv; [|done].
  constructor; [|done]. intros (k' & Hk' & Hv')%list_elem_of_omap.
  unfold newKeyFor in Hv, Hv'.
  destruct (indexOf k (keysOf m)) as [x|] eqn:Hx; [|done].
  destruct (indexOf k' (keysOf m)) as [x'|] eqn:Hx'; [|done].
  simplify_eq/=. apply indexOf_Some in Hx, Hx'.
  assert (x' = x).
  { apply (newKey_inj generateRandomKey c m Hfresh); [| |done].
    - apply lookup_lt_Some in Hx'. unfold keysOf in Hx'. by rewrite length_fmap in Hx'.
    - apply lookup_lt_Some in Hx. unfold keysOf in Hx. by rewrite length_fmap in Hx. }
  subst x'. congruence.
Qed.

Lemma rekeyed_WellFormed : WellFormed out.
Proof.
  split.
  - rewrite keysOf_rekeyed. by apply newKeys_NoDup.
  - intros j X' Hout. destruct (rekeyed_place j X' Hout) as (X & _ & _ & _ & _ & _ & _ & ? & ? & ?).
    done.
  - intros j X' Hout. destruct (rekeyed_place j X' Hout) as (X & Hj & _ & _ & _ & _ & -> & _).
    apply newKeyFor_NoDup. by apply (wf_children m Hwf j X).
  - intros j w X' Y' HX' HY'.
    destruct (rekeyed_place j X' HX') as (X & Hj & _ & _ & -> & _).
    destruct (rekeyed_place w Y' HY') as (Y & Hw & _ & _ & _ & -> & _).
    unfold nextPlace, prevPlace. split.
    + destruct (resolve m (CBN.nextSibling X)) as [w'|] eqn:Hr.
      * intros [= ->]. by rewrite (proj1 (wf_siblings m Hwf j w X Y Hj Hw) Hr).
      * intros (_ & _ & Hrw & Hl)%chainNext_lt.
        destruct (wf_chain_prev m Hwf w j Y Hw Hrw Hl) as [-> | ->]; [|done].
        by rewrite Hrw.
    + destruct (resolve m (CBN.prevSibling Y)) as [j'|] eqn:Hr.
      * intros [= ->]. by rewrite (proj2 (wf_siblings m Hwf j w X Y Hj Hw) Hr).
      * destruct (isRootAt m w) eqn:Hrw; [|done]. intros Hl.
        destruct (wf_chain_next m Hwf w j X Hj Hrw Hl) as [-> | ->]; [|done].
        apply chainNext_found; [done|done|by eapply lookup_lt_Some].
  - intros j w X' Y' HX' HY'.
    destruct (rekeyed_place j X' HX') as (X & Hj & -> & -> & _).
    destruct (rekeyed_place w Y' HY') as (Y & Hw & _ & _ & _ & _ & -> & _).
    rewrite (wf_parent m Hwf j w X Y Hj Hw), list_elem_of_omap. split.
    + intros Hin. exists (CBN.key X). split; [done|]. by apply (newKeyFor_place j X).
    + intros (k & Hin & Hk). apply (newKeyFor_place j X k Hj) in Hk. by subst k.
  - intros j w X' HX'.
    destruct (rekeyed_place j X' HX') as (X & Hj & _ & -> & _).
    by apply (wf_order m Hwf j w X).
  - intros i l X' HX'. rewrite isRootAt_rekeyed, lastRootIdx_rekeyed. intros Hri Hl.
    destruct (rekeyed_place i X' HX') as (X & Hi & _ & _ & _ & -> & _).
    unfold prevPlace. rewrite Hri, Hl.
    destruct (wf_chain_prev m Hwf i l X Hi Hri Hl) as [-> | ->]; by right.
  - intros i l L' HL'. rewrite isRootAt_rekeyed, lastRootIdx_rekeyed. intros Hri Hl.
    destruct (rekeyed_place l L' HL') as (L & Hll & _ & _ & -> & _).
    unfold nextPlace. right.
    destruct (wf_chain_next m Hwf i l L Hll Hri Hl) as [-> | ->]; [|done].
    apply chainNext_found; [done|done|].
    destruct (isRootAt_lookup m i Hri) as [X HX]. by eapply lookup_lt_Some.
Qed.

Lemma link_inside (p : option nat) :
  (∀ x, p = Some x → x < n) → inside out (nk <$> p) = true.
Proof.
  intros Hp. apply bool_decide_eq_true. destruct p as [x|]; [right|by left].
  simpl. rewrite resolve_out_new by by apply Hp. done.
Qed.

Lemma rekeyed_whole_blocks :
  forallb (λ iX, whole_block out iX.1 iX.2) (imap pair out) = true.
Proof.
  apply forallb_forall. intros [i X'] Hin%list_elem_of_In%list_elem_of_lookup.
  destruct Hin as [i' Hin]. rewrite list_lookup_imap in Hin.
  destruct (out !! i') as [X''|] eqn:Hout; [|done]. simplify_eq/=.
  destruct (rekeyed_lookup_inv generateRandomKey c m i X' Hout) as [X Hi].
  destruct (rekeyed_lookup generateRandomKey c m i X Hi)
    as (X'' & Hout' & _ & Hpa & Hn & Hp & Hch).
  assert (X'' = X') as -> by congruence.
  destruct (rekeyed_places i X Hi) as (X'' & Hout'' & _ & _ & _ & Hpp & _).
  assert (X'' = X') as -> by congruence.
  assert (Hlt : i < n) by by eapply lookup_lt_Some.
  unfold whole_block. rewrite !andb_true_iff. split_and!.
  - rewrite Hpa. apply link_inside. intros x Hx. by eapply resolve_lt.
  - rewrite Hn. destruct (resolve m (CBN.nextSibling X)) as [w|] eqn:Hr.
    + apply (link_inside (Some w)). intros x [= <-]. by eapply resolve_lt.
    + apply link_inside. intros z Hz%chainNext_lt. lia.
  - rewrite Hp. destruct (resolve m (CBN.prevSibling X)) as [w|] eqn:Hr.
    + apply (link_inside (Some w)). intros x [= <-]. by eapply resolve_lt.
    + destruct (isRootAt m i); [|by apply (link_inside None)].
      apply link_inside. intros l Hl%lastRootIdx_lt. lia.
  - apply forallb_forall. intros d Hd%list_elem_of_In. apply bool_decide_eq_true.
    rewrite (Hch (Hkids i X Hi)) in Hd.
    apply list_elem_of_omap in Hd as (k & _ & Hk). by eapply newKeyFor_elem.
  - rewrite isRootAt_rekeyed, lastRootIdx_rekeyed.
    destruct (isRootAt m i) eqn:Hri; [|done].
    destruct (lastRootIdx m i) as [l|] eqn:Hl; [|done].
    apply andb_true_iff. split.
    + apply bool_decide_eq_true. rewrite Hpp. unfold prevPlace. rewrite Hri, Hl.
      by destruct (wf_chain_prev m Hwf i l X Hi Hri Hl) as [-> | ->].
    + destruct (out !! l) as [L'|] eqn:HL'; [|done].
      apply bool_decide_eq_true.
      destruct (rekeyed_place l L' HL') as (L & Hll & _ & _ & -> & _).
      unfold nextPlace.
      destruct (wf_chain_next m Hwf i l L Hll Hri Hl) as [-> | ->]; [|done].
      by apply chainNext_found.
Qed.

End RekeyedShape.

(** *** The checker of well-formedness is complete *)

Lemma wellFormed_complete (m : list CBN.t) : WellFormed m → wellFormed m = true.
Proof.
  intros Hwf. unfold wellFormed. rewrite !andb_true_iff. split_and!.
  - apply bool_decide_eq_true, (wf_keys m Hwf).
  - apply forallb_forall. intros X [j Hj]%list_elem_of_In%list_elem_of_lookup.
    unfold wf_block. rewrite !andb_true_iff, !bool_decide_eq_true.
    destruct (wf_links m Hwf j X Hj) as (? & ? & ?).
    split_and!; try done. by apply (wf_children m Hwf j X).
  - apply forallb_forall. intros [j X] [j' Hj]%list_elem_of_In%list_elem_of_lookup.
    rewrite list_lookup_imap in Hj. destruct (m !! j') as [X'|] eqn:HX; [|done].
    simplify_eq/=.
    apply forallb_forall. intros [w Y] [w' Hw]%list_elem_of_In%list_elem_of_lookup.
    rewrite list_lookup_imap in Hw. destruct (m !! w') as [Y'|] eqn:HY; [|done].
    simplify_eq/=.
    unfold wf_pair. rewrite !andb_true_iff, !bool_decide_eq_true. split_and!.
    + by apply (wf_siblings m Hwf).
    + by apply (wf_parent m Hwf j w X Y).
    + by apply (wf_order m Hwf j w X).
  - apply forallb_forall. intros [i X] [i' Hi]%list_elem_of_In%list_elem_of_lookup.
    rewrite list_lookup_imap in Hi. destruct (m !! i') as [X'|] eqn:HX; [|done].
    simplify_eq/=. unfold wf_chain.
    destruct (isRootAt m i) eqn:Hri; [|done].
    destruct (lastRootIdx m i) as [l|] eqn:Hl; [|done].
    apply andb_true_iff. split.
    + apply bool_decide_eq_true. by apply (wf_chain_prev m Hwf i l X).
    + destruct (m !! l) as [L|] eqn:HL; [|done].
      apply bool_decide_eq_true. by apply (wf_chain_next m Hwf i l L).
Qed.

Lemma freshKeys_halves (generateRandomKey : nat → Key) c n (old : list Key) :
  freshKeys generateRandomKey c (n + n) old →
  freshKeys generateRandomKey c n old
  ∧ freshKeys generateRandomKey (c + n) n (generateRandomKey <$> seq c n).
Proof.
  unfold freshKeys. rewrite seq_app, fmap_app, Forall_app.
  intros [(Hnd1 & Hdis & Hnd2)%NoDup_app [Hf1 Hf2]]. split_and!; try done.
  apply Forall_forall. intros k Hk Hk'. by apply (Hdis k).
Qed.

(** X6: rekeying a well-formed tree block map gives a whole document.  When
    the input is well formed, no block is keyed ["__proto__"], no children
    list has more than one entry outside the map, and the generated keys
    are fresh and not empty, the
    output is well formed again (unique keys, no empty link, no child
    listed twice, sibling links mutual, parent links and children lists in
    agreement with the parent first), none of its links leads outside it,
    and its roots are linked with one another in map order. *)
Theorem rekeying_gives_whole_document (generateRandomKey : nat → Key) (c : nat)
    (m : list CBN.t) :
  wellFormed m = true →
  "__proto__" ∉ keysOf m →
  freshKeys generateRandomKey c (length m) (keysOf m) →
  (∀ x, x < length m → generateRandomKey (c + x) ≠ "") →
  (∀ j X, m !! j = Some X →
     (length (filter (λ d, d ∉ keysOf m) (CBN.children X)) ≤ 1)%nat) →
  ∃ out,
    randomizeBlockMapKeys generateRandomKey c (Node <$> m)
    = Some (Node <$> out, c + length m)
    ∧ WellFormed out
    ∧ wholeDocument out = true.
Proof.
  intros Hwf%wellFormed_sound Hproto Hfresh Hne Hkids.
  exists (rekeyed m generateRandomKey c).
  pose proof (rekeyed_WellFormed generateRandomKey c m Hwf Hfresh Hne Hkids) as Hwf'.
  split_and!; [by apply rekeyed_run|done|].
  unfold wholeDocument. rewrite (wellFormed_complete _ Hwf'). simpl.
  by apply rekeyed_whole_blocks.
Qed.

(** X7: a second rekeying only renames.  Under the conditions of the
    theorem before, with the keys of both passes fresh and none of them
    ["__proto__"], rekeying the output of a rekeying returns that output
    with every key replaced by the key generated for it in the second
    pass. *)
Theorem rekeying_twice_renames (generateRandomKey : nat → Key) (c : nat)
    (m : list CBN.t) :
  wellFormed m = true →
  "__proto__" ∉ keysOf m →
  freshKeys generateRandomKey c (length m + length m) (keysOf m) →
  (∀ x, x < length m → generateRandomKey (c + x) ≠ "") →
  (∀ x, x < length m → generateRandomKey (c + x) ≠ "__proto__") →
  (∀ j X, m !! j = Some X →
     (length (filter (λ d, d ∉ keysOf m) (CBN.children X)) ≤ 1)%nat) →
  ∃ out,
    randomizeBlockMapKeys generateRandomKey c (Node <$> m)
    = Some (Node <$> out, c + length m)
    ∧ randomizeBlockMapKeys generateRandomKey (c + length m) (Node <$> out)
      = Some (Node <$> (relabel (newKeyFor out generateRandomKey (c + length m))
                          <$> out),
              c + length m + length m).
Proof.
  intros Hwf%wellFormed_sound Hproto [Hfresh Hfresh2]%freshKeys_halves Hne Hproto2 Hkids.
  set (out := rekeyed m generateRandomKey c).
  assert (Hlen : length out = length m) by (unfold out, rekeyed; by rewrite length_imap).
  exists out. split; [by apply rekeyed_run|].
  pose proof (rekeyed_WellFormed generateRandomKey c m Hwf Hfresh Hne Hkids) as Hwf'.
  pose proof (rekeyed_whole_blocks generateRandomKey c m Hwf Hfresh Hne Hkids) as Hwhole.
  fold out in Hwf', Hwhole.
  rewrite <- (rekeyed_whole generateRandomKey (c + length m) out Hwf' Hwhole).
  rewrite <- Hlen. apply rekeyed_run; [done| |].
  - rewrite Hlen. unfold out. rewrite keysOf_rekeyed, newKeys_shift. done.
  - unfold out. rewrite keysOf_rekeyed.
    intros (x & Hx & Hin%elem_of_seq)%list_elem_of_fmap.
    apply (Hproto2 x); [lia|done].
Qed.

(** ** Further properties of the handlers *)

Section MoreComposition.
Context {Document : Type} `{Composition.Host Document}.
Import Composition.
Local Open Scope list_scope.

Implicit Types w : World Document.

Lemma hostCalls_passed w :
  stillComposing (session w) = false →
  hostCalls (editor (resolveComposition w)) = hostCalls (editor w) ++ resolutionLog w.
Proof. intros Hs. by rewrite (resolveComposition_passed w Hs). Qed.

(** What one event does to the editor: nothing beyond at most one
    [preventDefault], or one resolution, after which [onKeyDown] hands the
    key on. *)
Lemma step_cases w e :
  (∃ d, hostCalls (editor (step w e)) = hostCalls (editor w) ++ d
        ∧ (d = [] ∨ d = [preventDefault])
        ∧ _latestEditorState (editor (step w e)) = _latestEditorState (editor w))
  ∨ (∃ w0 tail,
        stillComposing (session w0) = false
        ∧ editor w0 = editor w
        ∧ hostCalls (editor (step w e))
          = hostCalls (editor w) ++ resolutionLog w0 ++ tail
        ∧ (tail = [] ∨ ∃ k, tail = [_onKeyDown k])
        ∧ session (step w e) = mkSession true false "" (setTimeoutId (session w0)) ""
        ∧ _latestEditorState (editor (step w e)) = committed w0).
Proof.
  assert (Hquiet : ∀ w', editor w' = editor w →
            ∃ d, hostCalls (editor w') = hostCalls (editor w) ++ d
                 ∧ (d = [] ∨ d = [preventDefault])
                 ∧ _latestEditorState (editor w') = _latestEditorState (editor w)).
  { intros w' ->. exists []. by rewrite app_nil_r; auto. }
  assert (Hres : ∀ w0, stillComposing (session w0) = false → editor w0 = editor w →
            ∃ w1 tail,
              stillComposing (session w1) = false
              ∧ editor w1 = editor w
              ∧ hostCalls (editor (resolveComposition w0))
                = hostCalls (editor w) ++ resolutionLog w1 ++ tail
              ∧ (tail = [] ∨ ∃ k, tail = [_onKeyDown k])
              ∧ session (resolveComposition w0)
                = mkSession true false "" (setTimeoutId (session w1)) ""
              ∧ _latestEditorState (editor (resolveComposition w0)) = committed w1).
  { intros w0 Hs He. exists w0, []. rewrite app_nil_r, <- He.
    split_and!; try done; [by apply hostCalls_passed|by left| |];
      by rewrite (resolveComposition_passed w0 Hs). }
  destruct e as [d|d|d| |k|k|id]; simpl.
  - left. by apply Hquiet.
  - left. by apply Hquiet.
  - left. apply Hquiet. unfold onCompositionUpdate.
    destruct isAndroid; simpl; [|done]. by destruct (setTimeoutId (session w)).
  - left. by apply Hquiet.
  - unfold onKeyDown. destruct (stillComposing (session w)) eqn:Hs; simpl.
    + left. destruct (_ || _); [|by apply Hquiet].
      exists [preventDefault]. by auto.
    + right. exists w, [_onKeyDown k]. rewrite (resolveComposition_passed w Hs). simpl.
      split_and!; try done; [|by eauto].
      unfold resolutionLog. by rewrite <- !List.app_assoc.
  - left. unfold onKeyPress. destruct (bool_decide _); [|by apply Hquiet].
    exists [preventDefault]. by auto.
  - unfold fire. destruct (list_find _ _) as [[i tm]|]; [|left; by apply Hquiet].
    destruct (task tm) as [|d]; simpl.
    + unfold resolveAfterEndFires. destruct (negb _); [|left; by apply Hquiet].
      destruct (stillComposing (session w)) eqn:Hs.
      * left. rewrite resolveComposition_guarded by done. by apply Hquiet.
      * right. by apply Hres.
    + unfold keepAliveFires. destruct (_ && _); [|left; by apply Hquiet].
      right. by apply Hres.
Qed.

Lemma emittedBy_app w w' d :
  hostCalls (editor w') = hostCalls (editor w) ++ d → emittedBy w w' = d.
Proof. intros Hd. unfold emittedBy. by rewrite Hd, drop_app_length. Qed.

Lemma updatesOf_resolutionLog w : updatesOf (resolutionLog w) = [committed w].
Proof. unfold resolutionLog. by destruct (mustReset _ _). Qed.

Lemma exitsOf_resolutionLog w : exitsOf (resolutionLog w) = [()].
Proof. unfold resolutionLog. by destruct (mustReset _ _). Qed.

Lemma restoresOf_resolutionLog w : (length (restoresOf (resolutionLog w)) ≤ 1)%nat.
Proof. unfold resolutionLog. destruct (mustReset _ _); simpl; lia. Qed.

(** X8: in handling one event the handler itself calls [update] at most
    once.  When it does, its calls are those of one resolution,
    [restoreEditorDOM] if need be, then [exitCurrentMode], then the
    [update], after which a key may be handed on to [editor._onKeyDown]; and
    the handler has left the session resolved, out of composition, with
    both buffers empty.  What [editor._onKeyDown] does with the key is the
    edit handler's and is not stated here. *)
Theorem event_commits_at_most_once w e :
  let w' := step w e in
  let calls := emittedBy w w' in
  (length (updatesOf calls) ≤ 1)%nat
  ∧ (updatesOf calls ≠ [] →
       (∃ es' before after,
          calls = before ++ [exitCurrentMode; update es'] ++ after
          ∧ (before = [] ∨ before = [restoreEditorDOM])
          ∧ (after = [] ∨ ∃ which, after = [_onKeyDown which]))
       ∧ resolved (session w') = true
       ∧ stillComposing (session w') = false
       ∧ textInputData (session w') = ""
       ∧ formerTextInputData (session w') = "").
Proof.
  intros w' calls. unfold calls, w'.
  destruct (step_cases w e) as [(d & Hd & Hsh & _)|(w0 & tail & _ & _ & Hd & Ht & Hs & _)].
  - rewrite (emittedBy_app _ _ _ Hd). destruct Hsh as [->| ->]; simpl; split; (lia || done).
  - rewrite (emittedBy_app _ _ _ Hd). split.
    + unfold updatesOf. rewrite omap_app.
      fold (updatesOf (resolutionLog w0)). rewrite updatesOf_resolutionLog.
      destruct Ht as [->|[k ->]]; simpl; lia.
    + intros _. rewrite Hs. simpl. split_and!; try done.
      exists (committed w0),
        (if mustReset (textInputData (session w0)) (snapshot w0)
         then [restoreEditorDOM] else []), tail.
      split_and!.
      * unfold resolutionLog. by rewrite <- !List.app_assoc.
      * destruct (mustReset _ _); by auto.
      * done.
Qed.

(** X9: over any sequence of events the editor is told to leave composition
    mode exactly as often as it is handed an update, and to restore the DOM
    at most that often. *)
Theorem exits_match_updates w es :
  let d := emittedBy w (run w es) in
  hostCalls (editor (run w es)) = hostCalls (editor w) ++ d
  ∧ length (exitsOf d) = length (updatesOf d)
  ∧ (length (restoresOf d) ≤ length (updatesOf d))%nat.
Proof.
  revert w. induction es as [|e es IH]; intros w; simpl.
  { unfold emittedBy. rewrite drop_all. by rewrite app_nil_r. }
  destruct (IH (step w e)) as (Hlog & Hex & Hre).
  fold (run (step w e) es) in *.
  set (d' := emittedBy (step w e) (run (step w e) es)) in *.
  assert (Hstep : ∃ d, hostCalls (editor (step w e)) = hostCalls (editor w) ++ d
                       ∧ length (exitsOf d) = length (updatesOf d)
                       ∧ (length (restoresOf d) ≤ length (updatesOf d))%nat).
  { destruct (step_cases w e)
      as [(d & Hd & Hsh & _)|(w0 & tail & _ & _ & Hd & Ht & _ & _)].
    - exists d. split; [done|]. by destruct Hsh as [->| ->].
    - exists (resolutionLog w0 ++ tail). split; [done|].
      unfold exitsOf, updatesOf, restoresOf. rewrite !omap_app, !length_app.
      fold (exitsOf (resolutionLog w0)). fold (updatesOf (resolutionLog w0)).
      fold (restoresOf (resolutionLog w0)).
      rewrite exitsOf_resolutionLog, updatesOf_resolutionLog.
      pose proof (restoresOf_resolutionLog w0).
      destruct Ht as [->|[k ->]]; simpl; lia. }
  destruct Hstep as (d & Hd & Hex' & Hre').
  assert (Hall : hostCalls (editor (run (step w e) es))
                 = hostCalls (editor w) ++ d ++ d').
  { by rewrite Hlog, Hd, <- List.app_assoc. }
  rewrite (emittedBy_app _ _ _ Hall). split; [done|].
  unfold exitsOf, updatesOf, restoresOf in *. rewrite !omap_app, !length_app. lia.
Qed.

(** *** While a composition goes on *)

Lemma composing_step w e :
  isAndroid = false → isEnd e = false →
  stillComposing (session w) = true →
  Forall (λ tm, task tm = resolveAfterEnd) (timers w) →
  let w' := step w e in
  stillComposing (session w') = true
  ∧ Forall (λ tm, task tm = resolveAfterEnd) (timers w')
  ∧ _latestEditorState (editor w') = _latestEditorState (editor w)
  ∧ (∃ d, hostCalls (editor w') = hostCalls (editor w) ++ d
          ∧ Forall (λ c, c = preventDefault) d)
  ∧ textInputData (session w') = (textInputData (session w) ++ inputOf [e])%string.
Proof.
  intros Ha He Hs Ht.
  assert (Hnil : ∃ d : list (HostCall Document),
            hostCalls (editor w) = hostCalls (editor w) ++ d
            ∧ Forall (λ c, c = preventDefault) d).
  { exists []. by rewrite app_nil_r. }
  assert (Hpd : ∃ d : list (HostCall Document),
            hostCalls (editor w) ++ [preventDefault] = hostCalls (editor w) ++ d
            ∧ Forall (λ c, c = preventDefault) d).
  { exists [preventDefault]. split; [done|]. by repeat constructor. }
  destruct e as [d|d|d| |k|k|id]; try done; simpl; rewrite ?string_app_nil_r.
  - done.
  - done.
  - unfold onCompositionUpdate. by rewrite Ha.
  - unfold onKeyDown. rewrite Hs. simpl. by destruct (_ || _).
  - unfold onKeyPress. by destruct (bool_decide _).
  - unfold fire. destruct (list_find _ _) as [[i tm]|] eqn:Hfind; [|done].
    apply list_find_Some in Hfind as (Hi%list_elem_of_lookup_2 & _ & _).
    rewrite Forall_forall in Ht. rewrite (Ht tm Hi). simpl.
    assert (Hf : Forall (λ tm, task tm = resolveAfterEnd)
                   (filter (λ t, timerId t ≠ id) (timers w))).
    { apply Forall_forall. intros x [_ Hx]%list_elem_of_filter. by apply Ht. }
    unfold resolveAfterEndFires. destruct (negb _); [|done].
    by rewrite resolveComposition_guarded.
Qed.

(** X10: off Android, while a composition goes on and only end timers are
    pending, no sequence of events without a [compositionend] commits
    anything: the editor state stays as it is, the only calls made are
    [preventDefault], and the buffer grows by the [beforeinput] data. *)
Theorem composition_commits_nothing_before_end w es :
  isAndroid = false →
  stillComposing (session w) = true →
  Forall (λ tm, task tm = resolveAfterEnd) (timers w) →
  forallb (λ e, negb (isEnd e)) es = true →
  let w' := run w es in
  stillComposing (session w') = true
  ∧ _latestEditorState (editor w') = _latestEditorState (editor w)
  ∧ Forall (λ c, c = preventDefault) (emittedBy w w')
  ∧ updatesOf (emittedBy w w') = []
  ∧ textInputData (session w') = (textInputData (session w) ++ inputOf es)%string.
Proof.
  intros Ha Hs Ht Hes w'.
  assert (Hrun : stillComposing (session w') = true
                 ∧ _latestEditorState (editor w') = _latestEditorState (editor w)
                 ∧ (∃ d, hostCalls (editor w') = hostCalls (editor w) ++ d
                         ∧ Forall (λ c, c = preventDefault) d)
                 ∧ textInputData (session w')
                   = (textInputData (session w) ++ inputOf es)%string).
  { unfold w'. clear w'. revert w Hs Ht Hes.
    induction es as [|e es IH]; intros w Hs Ht Hes.
    - simpl. rewrite string_app_nil_r. split_and!; try done.
      exists []. by rewrite app_nil_r.
    - simpl in Hes. apply andb_true_iff in Hes as [He%negb_true_iff Hes].
      destruct (composing_step w e Ha He Hs Ht) as (Hs' & Ht' & Hl' & (d & Hd & Hpd) & Htx).
      destruct (IH (step w e) Hs' Ht' Hes) as (Hs2 & Hl2 & (d' & Hd' & Hpd') & Htx').
      change (run w (e :: es)) with (run (step w e) es).
      split_and!; [done|congruence| |].
      + exists (d ++ d'). split; [by rewrite Hd', Hd, <- List.app_assoc|].
        by apply Forall_app.
      + rewrite Htx', Htx, string_app_assoc. f_equal.
        by destruct e; simpl; rewrite ?string_app_nil_r. }
  destruct Hrun as (Hs' & Hl' & (d & Hd & Hpd) & Htx).
  rewrite (emittedBy_app _ _ _ Hd). split_and!; try done.
  clear Hd. induction Hpd as [|c d -> _ IH]; [done|]. by simpl.
Qed.

(** *** Several [compositionend] events in a row *)

Lemma run_ends n : ∀ w,
  let w1 := run w (replicate (S n) CompositionEnd) in
  session w1
  = mkSession false false (textInputData (session w)) (setTimeoutId (session w))
      (formerTextInputData (session w))
  ∧ editor w1 = editor w
  ∧ domSelection w1 = domSelection w
  ∧ timers w1
    = timers w
      ++ ((λ i, mkTimer (S (nextTimerId w + i)) RESOLVE_DELAY resolveAfterEnd)
            <$> seq 0 (S n))
  ∧ nextTimerId w1 = nextTimerId w + S n.
Proof.
  induction n as [|n IH]; intros w.
  - simpl. split_and!; try done; repeat f_equal; lia.
  - change (run w (replicate (S (S n)) CompositionEnd))
      with (run (onCompositionEnd w) (replicate (S n) CompositionEnd)).
    destruct (IH (onCompositionEnd w)) as (Hs & He & Hd & Ht & Hn).
    split_and!; try done.
    + rewrite Ht. simpl. rewrite <- !List.app_assoc. f_equal. simpl.
      f_equal; [repeat f_equal; lia|]. f_equal; [repeat f_equal; lia|].
      rewrite <- !fmap_S_seq, <- !list_fmap_compose.
      apply list_fmap_ext. intros i x _. simpl. repeat f_equal; lia.
    + rewrite Hn. simpl. lia.
Qed.

(** Firing a timer once a resolution is through changes nothing but the
    queue. *)
Lemma fire_resolved nx id w :
  resolved (session w) = true →
  Forall (λ tm, nx < timerId tm → task tm = resolveAfterEnd) (timers w) →
  nx < id →
  session (fire id w) = session w
  ∧ editor (fire id w) = editor w
  ∧ Forall (λ tm, nx < timerId tm → task tm = resolveAfterEnd) (timers (fire id w)).
Proof.
  intros Hr Hall Hid. unfold fire.
  destruct (list_find _ _) as [[i tm]|] eqn:Hfind; [|done].
  apply list_find_Some in Hfind as (Hi%list_elem_of_lookup_2 & Htm & _).
  rewrite Forall_forall in Hall. rewrite (Hall tm Hi) by lia. simpl.
  unfold resolveAfterEndFires. simpl. rewrite Hr. simpl. split_and!; try done.
  apply Forall_forall. intros x [_ Hx]%list_elem_of_filter. by apply Hall.
Qed.

Lemma run_fire_resolved nx ids : ∀ w,
  resolved (session w) = true →
  Forall (λ tm, nx < timerId tm → task tm = resolveAfterEnd) (timers w) →
  Forall (λ id, nx < id) ids →
  session (run w (TimerFires <$> ids)) = session w
  ∧ editor (run w (TimerFires <$> ids)) = editor w.
Proof.
  induction ids as [|id ids IH]; intros w Hr Hall Hids; [done|].
  apply Forall_cons in Hids as [Hid Hids].
  destruct (fire_resolved nx id w Hr Hall Hid) as (Hs & He & Hall').
  rewrite fmap_cons. change (run w (TimerFires id :: (TimerFires <$> ids)))
    with (run (fire id w) (TimerFires <$> ids)).
  destruct (IH (fire id w)) as [Hs' He']; [by rewrite Hs|done|done|].
  by rewrite Hs', He', Hs, He.
Qed.

(** X11: after any number of [compositionend] events in a row, whichever of
    their timers fires first resolves the composition; the firings that
    follow find [resolved] set and do nothing.  The composition is handled
    once, however often [compositionend] was fired. *)
Theorem repeated_compositionend_resolves_once w n id ids :
  timersIssued w →
  Forall (λ i, nextTimerId w < i ≤ nextTimerId w + S n) (id :: ids) →
  let w1 := run w (replicate (S n) CompositionEnd) in
  let w2 := run w1 (TimerFires <$> (id :: ids)) in
  textInputData (session w1) = textInputData (session w)
  ∧ emittedBy w w1 = []
  ∧ emittedBy w1 w2 = resolutionLog w1
  ∧ updatesOf (emittedBy w1 w2) = [committed w1]
  ∧ session w2 = mkSession true false "" (setTimeoutId (session w)) "".
Proof.
  intros [Hall Hk] Hids w1 w2.
  destruct (run_ends n w) as (Hs & He & Hd & Ht & Hn). fold w1 in Hs, He, Hd, Ht, Hn.
  apply Forall_cons in Hids as [Hid Hids].
  assert (Hend : Forall (λ tm, nextTimerId w < timerId tm → task tm = resolveAfterEnd)
                   (timers w1)).
  { rewrite Ht. apply Forall_app. split.
    - eapply Forall_impl; [exact Hall|]. simpl. intros tm Hle Hlt. lia.
    - apply Forall_fmap, Forall_forall. by intros i _ _. }
  assert (Hfire : fire id w1 = resolveComposition (clearTimeout id w1)).
  { unfold fire. destruct (list_find _ _) as [[i tm]|] eqn:Hfind.
    - apply list_find_Some in Hfind as (Hi%list_elem_of_lookup_2 & Htm & _).
      rewrite Forall_forall in Hend. rewrite (Hend tm Hi) by lia. simpl.
      unfold resolveAfterEndFires. simpl. by rewrite Hs.
    - apply list_find_None in Hfind. rewrite Forall_forall in Hfind.
      exfalso. apply (Hfind (mkTimer id RESOLVE_DELAY resolveAfterEnd)); [|done].
      rewrite Ht. apply elem_of_app. right. apply list_elem_of_fmap.
      exists (id - S (nextTimerId w)). split; [f_equal; lia|].
      apply elem_of_seq. lia. }
  assert (Hsc : stillComposing (session (clearTimeout id w1)) = false)
    by (simpl; by rewrite Hs).
  assert (Hc : committed (clearTimeout id w1) = committed w1) by done.
  assert (Hl : resolutionLog (clearTimeout id w1) = resolutionLog w1) by done.
  pose proof (resolveComposition_passed _ Hsc) as Hres. rewrite Hc in Hres.
  destruct (run_fire_resolved (nextTimerId w) ids (fire id w1)) as [Hs2 He2].
  { by rewrite Hfire, Hres. }
  { rewrite Hfire, Hres. simpl.
    apply Forall_forall. intros x [_ Hx]%list_elem_of_filter.
    rewrite Forall_forall in Hend. by apply Hend. }
  { eapply Forall_impl; [exact Hids|]. simpl. lia. }
  assert (Hlog : hostCalls (editor w2) = hostCalls (editor w1) ++ resolutionLog w1).
  { unfold w2. rewrite fmap_cons.
    change (run w1 (TimerFires id :: (TimerFires <$> ids)))
      with (run (fire id w1) (TimerFires <$> ids)).
    rewrite He2, Hfire. rewrite (hostCalls_passed _ Hsc). by rewrite Hl. }
  split_and!.
  - by rewrite Hs.
  - unfold emittedBy. rewrite He. apply drop_all.
  - by apply emittedBy_app.
  - rewrite (emittedBy_app _ _ _ Hlog). apply updatesOf_resolutionLog.
  - unfold w2. rewrite fmap_cons.
    change (run w1 (TimerFires id :: (TimerFires <$> ids)))
      with (run (fire id w1) (TimerFires <$> ids)).
    rewrite Hs2, Hfire, Hres. simpl. by rewrite Hs.
Qed.

(** *** Input and keys after [compositionend] *)

Lemma inputOf_app (es es' : list Event) :
  inputOf (es ++ es') = (inputOf es ++ inputOf es')%string.
Proof.
  induction es as [|e es IH]; [done|].
  destruct e; simpl; try done. by rewrite IH, string_app_assoc.
Qed.

Lemma run_inputs ds : ∀ w,
  run w (BeforeInput <$> ds)
  = with_session
      (mkSession (resolved (session w)) (stillComposing (session w))
         (textInputData (session w) ++ inputOf (BeforeInput <$> ds))
         (setTimeoutId (session w)) (formerTextInputData (session w))) w.
Proof.
  induction ds as [|d ds IH]; intros w.
  - simpl. rewrite string_app_nil_r. by destruct w as [[] ? ? ? ?].
  - rewrite fmap_cons.
    change (run w (BeforeInput d :: (BeforeInput <$> ds)))
      with (run (onBeforeInput d w) (BeforeInput <$> ds)).
    rewrite IH. simpl. by rewrite string_app_assoc.
Qed.

Lemma inputs_not_firing t ds :
  forallb (λ e, negb (fires t e)) (BeforeInput <$> ds) = true.
Proof. by induction ds. Qed.

(** X12: a key pressed after [compositionend], before its timer fires,
    resolves the composition at once, with the input handed over since, and
    then hands the key on to the editor; the timer later fires for
    nothing. *)
Theorem keydown_after_end_resolves_at_once w ds which :
  timersIssued w →
  let t := S (nextTimerId w) in
  let w1 := run w (CompositionEnd :: (BeforeInput <$> ds)) in
  let w2 := onKeyDown which w1 in
  let w3 := fire t w2 in
  textInputData (session w1)
  = (textInputData (session w) ++ inputOf (BeforeInput <$> ds))%string
  ∧ emittedBy w1 w2 = resolutionLog w1 ++ [_onKeyDown which]
  ∧ updatesOf (emittedBy w1 w2) = [committed w1]
  ∧ emittedBy w2 w3 = []
  ∧ session w3 = session w2
  ∧ editor w3 = editor w2.
Proof.
  intros Hw t w1 w2 w3.
  assert (Hw1 : w1 = run (onCompositionEnd w) (BeforeInput <$> ds)) by done.
  assert (Hs1 : stillComposing (session w1) = false) by by rewrite Hw1, run_inputs.
  assert (Hp1 : timerPending t w1).
  { rewrite Hw1. apply run_keeps_timer; [apply inputs_not_firing|].
    by apply pending_after_end. }
  assert (Hp2 : timerPending t w2) by by apply (step_keeps_timer t w1 (KeyDown which)).
  assert (Hlog : hostCalls (editor w2)
                 = hostCalls (editor w1) ++ resolutionLog w1 ++ [_onKeyDown which]).
  { unfold w2, onKeyDown. rewrite Hs1. simpl.
    by rewrite (hostCalls_passed _ Hs1), <- List.app_assoc. }
  assert (Hr2 : resolved (session w2) = true).
  { unfold w2, onKeyDown. rewrite Hs1. simpl. by rewrite (resolveComposition_passed _ Hs1). }
  assert (Hfire : session w3 = session w2 ∧ editor w3 = editor w2).
  { unfold w3, fire. destruct (list_find _ _) as [[i tm]|] eqn:Hfind; [|done].
    apply list_find_Some in Hfind as (Hi%list_elem_of_lookup_2 & Htm & _).
    destruct Hp2 as (_ & Hall & _ & _). rewrite Forall_forall in Hall.
    rewrite (Hall tm Hi Htm). simpl. unfold resolveAfterEndFires. simpl.
    by rewrite Hr2. }
  destruct Hfire as [Hs3 He3]. split_and!; try done.
  - by rewrite Hw1, run_inputs.
  - by apply emittedBy_app.
  - rewrite (emittedBy_app _ _ _ Hlog). unfold updatesOf. rewrite omap_app.
    fold (updatesOf (resolutionLog w1)). by rewrite updatesOf_resolutionLog.
  - unfold emittedBy. rewrite He3. apply drop_all.
Qed.

(** *** The keep-alive timer of Android *)

(** X13: on Android, during a composition, [compositionupdate] arms a timer
    and notes the buffer as former characters; when that timer fires with
    nothing in between, the composition is resolved without any
    [compositionend]: the buffer followed by the data of the update is
    inserted, after the removal of as many characters as the buffer held. *)
Theorem keep_alive_resolves_on_android w data :
  isAndroid = true →
  timersIssued w →
  stillComposing (session w) = true →
  let t := S (nextTimerId w) in
  let w1 := onCompositionUpdate data w in
  let w2 := fire t w1 in
  let text := textInputData (session w) in
  let es := snapshot w in
  let rm := speculativeRemoval text es in
  setTimeoutId (session w1) = Some t
  ∧ formerTextInputData (session w1) = text
  ∧ emittedBy w w1 = []
  ∧ session w2 = mkSession true false "" (Some t) ""
  ∧ updatesOf (emittedBy w1 w2)
    = [if nonEmpty (text ++ data) then
         push es
           (remapSelection (domSelection w) rm.2
              (replaceText rm.1 rm.2 (text ++ data)%string (getCurrentInlineStyle es)
                 (getEntityKeyForSelection (currentContent es) (selection es))))
           insert_characters
       else set_forcedReset es].
Proof.
  intros Ha [Hall Hk] Hs t w1 w2 text es rm.
  destruct w as [[r sc txt id f] ed dom tms nx]; simpl in *. subst sc.
  set (tms' := match id with
               | Some i => filter (λ tm, timerId tm ≠ i) tms
               | None => tms
               end).
  assert (Hw1 : w1 = mkWorld (mkSession false true txt (Some t) txt) ed dom
                  (tms' ++ [mkTimer t 1 (keepAlive data)]) t).
  { unfold w1, onCompositionUpdate. rewrite Ha. simpl. by destruct id. }
  assert (Hold : Forall (λ tm, timerId tm ≤ nx)%nat tms').
  { unfold tms'. destruct id; [|done].
    apply Forall_forall. intros x [_ Hx]%list_elem_of_filter.
    rewrite Forall_forall in Hall. by apply Hall. }
  set (w0 := mkWorld (mkSession false false (txt ++ data) (Some t) txt) ed dom
               (filter (λ tm, timerId tm ≠ t) (tms' ++ [mkTimer t 1 (keepAlive data)]))
               t).
  assert (Hw2 : w2 = resolveComposition w0).
  { unfold w2, fire. rewrite Hw1. simpl.
    destruct (list_find _ _) as [[i tm]|] eqn:Hfind.
    - apply list_find_Some in Hfind as (Hi%list_elem_of_lookup_2 & Htm & _).
      apply elem_of_app in Hi as [Hi|Hi].
      + rewrite Forall_forall in Hold. specialize (Hold tm Hi). unfold t in Htm. lia.
      + apply list_elem_of_singleton in Hi as ->. done.
    - apply list_find_None in Hfind. rewrite Forall_forall in Hfind.
      exfalso. apply (Hfind (mkTimer t 1 (keepAlive data))); [|done].
      apply elem_of_app. right. by left. }
  assert (Hs0 : stillComposing (session w0) = false) by done.
  pose proof (resolveComposition_passed w0 Hs0) as Hres.
  split_and!.
  - by rewrite Hw1.
  - by rewrite Hw1.
  - rewrite Hw1. unfold emittedBy. simpl. apply drop_all.
  - by rewrite Hw2, Hres.
  - assert (Hlog : hostCalls (editor w2) = hostCalls (editor w1) ++ resolutionLog w0).
    { rewrite Hw2, (hostCalls_passed w0 Hs0). by rewrite Hw1. }
    rewrite (emittedBy_app _ _ _ Hlog), updatesOf_resolutionLog. done.
Qed.

Lemma keepAlives_clear id w :
  keepAlives (clearTimeout id w) = filter (λ tm, timerId tm ≠ id) (keepAlives w).
Proof.
  unfold keepAlives. simpl. generalize (timers w). intros l.
  induction l as [|tm l IH]; [done|].
  rewrite !filter_cons.
  destruct (decide (timerId tm ≠ id)), (decide (isKeepAlive tm = true));
    rewrite ?filter_cons; simpl;
    repeat (destruct (decide _); try done); by rewrite IH.
Qed.

Lemma keepAliveTracked_ext w w' :
  timers w' = timers w → setTimeoutId (session w') = setTimeoutId (session w) →
  keepAliveTracked w → keepAliveTracked w'.
Proof. unfold keepAliveTracked, keepAlives. by intros -> ->. Qed.

Lemma keepAliveTracked_clear id w :
  keepAliveTracked w → keepAliveTracked (clearTimeout id w).
Proof.
  intros [Hlen Hin]. unfold keepAliveTracked. rewrite keepAlives_clear. split.
  - etrans; [apply length_filter|done].
  - intros tm [_ Htm]%list_elem_of_filter. by apply Hin.
Qed.

Lemma keepAliveTracked_step w e : keepAliveTracked w → keepAliveTracked (step w e).
Proof.
  intros Hw. destruct e as [d|d|d| |k|k|id]; simpl.
  - by apply (keepAliveTracked_ext w).
  - by apply (keepAliveTracked_ext w).
  - unfold onCompositionUpdate. destruct isAndroid; simpl; [|done].
    assert (Hnone : keepAlives
                      match setTimeoutId (session w) with
                      | Some id => clearTimeout id w
                      | None => w
                      end = []).
    { destruct Hw as [_ Hin].
      destruct (setTimeoutId (session w)) as [id|] eqn:Hid.
      - rewrite keepAlives_clear. apply elem_of_nil_inv.
        intros tm [Hne Htm]%list_elem_of_filter. specialize (Hin tm Htm). congruence.
      - apply elem_of_nil_inv. intros tm Htm. specialize (Hin tm Htm). congruence. }
    unfold keepAliveTracked, keepAlives in *. simpl.
    rewrite filter_app, Hnone. simpl. split; [done|].
    intros tm ->%list_elem_of_singleton. done.
  - unfold onCompositionEnd, keepAliveTracked, keepAlives in *. simpl.
    rewrite filter_app. simpl. rewrite filter_cons_False by done.
    rewrite filter_nil, app_nil_r. done.
  - unfold onKeyDown. destruct (negb _).
    + destruct (resolveComposition_timers w) as (? & _ & ?).
      by apply (keepAliveTracked_ext w).
    + destruct (_ || _); [|done]. by apply (keepAliveTracked_ext w).
  - unfold onKeyPress. destruct (bool_decide _); [|done].
    by apply (keepAliveTracked_ext w).
  - unfold fire. destruct (list_find _ _) as [[i tm]|]; [|done].
    pose proof (keepAliveTracked_clear id w Hw) as Hc.
    destruct (task tm) as [|d]; simpl.
    + unfold resolveAfterEndFires. destruct (negb _); [|done].
      destruct (resolveComposition_timers (clearTimeout id w)) as (? & _ & ?).
      by apply (keepAliveTracked_ext (clearTimeout id w)).
    + unfold keepAliveFires. destruct (_ && _); [|done].
      match goal with |- keepAliveTracked (resolveComposition ?w0) =>
        destruct (resolveComposition_timers w0) as (? & _ & ?) end.
      by apply (keepAliveTracked_ext (clearTimeout id w)).
Qed.

(** X14: [compositionupdate] replaces the keep-alive timer it armed before.
    Starting without one, whatever events follow, at most one keep-alive
    timer is pending at any time, and [setTimeoutId] holds its handle. *)
Theorem at_most_one_keep_alive w es :
  keepAlives w = [] →
  let w' := run w es in
  (length (keepAlives w') ≤ 1)%nat
  ∧ ∀ tm, tm ∈ keepAlives w' → setTimeoutId (session w') = Some (timerId tm).
Proof.
  intros Hnone w'.
  assert (Hw : keepAliveTracked w).
  { unfold keepAliveTracked. rewrite Hnone. split; [simpl; lia|].
    by intros tm ?%not_elem_of_nil. }
  unfold w'. clear Hnone w'. revert w Hw.
  induction es as [|e es IH]; intros w Hw; [done|].
  change (run w (e :: es)) with (run (step w e) es).
  by apply IH, keepAliveTracked_step.
Qed.

(** *** A whole composition off Android *)

(** X15: off Android, a composition from [compositionstart] through
    [compositionend] to the firing of the end timer commits once: the text
    handed over by the [beforeinput] events, those after [compositionend]
    included, is inserted at the selection of the editor state with its
    inline style and entity, and nothing is removed or remapped; without
    any text the editor is reset instead.  Nothing is committed before the
    timer fires. *)
Theorem desktop_composition_commits_input_once w d0 ds1 ds2 :
  isAndroid = false →
  timersIssued w →
  let evs :=
    CompositionStart d0 :: (BeforeInput <$> ds1)
    ++ CompositionEnd :: (BeforeInput <$> ds2) in
  let t := S (nextTimerId w) in
  let w1 := run w evs in
  let w2 := fire t w1 in
  let text := (textInputData (session w) ++ inputOf evs)%string in
  let es := snapshot w in
  emittedBy w w1 = []
  ∧ updatesOf (emittedBy w1 w2)
    = [if nonEmpty text then
         push es
           (replaceText (currentContent es) (selection es) text
              (getCurrentInlineStyle es)
              (getEntityKeyForSelection (currentContent es) (selection es)))
           insert_characters
       else set_forcedReset es]
  ∧ session w2 = mkSession true false "" (setTimeoutId (session w)) "".
Proof.
  intros Ha [Hall Hk] evs t w1 w2 text es.
  destruct w as [[r sc txt id f] ed dom tms nx]; simpl in *.
  assert (Hw1 : w1 = mkWorld (mkSession false false text id d0) ed dom
                  (tms ++ [mkTimer t RESOLVE_DELAY resolveAfterEnd]) t).
  { unfold w1, evs.
    change (run ?w (CompositionStart d0 :: ?l)) with (run (onCompositionStart d0 w) l).
    rewrite run_app, run_inputs.
    change (run ?w (CompositionEnd :: ?l)) with (run (onCompositionEnd w) l).
    rewrite run_inputs. simpl. unfold text, evs. simpl.
    by rewrite inputOf_app, string_app_assoc. }
  set (w0 := clearTimeout t w1).
  assert (Hw2 : w2 = resolveComposition w0).
  { unfold w2, fire. rewrite Hw1. simpl.
    destruct (list_find _ _) as [[i tm]|] eqn:Hfind.
    - apply list_find_Some in Hfind as (Hi%list_elem_of_lookup_2 & Htm & _).
      apply elem_of_app in Hi as [Hi|Hi].
      + rewrite Forall_forall in Hall. specialize (Hall tm Hi). unfold t in Htm. lia.
      + apply list_elem_of_singleton in Hi as ->. simpl.
        unfold resolveAfterEndFires. simpl. unfold w0. by rewrite Hw1.
    - apply list_find_None in Hfind. rewrite Forall_forall in Hfind.
      exfalso. apply (Hfind (mkTimer t RESOLVE_DELAY resolveAfterEnd)); [|done].
      apply elem_of_app. right. by left. }
  assert (Hs0 : stillComposing (session w0) = false) by (unfold w0; by rewrite Hw1).
  pose proof (resolveComposition_passed w0 Hs0) as Hres.
  split_and!.
  - rewrite Hw1. unfold emittedBy. simpl. apply drop_all.
  - assert (Hlog : hostCalls (editor w2) = hostCalls (editor w1) ++ resolutionLog w0).
    { by rewrite Hw2, (hostCalls_passed w0 Hs0). }
    rewrite (emittedBy_app _ _ _ Hlog), updatesOf_resolutionLog.
    unfold w0. rewrite Hw1. unfold committed, speculativeRemoval, remapSelection.
    simpl. by rewrite Ha.
  - rewrite Hw2, Hres. unfold w0. by rewrite Hw1.
Qed.

(** *** Focus *)

(** X16: with an [EditorState.forceSelection] that shows the selection it is
    given, a focus event sets the focus flag, so that a second focus event
    finds it set and does nothing. *)
Theorem editOnFocus_twice (ed : Editor Document) :
  (∀ es sel, selection (EditorState_forceSelection es sel) = sel) →
  hasFocus (selection (_latestEditorState (editOnFocus ed))) = true
  ∧ editOnFocus (editOnFocus ed) = editOnFocus ed.
Proof.
  intros Hforce.
  assert (Hf : hasFocus (selection (_latestEditorState (editOnFocus ed))) = true).
  { unfold editOnFocus.
    destruct (hasFocus (selection (_latestEditorState ed))) eqn:Hfocus; [done|].
    simpl. by rewrite Hforce. }
  split; [done|]. unfold editOnFocus at 1. by rewrite Hf.
Qed.

End MoreComposition.

(** ** Runs of the further properties *)

Section FurtherRuns.
Import Composition OneBlock.
Local Open Scope list_scope.

Lemma tree_rekey_keeps_blocks_witness :
  (NoDup (keysOf cutAfterFirstChild) ∧ ("__proto__" ∉ keysOf cutAfterFirstChild)
   ∧ NoDup (gen8 <$> seq 0 2))
  ∧ ∃ out, randomizeBlockMapKeys gen8 0 (Node <$> cutAfterFirstChild)
           = Some (Node <$> out, 2)
      ∧ CBN.key <$> out = ["x0"; "x1"]
      ∧ CBN.text <$> out = [""; "one"].
Proof.
  assert (Hk : NoDup (keysOf cutAfterFirstChild)) by compute_done.
  assert (Hp : "__proto__" ∉ keysOf cutAfterFirstChild) by compute_done.
  assert (Hg : NoDup (gen8 <$> seq 0 2)) by compute_done.
  split; [by split_and!|].
  destruct (tree_rekey_keeps_blocks gen8 0 cutAfterFirstChild Hk Hp Hg)
    as (out & Hrun & Hkeys & _ & Htext & _).
  exists out. split_and!; [exact Hrun|exact Hkeys|exact Htext].
Defined.

Lemma flat_dispatch_on_first_block_witness :
  ((∀ n rest, flatThenNode ≠ Node n :: rest) ∧ NoDup (gen8 <$> seq 0 2))
  ∧ randomizeBlockMapKeys gen8 0 flatThenNode
    = Some ([ Flat (ContentBlock.mk "x0" "unstyled" "Hi" 0);
              Node (leaf "x1" "b" (Some "A") None (Some "C")) ], 2).
Proof.
  assert (Hf : ∀ n rest, flatThenNode ≠ Node n :: rest) by (intros n rest; discriminate).
  assert (Hg : NoDup (gen8 <$> seq 0 2)) by compute_done.
  split; [by split|].
  exact (proj1 (flat_dispatch_on_first_block gen8 0 flatThenNode Hf Hg)).
Defined.

Lemma rekeyed_links_stay_inside_witness :
  (wellFormed childThenRoot = true ∧ ("__proto__" ∉ keysOf childThenRoot)
   ∧ freshKeys gen8 0 2 (keysOf childThenRoot))
  ∧ ∃ out, randomizeBlockMapKeys gen8 0 (Node <$> childThenRoot) = Some (Node <$> out, 2)
      ∧ ∀ X', out !! 1 = Some X' → ∀ k, CBN.prevSibling X' = Some k → k ∈ keysOf out.
Proof.
  assert (Hwf : wellFormed childThenRoot = true) by reflexivity.
  assert (Hp : "__proto__" ∉ keysOf childThenRoot) by compute_done.
  assert (Hfresh : freshKeys gen8 0 2 (keysOf childThenRoot))
    by (unfold freshKeys; compute_done).
  split; [by split_and!|].
  destruct (rekeyed_links_stay_inside gen8 0 childThenRoot Hwf Hp Hfresh)
    as (out & Hrun & Hin).
  exists out. split; [exact Hrun|]. intros X' HX'.
  exact (proj1 (proj2 (Hin 1 _ X' eq_refl HX'))).
Defined.

Lemma rekeyed_roots_are_chained_witness :
  (wellFormed childThenRoot = true ∧ ("__proto__" ∉ keysOf childThenRoot)
   ∧ freshKeys gen8 0 2 (keysOf childThenRoot))
  ∧ ∃ out, randomizeBlockMapKeys gen8 0 (Node <$> childThenRoot) = Some (Node <$> out, 2)
      ∧ ∀ L' X', out !! 0 = Some L' → out !! 1 = Some X' →
          CBN.parent L' = None → CBN.parent X' = None →
          CBN.nextSibling L' = Some (CBN.key X')
          ∧ CBN.prevSibling X' = Some (CBN.key L').
Proof.
  assert (Hwf : wellFormed childThenRoot = true) by reflexivity.
  assert (Hp : "__proto__" ∉ keysOf childThenRoot) by compute_done.
  assert (Hfresh : freshKeys gen8 0 2 (keysOf childThenRoot))
    by (unfold freshKeys; compute_done).
  split; [by split_and!|].
  destruct (rekeyed_roots_are_chained gen8 0 childThenRoot Hwf Hp Hfresh)
    as (out & Hrun & Hchain).
  exists out. split; [exact Hrun|]. intros L' X' HL' HX' HpL HpX.
  apply (Hchain 0 1 L' X'); [lia|exact HL'|exact HX'|exact HpL|exact HpX|].
  intros j Y' Hj. lia.
Defined.

Lemma whole_document_rekey_is_renaming_witness :
  (wholeDocument twoRoots = true ∧ ("__proto__" ∉ keysOf twoRoots)
   ∧ freshKeys gen8 0 4 (keysOf twoRoots))
  ∧ randomizeBlockMapKeys gen8 0 (Node <$> twoRoots)
    = Some (Node <$> [ CBN.mk "x0" "unstyled" "" 0 None ["x1"; "x2"] None (Some "x3");
                       leaf "x1" "a" (Some "x0") None (Some "x2");
                       leaf "x2" "b" (Some "x0") (Some "x1") None;
                       leaf "x3" "r2" None (Some "x0") None ], 4).
Proof.
  assert (Hwhole : wholeDocument twoRoots = true) by reflexivity.
  assert (Hp : "__proto__" ∉ keysOf twoRoots) by compute_done.
  assert (Hfresh : freshKeys gen8 0 4 (keysOf twoRoots))
    by (unfold freshKeys; compute_done).
  split; [by split_and!|].
  exact (whole_document_rekey_is_renaming gen8 0 twoRoots Hwhole Hp Hfresh).
Defined.

Lemma gen8_not_empty x : x < 8 → gen8 x ≠ "".
Proof. intros Hx. do 8 (destruct x as [|x]; [discriminate|]). lia. Qed.

Lemma gen8_not_proto x : x < 8 → gen8 x ≠ "__proto__".
Proof. intros Hx. do 8 (destruct x as [|x]; [discriminate|]). lia. Qed.

Lemma scenarioB_children j X :
  scenarioB !! j = Some X →
  (length (filter (λ d, d ∉ keysOf scenarioB) (CBN.children X)) ≤ 1)%nat.
Proof.
  intros Hj. do 3 (destruct j as [|j]; [simplify_eq/=; vm_compute; lia|]). done.
Qed.

Lemma rekeying_gives_whole_document_witness :
  (wellFormed scenarioB = true ∧ ("__proto__" ∉ keysOf scenarioB)
   ∧ freshKeys gen8 0 3 (keysOf scenarioB))
  ∧ ∃ out, randomizeBlockMapKeys gen8 0 (Node <$> scenarioB) = Some (Node <$> out, 3)
      ∧ wholeDocument out = true.
Proof.
  assert (Hwf : wellFormed scenarioB = true) by reflexivity.
  assert (Hp : "__proto__" ∉ keysOf scenarioB) by compute_done.
  assert (Hfresh : freshKeys gen8 0 3 (keysOf scenarioB))
    by (unfold freshKeys; compute_done).
  split; [by split_and!|].
  destruct (rekeying_gives_whole_document gen8 0 scenarioB Hwf Hp Hfresh
              (λ x Hx, gen8_not_empty x ltac:(simpl in Hx; lia)) scenarioB_children)
    as (out & Hrun & _ & Hwhole).
  exists out. split; [exact Hrun|exact Hwhole].
Defined.

Lemma rekeying_twice_renames_witness :
  (wellFormed scenarioB = true ∧ ("__proto__" ∉ keysOf scenarioB)
   ∧ freshKeys gen8 0 6 (keysOf scenarioB))
  ∧ ∃ out, randomizeBlockMapKeys gen8 0 (Node <$> scenarioB) = Some (Node <$> out, 3)
      ∧ randomizeBlockMapKeys gen8 3 (Node <$> out)
        = Some (Node <$> (relabel (newKeyFor out gen8 3) <$> out), 6).
Proof.
  assert (Hwf : wellFormed scenarioB = true) by reflexivity.
  assert (Hp : "__proto__" ∉ keysOf scenarioB) by compute_done.
  assert (Hfresh : freshKeys gen8 0 6 (keysOf scenarioB))
    by (unfold freshKeys; compute_done).
  split; [by split_and!|].
  exact (rekeying_twice_renames gen8 0 scenarioB Hwf Hp Hfresh
           (λ x Hx, gen8_not_empty x ltac:(simpl in Hx; lia))
           (λ x Hx, gen8_not_proto x ltac:(simpl in Hx; lia)) scenarioB_children).
Defined.

Lemma event_commits_at_most_once_witness :
  let w := onCompositionEnd desktopRun in
  let w' := step (H:=host false) w (TimerFires 1) in
  updatesOf (emittedBy w w') ≠ []
  ∧ (length (updatesOf (emittedBy w w')) ≤ 1)%nat
  ∧ resolved (session w') = true
  ∧ textInputData (session w') = "".
Proof.
  intros w w'.
  assert (Hne : updatesOf (emittedBy w w') ≠ []) by (vm_compute; discriminate).
  split; [exact Hne|].
  destruct (event_commits_at_most_once (H:=host false) w (TimerFires 1)) as [Hlen Hc].
  destruct (Hc Hne) as (_ & Hr & _ & Ht & _).
  split_and!; [exact Hlen|exact Hr|exact Ht].
Defined.

Lemma composition_commits_nothing_before_end_witness :
  let w := composing "a" in
  let es := [BeforeInput "b"; KeyDown 39; CompositionUpdate "x"; KeyPress 13;
             CompositionStart "b"; TimerFires 7] in
  let w' := run (H:=host false) w es in
  (stillComposing (session w) = true
   ∧ Forall (λ tm, task tm = resolveAfterEnd) (timers w)
   ∧ forallb (λ e, negb (isEnd e)) es = true)
  ∧ updatesOf (emittedBy w w') = []
  ∧ textInputData (session w') = "ab".
Proof.
  intros w es w'. split; [by split_and!|].
  destruct (composition_commits_nothing_before_end (H:=host false) w es
              eq_refl eq_refl (Forall_nil_2 _) eq_refl) as (_ & _ & _ & Hu & Ht).
  split; [exact Hu|exact Ht].
Defined.

Lemma repeated_compositionend_resolves_once_witness :
  let w := desktopRun in
  let w1 := run (H:=host false) w (replicate 3 CompositionEnd) in
  let w2 := run (H:=host false) w1 (TimerFires <$> [2; 1; 3; 2]) in
  (timersIssued w
   ∧ Forall (λ i, nextTimerId w < i ≤ nextTimerId w + 3) [2; 1; 3; 2])
  ∧ (λ es, document (currentContent es)) <$> updatesOf (emittedBy w1 w2) = ["helloa"].
Proof.
  intros w w1 w2.
  assert (Hw : timersIssued w) by (split; [constructor|discriminate]).
  assert (Hids : Forall (λ i, nextTimerId w < i ≤ nextTimerId w + 3) [2; 1; 3; 2])
    by (repeat constructor; simpl; lia).
  split; [by split|].
  destruct (repeated_compositionend_resolves_once (H:=host false) w 2 2 [1; 3; 2] Hw Hids)
    as (_ & _ & _ & Hu & _).
  exact (f_equal (fmap (λ es, document (currentContent es))) Hu).
Defined.

Lemma keydown_after_end_resolves_at_once_witness :
  let w := desktopRun in
  let w1 := run (H:=host false) w [CompositionEnd; BeforeInput "b"] in
  let w2 := onKeyDown (H:=host false) 8 w1 in
  let w3 := fire (H:=host false) 1 w2 in
  timersIssued w
  ∧ (λ es, document (currentContent es)) <$> updatesOf (emittedBy w1 w2) = ["helloab"]
  ∧ emittedBy w2 w3 = [].
Proof.
  intros w w1 w2 w3.
  assert (Hw : timersIssued w) by (split; [constructor|discriminate]).
  split; [exact Hw|].
  destruct (keydown_after_end_resolves_at_once (H:=host false) w ["b"] 8 Hw)
    as (_ & _ & Hu & He & _).
  split; [|exact He].
  exact (f_equal (fmap (λ es, document (currentContent es))) Hu).
Defined.

Lemma keep_alive_resolves_on_android_witness :
  let w := composing "lo" in
  let w1 := onCompositionUpdate (H:=host true) "w" w in
  let w2 := fire (H:=host true) 1 w1 in
  (timersIssued w ∧ stillComposing (session w) = true)
  ∧ (λ es, document (currentContent es)) <$> updatesOf (emittedBy w1 w2) = ["hellow"]
  ∧ session w2 = mkSession true false "" (Some 1) "".
Proof.
  intros w w1 w2.
  assert (Hw : timersIssued w) by (split; [constructor|discriminate]).
  split; [by split|].
  destruct (keep_alive_resolves_on_android (H:=host true) w "w" eq_refl Hw eq_refl)
    as (_ & _ & _ & Hs & Hu).
  split; [|exact Hs].
  exact (f_equal (fmap (λ es, document (currentContent es))) Hu).
Defined.

Lemma at_most_one_keep_alive_witness :
  let w := composing "" in
  let es := [CompositionUpdate "a"; CompositionUpdate "ab"; CompositionEnd;
             CompositionStart ""; CompositionUpdate "abc"] in
  keepAlives w = []
  ∧ (length (keepAlives (run (H:=host true) w es)) ≤ 1)%nat.
Proof.
  intros w es. split; [reflexivity|].
  exact (proj1 (at_most_one_keep_alive (H:=host true) w es eq_refl)).
Defined.

Lemma desktop_composition_commits_input_once_witness :
  let w := world "hello" 5 5 idle 5 5 in
  let evs := CompositionStart "" :: (BeforeInput <$> ["a"; "b"])
             ++ CompositionEnd :: (BeforeInput <$> ["c"]) in
  let w1 := run (H:=host false) w evs in
  let w2 := fire (H:=host false) 1 w1 in
  timersIssued w
  ∧ emittedBy w w1 = []
  ∧ (λ es, document (currentContent es)) <$> updatesOf (emittedBy w1 w2) = ["helloabc"].
Proof.
  intros w evs w1 w2.
  assert (Hw : timersIssued w) by (split; [constructor|discriminate]).
  split; [exact Hw|].
  destruct (desktop_composition_commits_input_once (H:=host false) w "" ["a"; "b"] ["c"]
              eq_refl Hw) as (He & Hu & _).
  split; [exact He|].
  exact (f_equal (fmap (λ es, document (currentContent es))) Hu).
Defined.

Lemma editOnFocus_twice_witness :
  (∀ es sel, selection (EditorState_forceSelection (Host:=host false) es sel) = sel)
  ∧ hasFocus (selection (_latestEditorState (editOnFocus (H:=host false) blurred))) = true
  ∧ editOnFocus (H:=host false) (editOnFocus (H:=host false) blurred)
    = editOnFocus (H:=host false) blurred.
Proof.
  assert (Hforce : ∀ es sel,
            selection (EditorState_forceSelection (Host:=host false) es sel) = sel)
    by (intros es sel; reflexivity).
  split; [exact Hforce|].
  exact (editOnFocus_twice (H:=host false) blurred Hforce).
Defined.

End FurtherRuns.
